(** * goGFS: chunk replica, coordinator placement and client driver

    A shallow embedding of [src/src/gfs/client/client.go] (which holds the
    client driver, the chunk server and the master's chunk-server manager)
    and of [src/gfs/util/util.go], with the properties of the specification
    stated and proved over it, and further properties read off the code.

    Conventions.
    - Go's [int], [int64], [gfs.Offset], [gfs.ChunkVersion], [gfs.ChunkIndex]
      and [gfs.ChunkHandle] are 64-bit signed integers: a value is a [Z] and
      every addition on them is followed by [wrap64].
    - A Go map is a [gmap]; a [*chunkInfo] stored in [cs.chunk] is the map
      entry itself, so a write through the pointer is an update of the entry.
    - Each [ck.Lock() ... ck.Unlock()] region is one atomic step.  The region
      of an RPC handler is a definition of its own ([..._locked]) and the
      handler is defined from it.
    - What the environment decides (the outcome of a disk operation, of an
      outgoing RPC, of the random source, the iteration order of a Go map)
      is an argument of the function that asks for it. *)

From Stdlib Require Import ZArith List Lia.
From Stdlib Require Import Strings.Byte.
From stdpp Require Import gmap list strings.

Local Open Scope Z_scope.

(** ** Machine integers *)

Definition wrap64 (z : Z) : Z := (z + 2 ^ 63) mod 2 ^ 64 - 2 ^ 63.

Definition int64 (z : Z) : Prop := - 2 ^ 63 <= z < 2 ^ 63.

(** [len(x)] of a slice. *)
Definition len {A : Type} (l : list A) : Z := Z.of_nat (List.length l).

(** ** Outcomes of a run

    [Panics] is a Go run-time panic (nil pointer, slice bounds, division by
    zero); [OutOfFuel] is a loop of the source that has not ended within the
    fuel given to its model. *)

Inductive exec (A : Type) : Type :=
  | Returns (a : A)
  | Panics
  | OutOfFuel.
Arguments Returns {A} a.
Arguments Panics {A}.
Arguments OutOfFuel {A}.

#[global] Instance exec_ret : MRet exec := fun _ a => Returns a.
#[global] Instance exec_bind : MBind exec := fun _ _ f m =>
  match m with
  | Returns a => f a
  | Panics => Panics
  | OutOfFuel => OutOfFuel
  end.

(** ** Errors

    [gfs.ErrorCode] is declared in the [gfs] package, outside the sources at
    hand; [Success] stands for the zero value of a reply's [ErrorCode]
    field.  An [error] value has one constructor per [fmt.Errorf] site, plus
    [gfs.Error{code, _}], [io.EOF], the errors of the operating system and
    the errors of the transport. *)

Inductive ErrorCode : Type :=
  | Success
  | UnknownError
  | ReadEOF
  | AppendExceedChunkSize.

Inductive error : Type :=
  | GfsError (code : ErrorCode)
  | EOF
  | OsError
  | RpcError
  | ReadOffsetExceeds
  | WriteOffsetExceeds
  | AppendSizeExceeds
  | WriteChunkSizeExceeds
  | DataTooLarge
  | DuplicateData
  | DataNotFound
  | ChunkNotFound
  | WriteTooLarge
  | AppendTooLarge
  | DuplicatedVersion (site : Z) (version : Z)
  | InMutation
  | NotEnoughServers (num : Z)
  | SampleError
  | NoCandidates
  | ServerNotFound.

Inductive result (A : Type) : Type :=
  | Ok (a : A)
  | Err (e : error).
Arguments Ok {A} a.
Arguments Err {A} e.

#[global] Instance ErrorCode_eq_dec : EqDecision ErrorCode.
Proof. solve_decision. Defined.

#[global] Instance error_eq_dec : EqDecision error.
Proof. solve_decision. Defined.

(** ** Data of the chunk server *)

Inductive MutationType : Type :=
  | MutationWrite
  | MutationAppend
  | MutationPad.

#[global] Instance MutationType_eq_dec : EqDecision MutationType.
Proof. solve_decision. Defined.

Record Mutation : Type := mkMutation {
  m_mtype : MutationType;
  m_version : Z;
  m_data : list byte;
  m_offset : Z
}.

Record chunkInfo : Type := mkChunkInfo {
  ck_length : Z;
  ck_version : Z;
  ck_newestVersion : Z;
  ck_mutations : gmap Z Mutation
}.

(** [gfs.DataBufferID] is a handle and a time stamp; the code reads its
    [Handle] field. *)
Abbreviation DataBufferID := (Z * Z)%type.
Definition Handle (id : DataBufferID) : Z := fst id.

(** Modelled from the spec: the download buffer ([newDownloadBuffer] and its
    methods [New], [Get], [Set], [Delete]) is declared outside the sources at
    hand.  The specification gives it as a map from [DataID] to the staged
    bytes; [Set] stores, [Get] looks up, [Delete] removes, and a background
    tick drops the entries past their expiry. *)
Definition dl_Get (b : gmap DataBufferID (list byte)) (id : DataBufferID)
  : option (list byte) := b !! id.

Definition dl_Set (b : gmap DataBufferID (list byte)) (id : DataBufferID)
  (data : list byte) : gmap DataBufferID (list byte) := <[id := data]> b.

Definition dl_Delete (b : gmap DataBufferID (list byte)) (id : DataBufferID)
  : gmap DataBufferID (list byte) := delete id b.

Definition dl_New (handle : Z) (stamp : Z) : DataBufferID := (handle, stamp).

(** The arguments and replies of the chunk server's handlers. *)
Record WriteChunkArg : Type := mkWriteChunkArg {
  wc_DataID : DataBufferID;
  wc_Offset : Z;
  wc_Secondaries : list string
}.

Record AppendChunkArg : Type := mkAppendChunkArg {
  ac_DataID : DataBufferID;
  ac_Secondaries : list string
}.

Record AppendChunkReply : Type := mkAppendChunkReply {
  ar_Offset : Z;
  ar_ErrorCode : ErrorCode
}.

Record ApplyMutationArg : Type := mkApplyMutationArg {
  am_Mtype : MutationType;
  am_Version : Z;
  am_DataID : DataBufferID;
  am_Offset : Z
}.

Record ApplyCopyArg : Type := mkApplyCopyArg {
  cp_Handle : Z;
  cp_Data : list byte;
  cp_Version : Z
}.

(** The state of one chunk server.  [disk] maps a handle [h] to the content
    of [serverRoot/chunk<h>.chk]; [writeLog] holds the handle and version of
    every line that [writeChunk] has logged, oldest first.
    [pendingLeaseExtensions] is a [util.ArraySet], declared outside the
    sources at hand: the specification has it as a set of handles. *)
Record ChunkServer : Type := mkChunkServer {
  dl : gmap DataBufferID (list byte);
  pendingLeaseExtensions : gset Z;
  chunk : gmap Z chunkInfo;
  disk : gmap Z (list byte);
  writeLog : list (Z * Z)
}.

Definition set_dl (cs : ChunkServer) (b : gmap DataBufferID (list byte)) :=
  mkChunkServer b (pendingLeaseExtensions cs) (chunk cs) (disk cs) (writeLog cs).

Definition set_chunk (cs : ChunkServer) (h : Z) (ck : chunkInfo) :=
  mkChunkServer (dl cs) (pendingLeaseExtensions cs) (<[h := ck]> (chunk cs))
    (disk cs) (writeLog cs).

Definition set_file (cs : ChunkServer) (h : Z) (content : list byte) :=
  mkChunkServer (dl cs) (pendingLeaseExtensions cs) (chunk cs)
    (<[h := content]> (disk cs)) (writeLog cs).

Definition add_log (cs : ChunkServer) (h v : Z) :=
  mkChunkServer (dl cs) (pendingLeaseExtensions cs) (chunk cs) (disk cs)
    (writeLog cs ++ [(h, v)]).

Definition add_pending (cs : ChunkServer) (h : Z) :=
  mkChunkServer (dl cs) ({[h]} ∪ pendingLeaseExtensions cs) (chunk cs)
    (disk cs) (writeLog cs).

(** ** The disk

    What one call of [writeChunk] meets on the disk: both operations
    succeed, [os.OpenFile] fails, or [file.WriteAt] fails after [n] bytes. *)
Inductive io_outcome : Type :=
  | IoOk
  | IoOpenFails
  | IoWriteFails (n : nat).

(** [os.OpenFile(name, O_WRONLY|O_CREATE, 0744)]: the file is created empty
    when it does not exist and is left as it is otherwise. *)
Definition open_create (d : gmap Z (list byte)) (h : Z) : list byte :=
  default [] (d !! h).

(** [file.WriteAt(data, off)] for [0 <= off]: the gap between the end of the
    file and [off] reads as zero bytes. *)
Definition write_at (content : list byte) (off : Z) (data : list byte)
  : list byte :=
  match data with
  | [] => content
  | _ =>
    let o := Z.to_nat off in
    take o (content ++ replicate (o - List.length content)%nat x00)
      ++ data ++ drop (o + List.length data)%nat content
  end.

Section GFS.

(** [gfs.MaxChunkSize] and [gfs.MaxAppendSize] are constants of the [gfs]
    package, not among the sources at hand: they are parameters here. *)
Variables MaxChunkSize MaxAppendSize : Z.

(** *** [chunkInfo.nextVersion] *)
Definition nextVersion (ck : chunkInfo) : chunkInfo * Z :=
  let n := wrap64 (ck_newestVersion ck + 1) in
  (mkChunkInfo (ck_length ck) (ck_version ck) n (ck_mutations ck), n).

(** *** [ChunkServer.deleteDownloadedData] *)
Definition deleteDownloadedData (cs : ChunkServer) (id : DataBufferID)
  : ChunkServer * result (list byte) :=
  match dl_Get (dl cs) id with
  | None => (cs, Err DataNotFound)
  | Some data => (set_dl cs (dl_Delete (dl cs) id), Ok data)
  end.

(** *** [ChunkServer.RPCPushDataAndForward]

    [stamp] is what [dl.New] draws for the new id, [forwarded] the result of
    [util.CallAll] to the peers. *)
Definition RPCPushDataAndForward (cs : ChunkServer) (handle : Z)
  (data : list byte) (stamp : Z) (forwarded : option error)
  : ChunkServer * option DataBufferID * option error :=
  if MaxChunkSize <? len data then (cs, None, Some DataTooLarge)
  else
    let id := dl_New handle stamp in
    (set_dl cs (dl_Set (dl cs) id data), Some id, forwarded).

(** *** [ChunkServer.RPCForwardData] *)
Definition RPCForwardData (cs : ChunkServer) (id : DataBufferID)
  (data : list byte) : ChunkServer * option error :=
  match dl_Get (dl cs) id with
  | Some _ => (cs, Some DuplicateData)
  | None => (set_dl cs (dl_Set (dl cs) id data), None)
  end.

(** *** [ChunkServer.RPCCreateChunk]

    [opened] tells whether [os.OpenFile] succeeds. *)
Definition RPCCreateChunk (cs : ChunkServer) (handle : Z) (opened : bool)
  : ChunkServer * option error :=
  match chunk cs !! handle with
  | Some _ => (cs, None)
  | None =>
    let cs1 := set_chunk cs handle (mkChunkInfo 0 0 0 ∅) in
    if opened then (set_file cs1 handle (open_create (disk cs1) handle), None)
    else (cs1, Some OsError)
  end.

(** *** [ChunkServer.writeChunk] *)
Definition writeChunk (cs : ChunkServer) (handle version : Z)
  (data : list byte) (offset : Z) (lock : bool) (io : io_outcome)
  : exec (ChunkServer * option error) :=
  match chunk cs !! handle with
  | None => Panics
  | Some ck =>
    let newLen := wrap64 (offset + len data) in
    let length' := if ck_length ck <? newLen then newLen else ck_length ck in
    let ck' := mkChunkInfo length' version (ck_newestVersion ck)
                 (ck_mutations ck) in
    let cs1 := add_log (set_chunk cs handle ck') handle version in
    match io with
    | IoOpenFails => Returns (cs1, Some OsError)
    | IoOk =>
      let file := open_create (disk cs1) handle in
      if offset <? 0 then Returns (set_file cs1 handle file, Some OsError)
      else Returns (set_file cs1 handle (write_at file offset data), None)
    | IoWriteFails n =>
      let file := open_create (disk cs1) handle in
      if offset <? 0 then Returns (set_file cs1 handle file, Some OsError)
      else Returns (set_file cs1 handle (write_at file offset (take n data)),
                    Some OsError)
    end
  end.

(** [delete(ck.mutations, v)] on the chunk of [handle]. *)
Definition delete_mutation (cs : ChunkServer) (handle v : Z) : ChunkServer :=
  match chunk cs !! handle with
  | None => cs
  | Some ck =>
    set_chunk cs handle
      (mkChunkInfo (ck_length ck) (ck_version ck) (ck_newestVersion ck)
         (delete v (ck_mutations ck)))
  end.

(** *** [ChunkServer.doMutation]

    [io] lists what the successive calls of [writeChunk] meet on the disk;
    past its end every operation succeeds.  The loop of the source has no
    bound of its own: [fuel] bounds the number of its iterations. *)
Fixpoint doMutation_loop (fuel : nat) (cs : ChunkServer) (handle : Z)
  (io : list io_outcome) : exec (ChunkServer * option error) :=
  match fuel with
  | O => OutOfFuel
  | S fuel' =>
    match chunk cs !! handle with
    | None => Panics
    | Some ck =>
      match ck_mutations ck !! wrap64 (ck_version ck + 1) with
      | Some v =>
        let lock := bool_decide (m_mtype v = MutationAppend) in
        r ← (if decide (m_mtype v = MutationPad)
             then writeChunk cs handle (m_version v) [x00] (MaxChunkSize - 1)
                    lock (hd IoOk io)
             else writeChunk cs handle (m_version v) (m_data v) (m_offset v)
                    lock (hd IoOk io));
        let cs2 := delete_mutation r.1 handle (m_version v) in
        match r.2 with
        | Some e => Returns (cs2, Some e)
        | None => doMutation_loop fuel' cs2 handle (tl io)
        end
      | None => Returns (cs, None)
      end
    end
  end.

Definition resync (ck : chunkInfo) : chunkInfo :=
  if decide (size (ck_mutations ck) = 0%nat)
  then mkChunkInfo (ck_length ck) (ck_version ck) (ck_version ck)
         (ck_mutations ck)
  else ck.

Definition doMutation (fuel : nat) (cs : ChunkServer) (handle : Z)
  (io : list io_outcome) : exec (ChunkServer * option error) :=
  match chunk cs !! handle with
  | None => Panics
  | Some _ =>
    r ← doMutation_loop fuel cs handle io;
    match r.2 with
    | Some e => Returns (r.1, Some e)
    | None =>
      match chunk r.1 !! handle with
      | None => Panics
      | Some ck => Returns (set_chunk r.1 handle (resync ck), None)
      end
    end
  end.

(** *** [ChunkServer.RPCWriteChunk]

    The region between [ck.Lock()] and [ck.Unlock()].  On a duplicated
    version the handler returns from inside the region. *)
Definition RPCWriteChunk_locked (ck : chunkInfo) (newLen : Z)
  (data : list byte) (offset : Z) : chunkInfo * result Z :=
  let length' := if ck_length ck <? newLen then newLen else ck_length ck in
  let '(ck1, version) :=
    nextVersion (mkChunkInfo length' (ck_version ck) (ck_newestVersion ck)
                   (ck_mutations ck)) in
  match ck_mutations ck1 !! version with
  | Some _ => (ck1, Err (DuplicatedVersion 3 version))
  | None =>
    (mkChunkInfo (ck_length ck1) (ck_version ck1) (ck_newestVersion ck1)
       (<[version := mkMutation MutationWrite version data offset]>
          (ck_mutations ck1)),
     Ok version)
  end.

(** [callAll] is the result of [util.CallAll] on the secondaries for the
    arguments it is given. *)
Definition RPCWriteChunk (fuel : nat) (cs : ChunkServer) (args : WriteChunkArg)
  (io : list io_outcome) (callAll : ApplyMutationArg -> option error)
  : exec (ChunkServer * option error) :=
  match deleteDownloadedData cs (wc_DataID args) with
  | (cs0, Err e) => Returns (cs0, Some e)
  | (cs0, Ok data) =>
    let newLen := wrap64 (wc_Offset args + len data) in
    if MaxChunkSize <? newLen then Returns (cs0, Some WriteTooLarge)
    else
      let handle := Handle (wc_DataID args) in
      match chunk cs0 !! handle with
      | None => Returns (cs0, Some ChunkNotFound)
      | Some ck =>
        match RPCWriteChunk_locked ck newLen data (wc_Offset args) with
        | (ck1, Err e) => Returns (set_chunk cs0 handle ck1, Some e)
        | (ck1, Ok version) =>
          r ← doMutation fuel (set_chunk cs0 handle ck1) handle io;
          match r.2 with
          | Some e => Returns (r.1, Some e)
          | None =>
            match callAll (mkApplyMutationArg MutationWrite version
                             (wc_DataID args) (wc_Offset args)) with
            | Some e => Returns (r.1, Some e)
            | None => Returns (add_pending r.1 handle, None)
            end
          end
        end
      end
  end.

(** *** [ChunkServer.RPCAppendChunk]

    The region between [ck.Lock()] and [ck.Unlock()]: the kind of the
    mutation, the reply as filled so far, and the version or the error. *)
Definition RPCAppendChunk_locked (ck : chunkInfo) (data : list byte)
  : chunkInfo * MutationType * AppendChunkReply * result Z :=
  let newLen := wrap64 (ck_length ck + len data) in
  let offset := ck_length ck in
  let '(mtype, length', code) :=
    if MaxChunkSize <? newLen
    then (MutationPad, MaxChunkSize, AppendExceedChunkSize)
    else (MutationAppend, newLen, Success) in
  let reply := mkAppendChunkReply offset code in
  let '(ck1, version) :=
    nextVersion (mkChunkInfo length' (ck_version ck) (ck_newestVersion ck)
                   (ck_mutations ck)) in
  match ck_mutations ck1 !! version with
  | Some _ => (ck1, mtype, reply, Err (DuplicatedVersion 1 version))
  | None =>
    (mkChunkInfo (ck_length ck1) (ck_version ck1) (ck_newestVersion ck1)
       (<[version := mkMutation mtype version data offset]>
          (ck_mutations ck1)),
     mtype, reply, Ok version)
  end.

Definition RPCAppendChunk (fuel : nat) (cs : ChunkServer)
  (args : AppendChunkArg) (io : list io_outcome)
  (callAll : ApplyMutationArg -> option error)
  : exec (ChunkServer * AppendChunkReply * option error) :=
  let reply0 := mkAppendChunkReply 0 Success in
  match deleteDownloadedData cs (ac_DataID args) with
  | (cs0, Err e) => Returns (cs0, reply0, Some e)
  | (cs0, Ok data) =>
    if MaxAppendSize <? len data
    then Returns (cs0, reply0, Some AppendTooLarge)
    else
      let handle := Handle (ac_DataID args) in
      match chunk cs0 !! handle with
      | None => Returns (cs0, reply0, Some ChunkNotFound)
      | Some ck =>
        match RPCAppendChunk_locked ck data with
        | (ck1, _, reply, Err e) =>
          Returns (set_chunk cs0 handle ck1, reply, Some e)
        | (ck1, mtype, reply, Ok version) =>
          r ← doMutation fuel (set_chunk cs0 handle ck1) handle io;
          match r.2 with
          | Some e => Returns (r.1, reply, Some e)
          | None =>
            match callAll (mkApplyMutationArg mtype version (ac_DataID args)
                             (ar_Offset reply)) with
            | Some e => Returns (r.1, reply, Some e)
            | None => Returns (add_pending r.1 handle, reply, None)
            end
          end
        end
      end
  end.

(** *** [ChunkServer.RPCApplyMutation] *)
Definition RPCApplyMutation_locked (ck : chunkInfo) (mutation : Mutation)
  : chunkInfo * option error :=
  match ck_mutations ck !! m_version mutation with
  | Some _ => (ck, Some (DuplicatedVersion 2 (m_version mutation)))
  | None =>
    (mkChunkInfo (ck_length ck) (ck_version ck) (ck_newestVersion ck)
       (<[m_version mutation := mutation]> (ck_mutations ck)), None)
  end.

Definition RPCApplyMutation (fuel : nat) (cs : ChunkServer)
  (args : ApplyMutationArg) (io : list io_outcome)
  : exec (ChunkServer * option error) :=
  match deleteDownloadedData cs (am_DataID args) with
  | (cs0, Err e) => Returns (cs0, Some e)
  | (cs0, Ok data) =>
    let handle := Handle (am_DataID args) in
    match chunk cs0 !! handle with
    | None => Returns (cs0, Some ChunkNotFound)
    | Some ck =>
      let mutation :=
        mkMutation (am_Mtype args) (am_Version args) data (am_Offset args) in
      match RPCApplyMutation_locked ck mutation with
      | (ck1, Some e) => Returns (set_chunk cs0 handle ck1, Some e)
      | (ck1, None) => doMutation fuel (set_chunk cs0 handle ck1) handle io
      end
    end
  end.

(** *** [ChunkServer.RPCApplyCopy] *)
Definition RPCApplyCopy (cs : ChunkServer) (args : ApplyCopyArg)
  (io : io_outcome) : exec (ChunkServer * option error) :=
  let handle := cp_Handle args in
  match chunk cs !! handle with
  | None => Returns (cs, Some ChunkNotFound)
  | Some ck =>
    let ck1 := mkChunkInfo (ck_length ck) (ck_version ck)
                 (ck_newestVersion ck) ∅ in
    writeChunk (set_chunk cs handle ck1) handle (cp_Version args)
      (cp_Data args) 0 true io
  end.

(** *** The drain loop, step by step *)

(** What one iteration of the loop of [doMutation] leaves in memory for the
    chunk, when it finds [v] under [ck.version + 1]. *)
Definition applied (ck : chunkInfo) (v : Mutation) : chunkInfo :=
  let newLen :=
    if decide (m_mtype v = MutationPad)
    then wrap64 (MaxChunkSize - 1 + len [x00])
    else wrap64 (m_offset v + len (m_data v)) in
  mkChunkInfo (if ck_length ck <? newLen then newLen else ck_length ck)
    (m_version v) (ck_newestVersion ck)
    (delete (m_version v) (ck_mutations ck)).

(** The call of [writeChunk] that the loop makes for [v]. *)
Definition write_of (cs : ChunkServer) (h : Z) (v : Mutation)
  (o : io_outcome) : exec (ChunkServer * option error) :=
  if decide (m_mtype v = MutationPad)
  then writeChunk cs h (m_version v) [x00] (MaxChunkSize - 1)
         (bool_decide (m_mtype v = MutationAppend)) o
  else writeChunk cs h (m_version v) (m_data v) (m_offset v)
         (bool_decide (m_mtype v = MutationAppend)) o.

(** The runs of the loop of [doMutation] on the chunk [h]: the state and
    the error it ends with. *)
Inductive drains (h : Z)
  : ChunkServer -> list io_outcome -> ChunkServer -> option error -> Prop :=
  | drains_break cs io ck :
      chunk cs !! h = Some ck ->
      ck_mutations ck !! wrap64 (ck_version ck + 1) = None ->
      drains h cs io cs None
  | drains_error cs io ck v cs1 e :
      chunk cs !! h = Some ck ->
      ck_mutations ck !! wrap64 (ck_version ck + 1) = Some v ->
      write_of cs h v (hd IoOk io) = Returns (cs1, Some e) ->
      drains h cs io (delete_mutation cs1 h (m_version v)) (Some e)
  | drains_next cs io ck v cs1 cs' err :
      chunk cs !! h = Some ck ->
      ck_mutations ck !! wrap64 (ck_version ck + 1) = Some v ->
      write_of cs h v (hd IoOk io) = Returns (cs1, None) ->
      drains h (delete_mutation cs1 h (m_version v)) (tl io) cs' err ->
      drains h cs io cs' err.

(** Every insertion into a mutation buffer stores a mutation under its own
    version. *)
Definition buffer_wf (ms : gmap Z Mutation) : Prop :=
  forall k m, ms !! k = Some m -> m_version m = k.

(** Neither the version of the chunk nor a version in its buffer is the
    largest 64-bit integer: [ck.version + 1] does not wrap around. *)
Definition below_max (ck : chunkInfo) : Prop :=
  - 2 ^ 63 <= ck_version ck < 2 ^ 63 - 1 /\
  forall k, is_Some (ck_mutations ck !! k) -> k < 2 ^ 63 - 1.

(** ** The replica as a transition system

    The steps that other threads of the replica can observe: a handler that
    runs to its end, or one locked region of a handler.  [primary_step]
    has the steps of a replica on which chunks are created and which serves
    writes and appends as a primary; [replica_step] adds the steps of a
    secondary ([RPCApplyMutation]) and of a re-replication sink
    ([RPCApplyCopy]).  A handler that returns from inside its locked region
    leaves the lock held; the steps do not track the lock, so they allow
    every run of the replica and more. *)

Definition initial_server : ChunkServer := mkChunkServer ∅ ∅ ∅ ∅ [].

Inductive primary_step : ChunkServer -> ChunkServer -> Prop :=
  | ps_create cs h opened :
      primary_step cs (RPCCreateChunk cs h opened).1
  | ps_push cs h data stamp forwarded :
      primary_step cs (RPCPushDataAndForward cs h data stamp forwarded).1.1
  | ps_forward cs id data :
      primary_step cs (RPCForwardData cs id data).1
  | ps_consume cs id :
      primary_step cs (deleteDownloadedData cs id).1
  | ps_write_locked cs h ck newLen data offset :
      chunk cs !! h = Some ck ->
      primary_step cs
        (set_chunk cs h (RPCWriteChunk_locked ck newLen data offset).1)
  | ps_append_locked cs h ck data :
      chunk cs !! h = Some ck ->
      primary_step cs (set_chunk cs h (RPCAppendChunk_locked ck data).1.1.1)
  | ps_drain fuel cs h io cs' err :
      doMutation fuel cs h io = Returns (cs', err) ->
      primary_step cs cs'
  | ps_pending cs h :
      primary_step cs (add_pending cs h).

Inductive replica_step : ChunkServer -> ChunkServer -> Prop :=
  | rs_primary cs cs' :
      primary_step cs cs' -> replica_step cs cs'
  | rs_apply_locked cs h ck mutation :
      chunk cs !! h = Some ck ->
      replica_step cs
        (set_chunk cs h (RPCApplyMutation_locked ck mutation).1)
  | rs_copy cs args io cs' err :
      RPCApplyCopy cs args io = Returns (cs', err) ->
      replica_step cs cs'.

(** The invariant of the specification on one chunk. *)
Definition version_invariant (ck : chunkInfo) : Prop :=
  ck_version ck <= ck_newestVersion ck /\
  (ck_mutations ck = ∅ <-> ck_version ck = ck_newestVersion ck).

(** What holds of a chunk on the primary paths after at most [n] steps: the
    buffer holds exactly the versions after [version] up to
    [newestVersion], each under its own key. *)
Definition chunk_inv (n : Z) (ck : chunkInfo) : Prop :=
  buffer_wf (ck_mutations ck) /\
  0 <= ck_version ck <= ck_newestVersion ck /\
  ck_newestVersion ck <= n /\
  forall k, is_Some (ck_mutations ck !! k)
            <-> ck_version ck < k <= ck_newestVersion ck.

Definition server_inv (n : Z) (cs : ChunkServer) : Prop :=
  forall h ck, chunk cs !! h = Some ck -> chunk_inv n ck.

(** Fuel for a handler on the chunk [h]: one iteration for each buffered
    mutation, one for the mutation that the handler adds and one to find
    the buffer drained. *)
Definition drainable (fuel : nat) (cs : ChunkServer) (h : Z) : Prop :=
  forall ck, chunk cs !! h = Some ck ->
             buffer_wf (ck_mutations ck) /\
             (S (size (ck_mutations ck)) < fuel)%nat.

(** ** The master's chunk-server manager *)

Record chunkServerInfo : Type := mkChunkServerInfo {
  lastHeartbeat : Z;
  chunks : gmap Z bool
}.

(** *** [util.Sample]

    [randPerm n] is what [rand.Perm(n)] returns; [rand.Perm] panics on a
    negative argument, and so does the slice expression [[:k]] on a
    negative [k]. *)
Definition Sample (randPerm : Z -> list Z) (n k : Z)
  : exec (result (list Z)) :=
  if n <? k then Returns (Err SampleError)
  else if n <? 0 then Panics
  else if k <? 0 then Panics
  else Returns (Ok (take (Z.to_nat k) (randPerm n))).

(** [all[v]] for each [v] of [choose], in order. *)
Fixpoint index_all (all : list string) (choose : list Z)
  : exec (list string) :=
  match choose with
  | [] => Returns []
  | v :: choose' =>
    if v <? 0 then Panics
    else match all !! Z.to_nat v with
         | None => Panics
         | Some a => ret ← index_all all choose'; Returns (a :: ret)
         end
  end.

(** *** [chunkServerManager.ChooseServers]

    [order] is the order in which [range csm.servers] visits the keys of
    the map. *)
Definition ChooseServers (servers : gmap string chunkServerInfo)
  (order : list string) (randPerm : Z -> list Z) (num : Z)
  : exec (result (list string)) :=
  if Z.of_nat (size servers) <? num
  then Returns (Err (NotEnoughServers num))
  else
    let all := order in
    r ← Sample randPerm (len all) num;
    match r with
    | Err e => Returns (Err e)
    | Ok choose => ret ← index_all all choose; Returns (Ok ret)
    end.

(** ** The client driver

    Every [util.Call] of the client is an event: the call with its
    arguments, and the reply, or no reply when [Call] returns an error.
    The [World] gives the reply to the call made after [n] earlier ones, and
    the values of [rand.Int()]. *)

Record PrimaryAndSecondaries : Type := mkPrimaryAndSecondaries {
  ps_Primary : string;
  ps_Secondaries : list string
}.

Record ReadChunkReply : Type := mkReadChunkReply {
  rr_Data : list byte;
  rr_Length : Z;
  rr_ErrorCode : ErrorCode
}.

(** [MasterGetFileInfo] is answered with the [Chunks] field of the reply,
    the only one that the client reads. *)
Inductive rpc : Type -> Type :=
  | MasterGetFileInfo (path : string) : rpc Z
  | MasterGetChunkHandle (path : string) (index : Z) : rpc Z
  | MasterGetReplicas (handle : Z) : rpc (list string)
  | MasterGetPrimaryAndSecondaries (handle : Z) : rpc PrimaryAndSecondaries
  | ChunkServerPushDataAndForward (addr : string) (handle : Z)
      (data : list byte) (forwardTo : list string) : rpc DataBufferID
  | ChunkServerReadChunk (addr : string) (handle offset length : Z)
      : rpc ReadChunkReply
  | ChunkServerWriteChunk (addr : string) (args : WriteChunkArg) : rpc unit
  | ChunkServerAppendChunk (addr : string) (args : AppendChunkArg)
      : rpc AppendChunkReply.

Inductive event : Type :=
  | Ev {R : Type} (call : rpc R) (reply : option R).

Record World : Type := mkWorld {
  net : forall R : Type, nat -> rpc R -> option R;
  randInt : nat -> Z
}.

(** A computation of the client: it extends the trace of the events so
    far and ends as [exec] says. *)
Definition client (A : Type) : Type := list event -> exec A * list event.

#[global] Instance client_ret : MRet client := fun _ a tr => (Returns a, tr).
#[global] Instance client_bind : MBind client := fun _ _ f m tr =>
  match m tr with
  | (Returns a, tr') => f a tr'
  | (Panics, tr') => (Panics, tr')
  | (OutOfFuel, tr') => (OutOfFuel, tr')
  end.

Definition panic {A : Type} : client A := fun tr => (Panics, tr).
Definition out_of_fuel {A : Type} : client A := fun tr => (OutOfFuel, tr).

(** [util.Call] *)
Definition Call (w : World) {R : Type} (c : rpc R) : client (option R) :=
  fun tr =>
    let reply := net w R (List.length tr) c in
    (Returns reply, tr ++ [Ev c reply]).

(** [rand.Int()], a non-negative [int]. *)
Definition RandInt (w : World) : client Z :=
  fun tr => (Returns (randInt w (List.length tr)), tr).

(** *** [Client.GetChunkHandle] *)
Definition GetChunkHandle (w : World) (path : string) (index : Z)
  : client (Z * option error) :=
  reply ← Call w (MasterGetChunkHandle path index);
  match reply with
  | None => mret (0, Some RpcError)
  | Some handle => mret (handle, None)
  end.

(** *** [Client.ReadChunk]

    [dataLen] is [len(data)] of the buffer to fill. *)
Definition ReadChunk (w : World) (handle offset dataLen : Z)
  : client (Z * option error) :=
  let readLen :=
    if dataLen <? wrap64 (MaxChunkSize - offset) then dataLen
    else wrap64 (MaxChunkSize - offset) in
  l ← Call w (MasterGetReplicas handle);
  match l with
  | None => mret (0, Some (GfsError UnknownError))
  | Some locations =>
    r ← RandInt w;
    if decide (len locations = 0) then panic
    else
      match locations !! Z.to_nat (Z.rem r (len locations)) with
      | None => panic
      | Some loc =>
        reply ← Call w (ChunkServerReadChunk loc handle offset readLen);
        match reply with
        | None => mret (0, Some (GfsError UnknownError))
        | Some r =>
          if decide (rr_ErrorCode r = ReadEOF)
          then mret (rr_Length r, Some (GfsError ReadEOF))
          else mret (rr_Length r, None)
        end
      end
  end.

(** *** [Client.WriteChunk] *)
Definition WriteChunk (w : World) (handle offset : Z) (data : list byte)
  : client (option error) :=
  if MaxChunkSize <? wrap64 (len data + offset)
  then mret (Some WriteChunkSizeExceeds)
  else
    l ← Call w (MasterGetPrimaryAndSecondaries handle);
    match l with
    | None => mret (Some RpcError)
    | Some l =>
      d ← Call w (ChunkServerPushDataAndForward (ps_Primary l) handle data
                    (ps_Secondaries l));
      match d with
      | None => mret (Some RpcError)
      | Some id =>
        r ← Call w (ChunkServerWriteChunk (ps_Primary l)
                      (mkWriteChunkArg id offset (ps_Secondaries l)));
        match r with
        | None => mret (Some RpcError)
        | Some _ => mret None
        end
      end
    end.

(** *** [Client.AppendChunk]

    [capData] is [cap(data)]: the slice expression [data[:2]] of the log
    line panics when the capacity is below 2. *)
Definition AppendChunk (w : World) (handle : Z) (data : list byte)
  (capData : Z) : client (Z * option error) :=
  if MaxAppendSize <? len data then mret (0, Some (GfsError UnknownError))
  else
    l ← Call w (MasterGetPrimaryAndSecondaries handle);
    match l with
    | None => mret (-1, Some (GfsError UnknownError))
    | Some l =>
      if capData <? 2 then panic
      else
        d ← Call w (ChunkServerPushDataAndForward (ps_Primary l) handle data
                      (ps_Secondaries l));
        match d with
        | None => mret (-1, Some (GfsError UnknownError))
        | Some id =>
          a ← Call w (ChunkServerAppendChunk (ps_Primary l)
                        (mkAppendChunkArg id (ps_Secondaries l)));
          match a with
          | None => mret (-1, Some (GfsError UnknownError))
          | Some a =>
            if decide (ar_ErrorCode a = AppendExceedChunkSize)
            then mret (ar_Offset a, Some (GfsError AppendExceedChunkSize))
            else mret (ar_Offset a, None)
          end
        end
    end.

(** *** [Client.Read]

    The inner loop: [ReadChunk] until it returns no error or [ReadEOF].
    [err.(gfs.Error)] panics on an error of another type. *)
Fixpoint Read_retry (fuel : nat) (w : World) (handle chunkOffset dataLen : Z)
  : client (Z * option error) :=
  match fuel with
  | O => out_of_fuel
  | S fuel' =>
    r ← ReadChunk w handle chunkOffset dataLen;
    match r.2 with
    | None => mret r
    | Some (GfsError code) =>
      if decide (code = ReadEOF) then mret r
      else Read_retry fuel' w handle chunkOffset dataLen
    | Some _ => panic
    end
  end.

(** The outer loop, from [offset] and [pos]; it yields [pos] and [err] as
    they are after the loop, or the pair that a [return] inside the loop
    returns. *)
Fixpoint Read_loop (fuel : nat) (w : World) (path : string)
  (offset pos dataLen : Z) : client (Z * option error) :=
  match fuel with
  | O => out_of_fuel
  | S fuel' =>
    let index := Z.quot offset MaxChunkSize in
    let chunkOffset := Z.rem offset MaxChunkSize in
    hr ← GetChunkHandle w path index;
    match hr.2 with
    | Some e => mret (0, Some e)
    | None =>
      if decide (0 <= pos <= dataLen)
      then
        r ← Read_retry fuel' w hr.1 chunkOffset (dataLen - pos);
        let offset' := wrap64 (offset + r.1) in
        let pos' := wrap64 (pos + r.1) in
        match r.2 with
        | Some (GfsError code) =>
          if decide (code = ReadEOF) then mret (pos', Some EOF)
          else mret (pos', r.2)
        | Some _ => panic
        | None =>
          if decide (pos' = dataLen) then mret (pos', None)
          else Read_loop fuel' w path offset' pos' dataLen
        end
      else panic
    end
  end.

Definition Read (fuel : nat) (w : World) (path : string)
  (offset dataLen : Z) : client (Z * option error) :=
  f ← Call w (MasterGetFileInfo path);
  match f with
  | None => mret (-1, Some RpcError)
  | Some chunks =>
    if chunks <? Z.quot offset MaxChunkSize
    then mret (-1, Some ReadOffsetExceeds)
    else Read_loop fuel w path offset 0 dataLen
  end.

(** *** [Client.Write] *)
Fixpoint Write_retry (fuel : nat) (w : World) (handle chunkOffset : Z)
  (data : list byte) : client (option error) :=
  match fuel with
  | O => out_of_fuel
  | S fuel' =>
    err ← WriteChunk w handle chunkOffset data;
    match err with
    | None => mret None
    | Some _ => Write_retry fuel' w handle chunkOffset data
    end
  end.

Fixpoint Write_loop (fuel : nat) (w : World) (path : string)
  (offset : Z) (begin : Z) (data : list byte) : client (option error) :=
  match fuel with
  | O => out_of_fuel
  | S fuel' =>
    let index := Z.quot offset MaxChunkSize in
    let chunkOffset := Z.rem offset MaxChunkSize in
    hr ← GetChunkHandle w path index;
    match hr.2 with
    | Some e => mret (Some e)
    | None =>
      let writeMax := wrap64 (MaxChunkSize - chunkOffset) in
      let writeLen :=
        if len data <? wrap64 (begin + writeMax)
        then wrap64 (len data - begin) else writeMax in
      let high := wrap64 (begin + writeLen) in
      if decide (0 <= begin <= high /\ high <= len data)
      then
        err ← Write_retry fuel' w hr.1 chunkOffset
                (take (Z.to_nat writeLen) (drop (Z.to_nat begin) data));
        match err with
        | Some e => mret (Some e)
        | None =>
          let offset' := wrap64 (offset + writeLen) in
          let begin' := wrap64 (begin + writeLen) in
          if decide (begin' = len data) then mret None
          else Write_loop fuel' w path offset' begin' data
        end
      else panic
    end
  end.

Definition Write (fuel : nat) (w : World) (path : string) (offset : Z)
  (data : list byte) : client (option error) :=
  f ← Call w (MasterGetFileInfo path);
  match f with
  | None => mret (Some RpcError)
  | Some chunks =>
    if chunks <? Z.quot offset MaxChunkSize
    then mret (Some WriteOffsetExceeds)
    else Write_loop fuel w path offset 0 data
  end.

(** *** [Client.Append] *)
Fixpoint Append_retry (fuel : nat) (w : World) (handle : Z)
  (data : list byte) (capData : Z) : client (Z * option error) :=
  match fuel with
  | O => out_of_fuel
  | S fuel' =>
    r ← AppendChunk w handle data capData;
    match r.2 with
    | None => mret r
    | Some (GfsError code) =>
      if decide (code = AppendExceedChunkSize) then mret r
      else Append_retry fuel' w handle data capData
    | Some _ => panic
    end
  end.

(** The outer loop from [start]; it yields [start], [chunkOffset] and [err]
    as they are when the loop is left. *)
Fixpoint Append_loop (fuel : nat) (w : World) (path : string)
  (data : list byte) (capData : Z) (start : Z)
  : client (Z * Z * option error) :=
  match fuel with
  | O => out_of_fuel
  | S fuel' =>
    hr ← GetChunkHandle w path start;
    match hr.2 with
    | Some e => mret (start, 0, Some e)
    | None =>
      r ← Append_retry fuel' w hr.1 data capData;
      match r.2 with
      | None => mret (start, r.1, None)
      | Some (GfsError code) =>
        if decide (code = AppendExceedChunkSize)
        then Append_loop fuel' w path data capData (wrap64 (start + 1))
        else mret (start, r.1, r.2)
      | Some _ => panic
      end
    end
  end.

Definition Append (fuel : nat) (w : World) (path : string)
  (data : list byte) (capData : Z) : client (Z * option error) :=
  if MaxAppendSize <? len data then mret (0, Some AppendSizeExceeds)
  else
    f ← Call w (MasterGetFileInfo path);
    match f with
    | None => mret (0, Some RpcError)
    | Some chunks =>
      let start := wrap64 (chunks - 1) in
      let start := if start <? 0 then 0 else start in
      r ← Append_loop fuel w path data capData start;
      match r.2 with
      | Some e => mret (0, Some e)
      | None => mret (wrap64 (wrap64 (r.1.1 * MaxChunkSize) + r.1.2), None)
      end
  end.

(** *** The append protocol of the specification

    The second reading of [Client.Append], from the words of the
    specification, as the set of the traces it allows with their results.
    One attempt on a chunk asks for the primary, pushes the data to it and
    commits; it fails when one of the three calls fails, and is otherwise
    answered with an offset, with or without [AppendExceedChunkSize]. *)
Inductive attempt_outcome : Type :=
  | Failed
  | Exceeded (offset : Z)
  | Appended (offset : Z).

Inductive attempt (handle : Z) (data : list byte)
  : list event -> attempt_outcome -> Prop :=
  | attempt_no_primary :
      attempt handle data
        [Ev (MasterGetPrimaryAndSecondaries handle) None] Failed
  | attempt_no_push l :
      attempt handle data
        [Ev (MasterGetPrimaryAndSecondaries handle) (Some l);
         Ev (ChunkServerPushDataAndForward (ps_Primary l) handle data
               (ps_Secondaries l)) None]
        Failed
  | attempt_no_commit l id :
      attempt handle data
        [Ev (MasterGetPrimaryAndSecondaries handle) (Some l);
         Ev (ChunkServerPushDataAndForward (ps_Primary l) handle data
               (ps_Secondaries l)) (Some id);
         Ev (ChunkServerAppendChunk (ps_Primary l)
               (mkAppendChunkArg id (ps_Secondaries l))) None]
        Failed
  | attempt_reply l id a :
      attempt handle data
        [Ev (MasterGetPrimaryAndSecondaries handle) (Some l);
         Ev (ChunkServerPushDataAndForward (ps_Primary l) handle data
               (ps_Secondaries l)) (Some id);
         Ev (ChunkServerAppendChunk (ps_Primary l)
               (mkAppendChunkArg id (ps_Secondaries l))) (Some a)]
        (if decide (ar_ErrorCode a = AppendExceedChunkSize)
         then Exceeded (ar_Offset a) else Appended (ar_Offset a)).

(** The attempts on one chunk: failed ones, each followed by another
    attempt on the same chunk, up to one that is answered. *)
Inductive on_chunk (handle : Z) (data : list byte)
  : list event -> attempt_outcome -> Prop :=
  | on_chunk_retry evs evs' out :
      attempt handle data evs Failed ->
      on_chunk handle data evs' out ->
      on_chunk handle data (evs ++ evs') out
  | on_chunk_exceeded evs offset :
      attempt handle data evs (Exceeded offset) ->
      on_chunk handle data evs (Exceeded offset)
  | on_chunk_appended evs offset :
      attempt handle data evs (Appended offset) ->
      on_chunk handle data evs (Appended offset).

(** From the chunk index [start]: resolve the chunk, make the attempts on
    it, move to the next index when the chunk is full, and return
    [start * MaxChunkSize + offset] when the record is in. *)
Inductive append_protocol (path : string) (data : list byte)
  : Z -> list event -> Z * option error -> Prop :=
  | ap_no_handle start :
      append_protocol path data start
        [Ev (MasterGetChunkHandle path start) None] (0, Some RpcError)
  | ap_appended start handle evs offset :
      on_chunk handle data evs (Appended offset) ->
      append_protocol path data start
        (Ev (MasterGetChunkHandle path start) (Some handle) :: evs)
        (wrap64 (wrap64 (start * MaxChunkSize) + offset), None)
  | ap_next start handle evs offset rest res :
      on_chunk handle data evs (Exceeded offset) ->
      append_protocol path data (wrap64 (start + 1)) rest res ->
      append_protocol path data start
        (Ev (MasterGetChunkHandle path start) (Some handle) :: evs ++ rest)
        res.

(** A computation of the client adds events at the end of the trace and
    leaves the earlier ones as they are. *)
Definition extends {A : Type} (m : client A) : Prop :=
  forall tr, exists evs, (m tr).2 = tr ++ evs.

(** ** The master's chunk-server manager, continued *)

(** [gfs.ServerTimeout] is a constant of the [gfs] package.  A [time.Time]
    is a number of ticks of one clock: [t.Add(d)] is [t + d] and
    [t.Before(u)] is [t < u]. *)
Variable ServerTimeout : Z.

(** *** [newChunkServerManager] *)
Definition newChunkServerManager : gmap string chunkServerInfo := ∅.

(** *** [chunkServerManager.Heartbeat]

    [now] is what [time.Now()] returns. *)
Definition Heartbeat (servers : gmap string chunkServerInfo) (addr : string)
  (now : Z) : gmap string chunkServerInfo :=
  match servers !! addr with
  | None => <[addr := mkChunkServerInfo now ∅]> servers
  | Some sv => <[addr := mkChunkServerInfo now (chunks sv)]> servers
  end.

(** [v.chunks[handle]] on a [map[gfs.ChunkHandle]bool]: [false] for a
    handle that is not a key. *)
Definition holds (sv : chunkServerInfo) (handle : Z) : bool :=
  default false (chunks sv !! handle).

(** *** [chunkServerManager.AddChunk]

    [calls] lists the results of the successive calls of
    [ChunkServer.RPCCreateChunk]; past its end every call succeeds.
    [csm.servers[v]] is a nil pointer for an address that is not registered,
    and the assignment through it panics.  [errList] is kept as the list of
    the errors whose texts the source concatenates: the string is empty
    exactly when the list is. *)
Fixpoint AddChunk_loop (servers : gmap string chunkServerInfo)
  (addrs : list string) (handle : Z) (calls : list (option error))
  (errList : list error)
  : exec (gmap string chunkServerInfo * list error) :=
  match addrs with
  | [] => Returns (servers, errList)
  | v :: addrs' =>
    let err := hd None calls in
    match servers !! v with
    | None => Panics
    | Some sv =>
      let servers1 :=
        <[v := mkChunkServerInfo (lastHeartbeat sv)
                 (<[handle := true]> (chunks sv))]> servers in
      AddChunk_loop servers1 addrs' handle (tl calls)
        match err with
        | Some e => errList ++ [e]
        | None => errList
        end
    end
  end.

(** The error that [AddChunk] returns is made of the errors of the calls:
    [Some es] stands for [fmt.Errorf(errList)]. *)
Definition AddChunk (servers : gmap string chunkServerInfo)
  (addrs : list string) (handle : Z) (calls : list (option error))
  : exec (gmap string chunkServerInfo * option (list error)) :=
  r ← AddChunk_loop servers addrs handle calls [];
  Returns (r.1, match r.2 with
                | [] => None
                | es => Some es
                end).

(** What [AddChunk] does to the entry of an address it is given. *)
Definition with_chunk (handle : Z) (sv : chunkServerInfo) : chunkServerInfo :=
  mkChunkServerInfo (lastHeartbeat sv) (<[handle := true]> (chunks sv)).

(** *** [chunkServerManager.ChooseReReplication]

    [order] lists the entries of [csm.servers] as [range] visits them. *)
Fixpoint ChooseReReplication_loop (order : list (string * chunkServerInfo))
  (handle : Z) (from to : string) : string * string * option error :=
  match order with
  | [] => (from, to, Some NoCandidates)
  | (a, v) :: order' =>
    let from' := if holds v handle then a else from in
    let to' := if holds v handle then to else a in
    if bool_decide (from' <> EmptyString /\ to' <> EmptyString)
    then (from', to', None)
    else ChooseReReplication_loop order' handle from' to'
  end.

Definition ChooseReReplication (order : list (string * chunkServerInfo))
  (handle : Z) : string * string * option error :=
  ChooseReReplication_loop order handle EmptyString EmptyString.

(** *** [chunkServerManager.DetectDeadServers] *)
Definition DetectDeadServers (order : list (string * chunkServerInfo))
  (now : Z) : list string :=
  foldl (fun ret kv =>
           if bool_decide (lastHeartbeat kv.2 + ServerTimeout < now)
           then ret ++ [kv.1] else ret)
    [] order.

(** *** [chunkServerManager.RemoveServer]

    [order] lists the entries of [sv.chunks] as [range] visits them. *)
Definition RemoveServer (servers : gmap string chunkServerInfo)
  (addr : string) (order : list (Z * bool))
  : gmap string chunkServerInfo * list Z * option error :=
  match servers !! addr with
  | None => (servers, [], Some ServerNotFound)
  | Some sv =>
    (delete addr servers,
     foldl (fun handles hv => if hv.2 : bool then handles ++ [hv.1]
                              else handles) [] order,
     None)
  end.

(** ** [util.CallAll]

    Every destination is called in a goroutine of its own and the results
    are received from one channel: [arrivals] lists them in the order in
    which they are received. *)
Definition CallAll (arrivals : list (option error)) : option error :=
  foldl (fun err e => match e with
                      | Some _ => e
                      | None => err
                      end) None arrivals.

(** ** The chunk server: reading and copying a chunk *)

(** What one call of [readChunk] meets on the disk: both operations
    succeed, [os.Open] fails, or [f.ReadAt] fails after [n] bytes.
    [os.Open] also fails for a file that does not exist. *)
Inductive read_outcome : Type :=
  | RdOk
  | RdOpenFails
  | RdReadFails (n : nat).

(** [f.ReadAt(b, off)] for [0 <= off] and a buffer of [n] bytes: the bytes
    that the file has from [off] on, at most [n] of them.  [ReadAt] returns
    [io.EOF] when it has read fewer than [n] bytes at the end of the
    file. *)
Definition read_at (content : list byte) (off : Z) (n : nat) : list byte :=
  take n (drop (Z.to_nat off) content).

(** *** [ChunkServer.readChunk]

    The result is the buffer [data] as the call leaves it, the number of
    bytes read and the error. *)
Definition readChunk (cs : ChunkServer) (handle offset : Z)
  (data : list byte) (ro : read_outcome) : list byte * Z * option error :=
  match ro, disk cs !! handle with
  | RdOpenFails, _ => (data, -1, Some OsError)
  | _, None => (data, -1, Some OsError)
  | RdOk, Some content =>
    if offset <? 0 then (data, 0, Some OsError)
    else
      let got := read_at content offset (List.length data) in
      (got ++ drop (List.length got) data, len got,
       if (List.length got <? List.length data)%nat then Some EOF else None)
  | RdReadFails n, Some content =>
    if offset <? 0 then (data, 0, Some OsError)
    else
      let got := take n (read_at content offset (List.length data)) in
      (got ++ drop (List.length got) data, len got, Some OsError)
  end.

(** *** [ChunkServer.RPCReadChunk]

    [make([]byte, args.Length)] panics on a negative length. *)
Definition RPCReadChunk (cs : ChunkServer) (handle offset length : Z)
  (ro : read_outcome) : exec (ReadChunkReply * option error) :=
  match chunk cs !! handle with
  | None => Returns (mkReadChunkReply [] 0 Success, Some ChunkNotFound)
  | Some _ =>
    if length <? 0 then Panics
    else
      let '(data, n, err) :=
        readChunk cs handle offset (replicate (Z.to_nat length) x00) ro in
      match err with
      | Some EOF => Returns (mkReadChunkReply data n ReadEOF, None)
      | Some e => Returns (mkReadChunkReply data n Success, Some e)
      | None => Returns (mkReadChunkReply data n Success, None)
      end
  end.

(** *** [ChunkServer.RPCSendCopy]

    [call] is the result of [util.Call] of [ChunkServer.RPCApplyCopy] at
    [args.Address], for the arguments it is given. *)
Definition RPCSendCopy (cs : ChunkServer) (handle : Z) (ro : read_outcome)
  (call : ApplyCopyArg -> option error) : exec (option error) :=
  match chunk cs !! handle with
  | None => Returns (Some ChunkNotFound)
  | Some ck =>
    if ck_length ck <? 0 then Panics
    else
      let '(data, _, err) :=
        readChunk cs handle 0 (replicate (Z.to_nat (ck_length ck)) x00) ro in
      match err with
      | Some e => Returns (Some e)
      | None =>
        if decide (ck_version ck <> ck_newestVersion ck)
        then Returns (Some InMutation)
        else Returns (call (mkApplyCopyArg handle data (ck_version ck)))
      end
  end.

(** *** [ChunkServer.padChunk] *)
Definition padChunk (cs : ChunkServer) (handle version : Z)
  : exec ChunkServer :=
  match chunk cs !! handle with
  | None => Panics
  | Some ck =>
    Returns (set_chunk cs handle
               (mkChunkInfo MaxChunkSize version (ck_newestVersion ck)
                  (ck_mutations ck)))
  end.

(** *** [getContents]

    [rest] is what the file holds from the position of the next [f.Read]
    on.  [reads] lists what the successive calls of [f.Read] into the buffer
    of 100 bytes do: [None] is a read that fails, [Some k] one that returns
    the next [k + 1] bytes, or 100, or what is left of the file if that is
    less; past the end of the list a read fills the buffer.  At the end of
    the file a read returns no byte and [io.EOF]. *)
Fixpoint getContents_loop (fuel : nat) (rest result : list byte)
  (reads : list (option nat)) : exec (list byte * option error) :=
  match fuel with
  | O => OutOfFuel
  | S fuel' =>
    match hd (Some 99%nat) reads with
    | None => Returns ([], Some OsError)
    | Some k =>
      match rest with
      | [] => Returns (result, None)
      | _ =>
        let n := Nat.min (S k) 100 in
        getContents_loop fuel' (drop n rest) (result ++ take n rest)
          (tl reads)
      end
    end
  end.

(** The file of the chunk [handle]; [opened] tells whether [os.Open]
    succeeds. *)
Definition getContents (fuel : nat) (cs : ChunkServer) (handle : Z)
  (opened : bool) (reads : list (option nat))
  : exec (list byte * option error) :=
  if opened then
    match disk cs !! handle with
    | None => Returns ([], Some OsError)
    | Some content => getContents_loop fuel content [] reads
    end
  else Returns ([], Some OsError).

(** ** The sizes on a primary

    The steps of [primary_step], with the guards that [RPCWriteChunk] and
    [RPCAppendChunk] put before their locked regions. *)
Inductive guarded_step : ChunkServer -> ChunkServer -> Prop :=
  | gs_create cs h opened :
      guarded_step cs (RPCCreateChunk cs h opened).1
  | gs_push cs h data stamp forwarded :
      guarded_step cs (RPCPushDataAndForward cs h data stamp forwarded).1.1
  | gs_forward cs id data :
      guarded_step cs (RPCForwardData cs id data).1
  | gs_consume cs id :
      guarded_step cs (deleteDownloadedData cs id).1
  | gs_write_locked cs h ck data offset :
      chunk cs !! h = Some ck ->
      wrap64 (offset + len data) <= MaxChunkSize ->
      guarded_step cs
        (set_chunk cs h
           (RPCWriteChunk_locked ck (wrap64 (offset + len data)) data
              offset).1)
  | gs_append_locked cs h ck data :
      chunk cs !! h = Some ck ->
      len data <= MaxAppendSize ->
      guarded_step cs (set_chunk cs h (RPCAppendChunk_locked ck data).1.1.1)
  | gs_drain fuel cs h io cs' err :
      doMutation fuel cs h io = Returns (cs', err) ->
      guarded_step cs cs'
  | gs_pending cs h :
      guarded_step cs (add_pending cs h).

(** The length of the chunk is within [MaxChunkSize], and so is the end of
    every buffered write or append. *)
Definition within_chunk (ck : chunkInfo) : Prop :=
  0 <= ck_length ck <= MaxChunkSize /\
  forall k m, ck_mutations ck !! k = Some m ->
              m_mtype m <> MutationPad ->
              wrap64 (m_offset m + len (m_data m)) <= MaxChunkSize.

Definition server_within (cs : ChunkServer) : Prop :=
  forall h ck, chunk cs !! h = Some ck -> within_chunk ck.

(** *** The runs of [Client.Write]

    The traces that a run of [Client.Write] can leave, slice by slice.  One
    attempt on a slice asks for the primary, pushes the slice to it and
    commits it at the offset in the chunk; it fails when one of the three
    calls fails. *)
Inductive write_attempt (handle chunkOffset : Z) (piece : list byte)
  : list event -> bool -> Prop :=
  | wa_no_primary :
      write_attempt handle chunkOffset piece
        [Ev (MasterGetPrimaryAndSecondaries handle) None] false
  | wa_no_push l :
      write_attempt handle chunkOffset piece
        [Ev (MasterGetPrimaryAndSecondaries handle) (Some l);
         Ev (ChunkServerPushDataAndForward (ps_Primary l) handle piece
               (ps_Secondaries l)) None]
        false
  | wa_no_commit l id :
      write_attempt handle chunkOffset piece
        [Ev (MasterGetPrimaryAndSecondaries handle) (Some l);
         Ev (ChunkServerPushDataAndForward (ps_Primary l) handle piece
               (ps_Secondaries l)) (Some id);
         Ev (ChunkServerWriteChunk (ps_Primary l)
               (mkWriteChunkArg id chunkOffset (ps_Secondaries l))) None]
        false
  | wa_committed l id :
      write_attempt handle chunkOffset piece
        [Ev (MasterGetPrimaryAndSecondaries handle) (Some l);
         Ev (ChunkServerPushDataAndForward (ps_Primary l) handle piece
               (ps_Secondaries l)) (Some id);
         Ev (ChunkServerWriteChunk (ps_Primary l)
               (mkWriteChunkArg id chunkOffset (ps_Secondaries l)))
            (Some tt)]
        true.

(** The attempts on one slice: failed ones, up to one that commits. *)
Inductive write_slice (handle chunkOffset : Z) (piece : list byte)
  : list event -> Prop :=
  | ws_retry evs evs' :
      write_attempt handle chunkOffset piece evs false ->
      write_slice handle chunkOffset piece evs' ->
      write_slice handle chunkOffset piece (evs ++ evs')
  | ws_committed evs :
      write_attempt handle chunkOffset piece evs true ->
      write_slice handle chunkOffset piece evs.

(** From the file offset [offset], with [rest] still to write: resolve the
    chunk of the offset, write what fits up to the end of this chunk, and
    go on at the start of the next chunk with what is left. *)
Inductive write_protocol (path : string)
  : Z -> list byte -> list event -> option error -> Prop :=
  | wp_no_handle offset rest :
      write_protocol path offset rest
        [Ev (MasterGetChunkHandle path (offset / MaxChunkSize)) None]
        (Some RpcError)
  | wp_last offset rest handle evs :
      offset mod MaxChunkSize + len rest <= MaxChunkSize ->
      write_slice handle (offset mod MaxChunkSize) rest evs ->
      write_protocol path offset rest
        (Ev (MasterGetChunkHandle path (offset / MaxChunkSize)) (Some handle)
           :: evs)
        None
  | wp_more offset rest handle evs more res :
      MaxChunkSize < offset mod MaxChunkSize + len rest ->
      write_slice handle (offset mod MaxChunkSize)
        (take (Z.to_nat (MaxChunkSize - offset mod MaxChunkSize)) rest) evs ->
      write_protocol path
        (offset + (MaxChunkSize - offset mod MaxChunkSize))
        (drop (Z.to_nat (MaxChunkSize - offset mod MaxChunkSize)) rest)
        more res ->
      write_protocol path offset rest
        (Ev (MasterGetChunkHandle path (offset / MaxChunkSize)) (Some handle)
           :: evs ++ more)
        res.

(** ** Sample states and worlds

    Values for the scenarios of the specification, which takes
    [MaxChunkSize = 64] and [MaxAppendSize = 16]. *)

(** A record of 16 bytes, staged under the id [(1, 7)] on a replica whose
    chunk 1 holds 50 bytes at version 1. *)
Definition record16 : list byte := replicate 16 x41.

Definition chunk50 : chunkInfo := mkChunkInfo 50 1 1 ∅.

Definition server50 : ChunkServer :=
  mkChunkServer {[ (1, 7) := record16 ]} ∅ {[ 1 := chunk50 ]}
    {[ 1 := replicate 50 x78 ]} [(1, 1)].

(** A chunk at version 0 with the mutations of versions 1 and 2 buffered. *)
Definition buffered_chunk : chunkInfo :=
  mkChunkInfo 4 0 2
    (<[1 := mkMutation MutationWrite 1 [x61; x62] 0]>
       (<[2 := mkMutation MutationAppend 2 [x63; x64] 2]> ∅)).

Definition buffered_server : ChunkServer :=
  mkChunkServer ∅ ∅ {[ 1 := buffered_chunk ]} ∅ [].

(** A replica after [RPCCreateChunk] of chunk 1 and the locked region of a
    write of two bytes at offset 0. *)
Definition created_server : ChunkServer :=
  (RPCCreateChunk initial_server 1 true).1.

Definition committed_server : ChunkServer :=
  set_chunk created_server 1
    (RPCWriteChunk_locked (mkChunkInfo 0 0 0 ∅) 2 [x61; x62] 0).1.

(** A secondary that holds chunk 1 and is handed the mutation of version 2
    before that of version 1. *)
Definition early_mutation : Mutation :=
  mkMutation MutationWrite 2 [x61; x62] 0.

Definition secondary_server : ChunkServer :=
  set_chunk created_server 1
    (RPCApplyMutation_locked (mkChunkInfo 0 0 0 ∅) early_mutation).1.

(** Three registered servers; [rand.Perm] answering with the reversed
    identity. *)
Definition three_servers : gmap string chunkServerInfo :=
  {[ "a" := mkChunkServerInfo 0 ∅; "b" := mkChunkServerInfo 0 ∅;
     "c" := mkChunkServerInfo 0 ∅ ]}.

Definition reversed_perm (n : Z) : list Z := reverse (seqZ 0 n).

(** A world for a file of one chunk: the master resolves the chunk index
    [i] to the handle [10 + i]; its first answer about a primary is lost;
    the primary of the handle 10 answers an append with
    [AppendExceedChunkSize] at offset 50, any other primary with offset 0. *)
Definition sample_net (R : Type) (n : nat) (c : rpc R) : option R :=
  match c in rpc R return option R with
  | MasterGetFileInfo _ => Some 1
  | MasterGetChunkHandle _ index => Some (10 + index)
  | MasterGetReplicas _ => Some ["p"]
  | MasterGetPrimaryAndSecondaries _ =>
      if (n =? 2)%nat then None
      else Some (mkPrimaryAndSecondaries "p" ["s1"; "s2"])
  | ChunkServerPushDataAndForward _ handle _ _ => Some (handle, Z.of_nat n)
  | ChunkServerReadChunk _ _ _ length =>
      Some (mkReadChunkReply [] length Success)
  | ChunkServerWriteChunk _ _ => Some tt
  | ChunkServerAppendChunk _ args =>
      if Handle (ac_DataID args) =? 10
      then Some (mkAppendChunkReply 50 AppendExceedChunkSize)
      else Some (mkAppendChunkReply 0 Success)
  end.

Definition sample_world : World := mkWorld sample_net (fun _ => 0).

(** Two registered servers: ["a"] holds the chunk 5 and was last heard of at
    time 10, ["b"] holds no chunk and was last heard of at time 100. *)
Definition two_servers : gmap string chunkServerInfo :=
  {[ "a" := mkChunkServerInfo 10 {[ 5 := true ]};
     "b" := mkChunkServerInfo 100 ∅ ]}.

(** The answers of two secondaries: ["s2"] fails. *)
Definition second_fails (d : string) : option error :=
  if String.eqb d "s2" then Some RpcError else None.

(** A replica whose chunk 1 has the three bytes [abc] on the disk. *)
Definition abc_server : ChunkServer :=
  mkChunkServer ∅ ∅ {[ 1 := mkChunkInfo 3 1 1 ∅ ]}
    {[ 1 := [x61; x62; x63] ]} [(1, 1)].

(** A secondary at version 2 of chunk 1 that was handed the mutation of
    version 1 once more. *)
Definition stale_mutation : Mutation := mkMutation MutationWrite 1 [x61] 0.

Definition stale_chunk : chunkInfo :=
  mkChunkInfo 2 2 2 {[ 1 := stale_mutation ]}.

Definition stale_server : ChunkServer :=
  mkChunkServer ∅ ∅ {[ 1 := stale_chunk ]} {[ 1 := [x61; x62] ]}
    [(1, 1); (1, 2)].

(** A secondary with an empty chunk 1 and two records staged for it. *)
Definition two_staged_server : ChunkServer :=
  mkChunkServer {[ (1, 7) := [x61; x62]; (1, 8) := [x63; x64] ]} ∅
    {[ 1 := mkChunkInfo 0 0 0 ∅ ]} {[ 1 := [] ]} [].

(** Eight bytes to write across the end of a chunk of 64 bytes. *)
Definition eight_bytes : list byte :=
  [x41; x42; x43; x44; x45; x46; x47; x48].

(** A world in which the master resolves the chunk 0 of a file and fails
    on every other index, and a chunk server returns what it is asked
    for. *)
Definition second_chunk_lost_net (R : Type) (n : nat) (c : rpc R)
  : option R :=
  match c in rpc R return option R with
  | MasterGetFileInfo _ => Some 2
  | MasterGetChunkHandle _ index => if index =? 0 then Some 10 else None
  | MasterGetReplicas _ => Some ["p"]
  | MasterGetPrimaryAndSecondaries _ =>
      Some (mkPrimaryAndSecondaries "p" [])
  | ChunkServerPushDataAndForward _ handle _ _ => Some (handle, Z.of_nat n)
  | ChunkServerReadChunk _ _ _ length =>
      Some (mkReadChunkReply [] length Success)
  | ChunkServerWriteChunk _ _ => Some tt
  | ChunkServerAppendChunk _ _ => Some (mkAppendChunkReply 0 Success)
  end.

Definition second_chunk_lost_world : World :=
  mkWorld second_chunk_lost_net (fun _ => 0).

(** ** Properties *)

(** *** Machine integers *)

Lemma wrap64_id (z : Z) : int64 z -> wrap64 z = z.
Proof.
  unfold int64, wrap64. intros Hz.
  rewrite Z.mod_small; lia.
Qed.

Lemma wrap64_int64 (z : Z) : int64 (wrap64 z).
Proof.
  unfold int64, wrap64.
  pose proof (Z.mod_pos_bound (z + 2 ^ 63) (2 ^ 64)). lia.
Qed.

Lemma len_nonneg {A : Type} (l : list A) : 0 <= len l.
Proof. unfold len. lia. Qed.

(** *** Download buffer *)

Lemma deleteDownloadedData_present (cs : ChunkServer) (id : DataBufferID)
  (data : list byte) :
  dl cs !! id = Some data ->
  deleteDownloadedData cs id = (set_dl cs (delete id (dl cs)), Ok data).
Proof.
  intros H. unfold deleteDownloadedData, dl_Get, dl_Delete. by rewrite H.
Qed.

Lemma deleteDownloadedData_absent (cs : ChunkServer) (id : DataBufferID) :
  dl cs !! id = None -> deleteDownloadedData cs id = (cs, Err DataNotFound).
Proof.
  intros H. unfold deleteDownloadedData, dl_Get. by rewrite H.
Qed.

(** *** [RPCCreateChunk] *)

Lemma RPCCreateChunk_registers (cs : ChunkServer) (h : Z) (opened : bool) :
  is_Some (chunk (RPCCreateChunk cs h opened).1 !! h).
Proof.
  unfold RPCCreateChunk.
  destruct (chunk cs !! h) as [ck|] eqn:E.
  - simpl. rewrite E. eauto.
  - destruct opened; simpl; rewrite lookup_insert_eq; eauto.
Qed.

(** C8.  A second [RPCCreateChunk] on a handle returns no error and leaves
    the whole state of the replica, so the chunk's entry and its backing
    file, as the first call left it, whatever [os.OpenFile] did or would do
    in either call. *)
Theorem RPCCreateChunk_idempotent (cs : ChunkServer) (h : Z)
  (opened1 opened2 : bool) :
  RPCCreateChunk (RPCCreateChunk cs h opened1).1 h opened2
  = ((RPCCreateChunk cs h opened1).1, None).
Proof.
  destruct (RPCCreateChunk_registers cs h opened1) as [ck Hck].
  unfold RPCCreateChunk at 1. by rewrite Hck.
Qed.

Lemma write_of_effect (cs : ChunkServer) (h : Z) (ck : chunkInfo)
  (v : Mutation) (o : io_outcome) :
  chunk cs !! h = Some ck ->
  exists cs1 e,
    write_of cs h v o = Returns (cs1, e) /\
    chunk (delete_mutation cs1 h (m_version v))
      = <[h := applied ck v]> (chunk cs) /\
    writeLog (delete_mutation cs1 h (m_version v))
      = writeLog cs ++ [(h, m_version v)] /\
    dl (delete_mutation cs1 h (m_version v)) = dl cs /\
    pendingLeaseExtensions (delete_mutation cs1 h (m_version v))
      = pendingLeaseExtensions cs /\
    (o <> IoOk -> e = Some OsError).
Proof.
  intros Hck. unfold write_of, writeChunk, applied. rewrite Hck.
  destruct (decide (m_mtype v = MutationPad)) as [Hp|Hp];
    destruct o as [| |n]; simpl;
    repeat match goal with
           | |- context [if ?b <? ?c then _ else _] =>
               lazymatch b with
               | ck_length _ => fail
               | _ => destruct (b <? c)
               end
           end;
    (eexists _, _; split; [reflexivity|]);
    unfold delete_mutation; simpl; rewrite lookup_insert_eq; simpl;
    rewrite insert_insert_eq; repeat split; congruence.
Qed.

Lemma doMutation_loop_drains (h : Z) (fuel : nat) :
  forall cs io cs' err,
    doMutation_loop fuel cs h io = Returns (cs', err) ->
    drains h cs io cs' err.
Proof.
  induction fuel as [|fuel IH]; intros cs io cs' err; simpl; [done|].
  destruct (chunk cs !! h) as [ck|] eqn:Hck; [|done].
  destruct (ck_mutations ck !! wrap64 (ck_version ck + 1)) as [v|] eqn:Hv.
  - destruct (write_of_effect cs h ck v (hd IoOk io) Hck)
      as (cs1 & e & Hw & _).
    unfold write_of in Hw.
    destruct (decide (m_mtype v = MutationPad)) as [Hp|Hp];
      rewrite Hw; simpl;
      (destruct e as [e|];
       [ intros [= <- <-]; eapply drains_error; eauto;
         unfold write_of; by (destruct (decide _); [|try done])
       | intros Hl; eapply drains_next; eauto;
         unfold write_of; by (destruct (decide _); [|try done]) ]).
  - intros [= <- <-]. by eapply drains_break.
Qed.

Lemma write_of_returns (cs : ChunkServer) (h : Z) (ck : chunkInfo)
  (v : Mutation) (o : io_outcome) (cs1 : ChunkServer) (e : option error) :
  chunk cs !! h = Some ck ->
  write_of cs h v o = Returns (cs1, e) ->
  chunk (delete_mutation cs1 h (m_version v))
    = <[h := applied ck v]> (chunk cs) /\
  writeLog (delete_mutation cs1 h (m_version v))
    = writeLog cs ++ [(h, m_version v)] /\
  dl (delete_mutation cs1 h (m_version v)) = dl cs /\
  pendingLeaseExtensions (delete_mutation cs1 h (m_version v))
    = pendingLeaseExtensions cs.
Proof.
  intros Hck Hw.
  destruct (write_of_effect cs h ck v o Hck) as (cs1' & e' & Hw' & H).
  rewrite Hw in Hw'. injection Hw' as <- <-. tauto.
Qed.

Lemma buffer_wf_delete (ms : gmap Z Mutation) (k : Z) :
  buffer_wf ms -> buffer_wf (delete k ms).
Proof.
  intros Hwf j m. rewrite lookup_delete. case_decide; [done|]. apply Hwf.
Qed.

Lemma below_max_next (ck : chunkInfo) (v : Mutation) :
  buffer_wf (ck_mutations ck) -> below_max ck ->
  ck_mutations ck !! wrap64 (ck_version ck + 1) = Some v ->
  wrap64 (ck_version ck + 1) = ck_version ck + 1 /\
  m_version v = ck_version ck + 1 /\
  below_max (applied ck v).
Proof.
  intros Hwf [Hv Hk] Hlook.
  assert (Hw : wrap64 (ck_version ck + 1) = ck_version ck + 1)
    by (apply wrap64_id; unfold int64; lia).
  rewrite Hw in Hlook. pose proof (Hwf _ _ Hlook) as Hm.
  repeat split; try done; unfold applied; simpl.
  - lia.
  - rewrite Hm. apply Hk. eauto.
  - intros k. rewrite lookup_delete. case_decide.
    + intros [? ?]; done.
    + apply Hk.
Qed.

(** The body of the claim on the order of application: a run of the loop
    that starts at version [v0] logs the writes of [v0 + 1], ..., [v0 + k]
    in this order, ends at version [v0 + k], and has taken exactly these
    versions out of the buffer. *)
Lemma drains_ascending (h : Z) (cs : ChunkServer) (io : list io_outcome)
  (cs' : ChunkServer) (err : option error) :
  drains h cs io cs' err ->
  forall ck,
    chunk cs !! h = Some ck -> buffer_wf (ck_mutations ck) -> below_max ck ->
    exists ck' k,
      0 <= k /\
      chunk cs' !! h = Some ck' /\
      writeLog cs'
        = writeLog cs ++ ((fun v => (h, v)) <$> seqZ (ck_version ck + 1) k) /\
      ck_version ck' = ck_version ck + k /\
      ck_newestVersion ck' = ck_newestVersion ck /\
      (forall j, ck_mutations ck' !! j
                 = if decide (ck_version ck < j <= ck_version ck + k)
                   then None else ck_mutations ck !! j) /\
      (forall j, ck_version ck < j <= ck_version ck + k ->
                 is_Some (ck_mutations ck !! j)) /\
      (err = None -> ck_mutations ck' !! (ck_version ck' + 1) = None) /\
      (forall e, err = Some e -> 0 < k).
Proof.
  induction 1 as [cs io ck0 Hck0 Hnone
                 |cs io ck0 v cs1 e Hck0 Hv Hw
                 |cs io ck0 v cs1 cs' err Hck0 Hv Hw Hd IH];
    intros ck Hck Hwf Hmax;
    rewrite Hck in Hck0; injection Hck0 as <-.
  - exists ck, 0. rewrite seqZ_nil by lia. simpl. rewrite app_nil_r.
    rewrite (wrap64_id (ck_version ck + 1)) in Hnone
      by (destruct Hmax; unfold int64; lia).
    repeat split; try done; try lia.
    intros j. case_decide; [lia|done].
  - destruct (below_max_next ck v Hwf Hmax Hv) as (Hwrap & Hmv & _).
    destruct (write_of_returns _ _ _ _ _ _ _ Hck Hw) as (Hc & Hl & _).
    rewrite Hwrap in Hv.
    exists (applied ck v), 1.
    rewrite Hc, Hl, lookup_insert_eq, Hmv.
    rewrite seqZ_cons, seqZ_nil by lia. simpl.
    repeat split; try done; try lia.
    + intros j. rewrite Hmv, lookup_delete.
      repeat case_decide; try done; lia.
    + intros j Hj. assert (j = ck_version ck + 1) as -> by lia. eauto.
  - destruct (below_max_next ck v Hwf Hmax Hv) as (Hwrap & Hmv & Hmax').
    destruct (write_of_returns _ _ _ _ _ _ _ Hck Hw) as (Hc & Hl & _).
    rewrite Hwrap in Hv.
    destruct (IH (applied ck v)) as (ck' & k & Hk & Hck' & Hlog & Hver & Hnew
                                     & Hms & Hpres & Hstop & Herr).
    { by rewrite Hc, lookup_insert_eq. }
    { by apply buffer_wf_delete. }
    { done. }
    exists ck', (1 + k). simpl in *. rewrite Hmv in *.
    repeat split; try done; try lia.
    + rewrite Hlog, Hl, <- app_assoc. f_equal.
      rewrite (seqZ_cons _ (1 + k)) by lia.
      replace (Z.pred (1 + k)) with k by lia.
      replace (Z.succ (ck_version ck + 1)) with (ck_version ck + 1 + 1)
        by lia.
      done.
    + intros j. rewrite Hms, lookup_delete.
      repeat case_decide; try done; lia.
    + intros j Hj.
      destruct (decide (j = ck_version ck + 1)) as [->|Hne]; [eauto|].
      specialize (Hpres j ltac:(lia)).
      by rewrite lookup_delete_ne in Hpres.
Qed.

Lemma drains_frame (h : Z) (cs : ChunkServer) (io : list io_outcome)
  (cs' : ChunkServer) (err : option error) :
  drains h cs io cs' err ->
  dl cs' = dl cs /\
  pendingLeaseExtensions cs' = pendingLeaseExtensions cs /\
  forall h', h' <> h -> chunk cs' !! h' = chunk cs !! h'.
Proof.
  induction 1 as [cs io ck0 Hck0 Hnone
                 |cs io ck0 v cs1 e Hck0 Hv Hw
                 |cs io ck0 v cs1 cs' err Hck0 Hv Hw Hd IH].
  - done.
  - destruct (write_of_returns _ _ _ _ _ _ _ Hck0 Hw) as (Hc & _ & Hdl & Hp).
    rewrite Hc, Hdl, Hp. repeat split; try done.
    intros h' Hne. by rewrite lookup_insert_ne.
  - destruct (write_of_returns _ _ _ _ _ _ _ Hck0 Hw) as (Hc & _ & Hdl & Hp).
    destruct IH as (-> & -> & IH). rewrite Hdl, Hp. repeat split; try done.
    intros h' Hne. rewrite IH by done. rewrite Hc. by rewrite lookup_insert_ne.
Qed.

(** With a buffer that stores every mutation under its own version, each
    iteration takes one entry out of the buffer: the loop ends within
    [size + 1] iterations. *)
Lemma doMutation_loop_total (h : Z) (fuel : nat) :
  forall cs ck io,
    chunk cs !! h = Some ck ->
    buffer_wf (ck_mutations ck) ->
    (size (ck_mutations ck) < fuel)%nat ->
    exists cs' err, doMutation_loop fuel cs h io = Returns (cs', err).
Proof.
  induction fuel as [|fuel IH]; intros cs ck io Hck Hwf Hsize; [lia|].
  simpl. rewrite Hck.
  destruct (ck_mutations ck !! wrap64 (ck_version ck + 1)) as [v|] eqn:Hv;
    [|by eauto].
  destruct (write_of_effect cs h ck v (hd IoOk io) Hck)
    as (cs1 & e & Hw & Hc & _).
  unfold write_of in Hw.
  assert (Hsz : (size (ck_mutations (applied ck v)) < fuel)%nat).
  { unfold applied; simpl. rewrite (Hwf _ _ Hv).
    rewrite map_size_delete, Hv.
    assert (size (ck_mutations ck) <> 0%nat)
      by (eapply map_size_ne_0_lookup_2; eauto).
    lia. }
  destruct (decide (m_mtype v = MutationPad)); rewrite Hw; simpl;
    (destruct e; [by eauto|];
     eapply (IH _ (applied ck v));
     [ by rewrite Hc, lookup_insert_eq
     | by apply buffer_wf_delete
     | done ]).
Qed.

Lemma doMutation_drains (fuel : nat) (cs : ChunkServer) (h : Z)
  (io : list io_outcome) (cs' : ChunkServer) (err : option error) :
  doMutation fuel cs h io = Returns (cs', err) ->
  exists cs1 ck1,
    drains h cs io cs1 err /\ chunk cs1 !! h = Some ck1 /\
    cs' = match err with
          | Some _ => cs1
          | None => set_chunk cs1 h (resync ck1)
          end.
Proof.
  unfold doMutation.
  destruct (chunk cs !! h) as [ck|] eqn:Hck; [|done].
  destruct (doMutation_loop fuel cs h io) as [[cs1 e]| |] eqn:Hl; [|done..].
  simpl. apply doMutation_loop_drains in Hl.
  assert (exists ck1, chunk cs1 !! h = Some ck1) as [ck1 Hck1].
  { clear Hck. induction Hl as [cs io ck0 Hck0 Hnone
                 |cs io ck0 v cs1 e Hck0 Hv Hw
                 |cs io ck0 v cs1 cs'' err' Hck0 Hv Hw Hd IH]; eauto.
    destruct (write_of_returns _ _ _ _ _ _ _ Hck0 Hw) as (Hc & _).
    rewrite Hc, lookup_insert_eq. eauto. }
  destruct e as [e|].
  - intros [= <- <-]. eauto.
  - rewrite Hck1. intros [= <- <-]. eauto.
Qed.

Lemma resync_fields (ck : chunkInfo) :
  ck_version (resync ck) = ck_version ck /\
  ck_length (resync ck) = ck_length ck /\
  ck_mutations (resync ck) = ck_mutations ck /\
  (ck_mutations ck = ∅ -> ck_newestVersion (resync ck) = ck_version ck) /\
  (ck_mutations ck <> ∅ ->
   ck_newestVersion (resync ck) = ck_newestVersion ck).
Proof.
  unfold resync. case_decide as Hs; simpl; repeat split; try done.
  - intros Hne. by apply map_size_empty_iff in Hs.
  - intros Hm. rewrite Hm in Hs. by rewrite map_size_empty in Hs.
Qed.

(** C3.  A drain of a chunk at version [v0], with a buffer that holds each
    mutation under its own version, returns (given fuel for one iteration
    per buffered mutation and one more), and it has then written the
    mutations of versions [v0 + 1], [v0 + 2], ..., [v0 + k], in this order
    and nothing else: each write is that of the mutation found under the
    chunk's version plus one, the version moves on by one with each, and the
    written mutations have left the buffer.  When the drain returns without
    an error no mutation of the next version is buffered, and when the
    buffer is then empty [newestVersion] equals [version]. *)
Theorem doMutation_applies_in_version_order (fuel : nat) (cs : ChunkServer)
  (h : Z) (ck : chunkInfo) (io : list io_outcome) :
  chunk cs !! h = Some ck ->
  buffer_wf (ck_mutations ck) ->
  below_max ck ->
  (size (ck_mutations ck) < fuel)%nat ->
  exists cs' err ck' k,
    0 <= k /\
    doMutation fuel cs h io = Returns (cs', err) /\
    chunk cs' !! h = Some ck' /\
    writeLog cs'
      = writeLog cs ++ ((fun v => (h, v)) <$> seqZ (ck_version ck + 1) k) /\
    ck_version ck' = ck_version ck + k /\
    (forall j, ck_version ck < j <= ck_version ck + k ->
               (exists m, ck_mutations ck !! j = Some m /\ m_version m = j) /\
               ck_mutations ck' !! j = None) /\
    (forall j, ~ ck_version ck < j <= ck_version ck + k ->
               ck_mutations ck' !! j = ck_mutations ck !! j) /\
    (err = None ->
     ck_mutations ck' !! (ck_version ck' + 1) = None /\
     (ck_mutations ck' = ∅ -> ck_newestVersion ck' = ck_version ck')).
Proof.
  intros Hck Hwf Hmax Hfuel.
  destruct (doMutation_loop_total h fuel cs ck io Hck Hwf Hfuel)
    as (cs1 & e & Hl).
  pose proof (doMutation_loop_drains h fuel _ _ _ _ Hl) as Hd.
  destruct (drains_ascending h _ _ _ _ Hd ck Hck Hwf Hmax)
    as (ck1 & k & Hk & Hck1 & Hlog & Hver & Hnew & Hms & Hpres & Hstop & _).
  assert (Hj : forall j, ck_version ck < j <= ck_version ck + k ->
               (exists m, ck_mutations ck !! j = Some m /\ m_version m = j) /\
               ck_mutations ck1 !! j = None).
  { intros j Hj. split.
    - destruct (Hpres j Hj) as [m Hm]. exists m. split; [done|]. by eapply Hwf.
    - rewrite Hms. by case_decide. }
  assert (Hj' : forall j, ~ ck_version ck < j <= ck_version ck + k ->
               ck_mutations ck1 !! j = ck_mutations ck !! j).
  { intros j Hn. rewrite Hms. by case_decide. }
  unfold doMutation. rewrite Hck, Hl. simpl.
  destruct e as [e|].
  - exists cs1, (Some e), ck1, k.
    do 5 (split; [done|]). split; [exact Hj|]. split; [exact Hj'|]. done.
  - rewrite Hck1.
    destruct (resync_fields ck1) as (Rv & _ & Rm & Re & _).
    exists (set_chunk cs1 h (resync ck1)), None, (resync ck1), k.
    simpl. rewrite lookup_insert_eq, Rv, Rm.
    do 5 (split; [done|]). split; [exact Hj|]. split; [exact Hj'|].
    intros _. split; [by apply Hstop | exact Re].
Qed.

(** C9.  When the write of the mutation [v] found under the chunk's version
    plus one fails, the drain returns that error, and by then the chunk is
    at the version of [v], its length covers the extent of [v] (the whole
    chunk for a pad), and [v] is out of the buffer; [newestVersion] is as it
    was.  No later drain of that state writes the version of [v] again. *)
Theorem doMutation_failed_write_drops_mutation (fuel : nat)
  (cs : ChunkServer) (h : Z) (ck : chunkInfo) (v : Mutation)
  (io : list io_outcome) (cs1 : ChunkServer) (e : error) :
  chunk cs !! h = Some ck ->
  buffer_wf (ck_mutations ck) ->
  below_max ck ->
  ck_mutations ck !! (ck_version ck + 1) = Some v ->
  write_of cs h v (hd IoOk io) = Returns (cs1, Some e) ->
  exists cs' ck',
    doMutation (S fuel) cs h io = Returns (cs', Some e) /\
    chunk cs' !! h = Some ck' /\
    ck_version ck' = m_version v /\
    m_version v = ck_version ck + 1 /\
    ck_length ck'
      = Z.max (ck_length ck)
          (if decide (m_mtype v = MutationPad)
           then wrap64 (MaxChunkSize - 1 + 1)
           else wrap64 (m_offset v + len (m_data v))) /\
    ck_mutations ck' = delete (m_version v) (ck_mutations ck) /\
    ck_mutations ck' !! (ck_version ck + 1) = None /\
    ck_newestVersion ck' = ck_newestVersion ck /\
    forall fuel' io' cs'' err',
      doMutation fuel' cs' h io' = Returns (cs'', err') ->
      exists l, writeLog cs'' = writeLog cs' ++ l /\
                forall x, x ∈ l -> x.1 = h /\ m_version v < x.2.
Proof.
  intros Hck Hwf Hmax Hv Hw.
  assert (Hwrap : wrap64 (ck_version ck + 1) = ck_version ck + 1)
    by (apply wrap64_id; destruct Hmax; unfold int64; lia).
  pose proof Hv as Hv'. rewrite <- Hwrap in Hv'.
  destruct (below_max_next ck v Hwf Hmax Hv') as (_ & Hmv & Hmax').
  destruct (write_of_returns _ _ _ _ _ _ _ Hck Hw) as (Hc & Hl & _).
  exists (delete_mutation cs1 h (m_version v)), (applied ck v).
  split.
  { unfold doMutation. rewrite Hck. simpl. rewrite Hck, Hv'.
    unfold write_of in Hw.
    destruct (decide (m_mtype v = MutationPad)); by rewrite Hw. }
  rewrite Hc, lookup_insert_eq.
  repeat split; try done.
  - unfold applied; simpl. change (len [x00]) with 1.
    destruct (decide (m_mtype v = MutationPad)); simpl;
      match goal with
      | |- context [?a <? ?b] => destruct (Z.ltb_spec a b)
      end; lia.
  - unfold applied; simpl. rewrite Hmv. apply lookup_delete_eq.
  - intros fuel' io' cs'' err' Hrun.
    destruct (doMutation_drains _ _ _ _ _ _ Hrun) as (cs2 & ck2 & Hd & _ & ->).
    destruct (drains_ascending h _ _ _ _ Hd (applied ck v))
      as (ck3 & k & Hk & _ & Hlog & _).
    { by rewrite Hc, lookup_insert_eq. }
    { by apply buffer_wf_delete. }
    { done. }
    exists ((fun v0 => (h, v0)) <$> seqZ (ck_version (applied ck v) + 1) k).
    split.
    + destruct err'; simpl; by rewrite Hlog.
    + intros x Hx. apply list_elem_of_fmap in Hx as (j & -> & Hj).
      apply elem_of_seqZ in Hj. simpl in *. lia.
Qed.

Lemma doMutation_dl (fuel : nat) (cs : ChunkServer) (h : Z)
  (io : list io_outcome) (cs' : ChunkServer) (err : option error) :
  doMutation fuel cs h io = Returns (cs', err) -> dl cs' = dl cs.
Proof.
  intros Hrun.
  destruct (doMutation_drains _ _ _ _ _ _ Hrun) as (cs1 & ck1 & Hd & _ & ->).
  destruct (drains_frame _ _ _ _ _ Hd) as (Hdl & _).
  by destruct err.
Qed.

Lemma RPCWriteChunk_dl (fuel : nat) (cs : ChunkServer) (args : WriteChunkArg)
  (io : list io_outcome) (callAll : ApplyMutationArg -> option error)
  (data : list byte) (cs' : ChunkServer) (err : option error) :
  dl cs !! wc_DataID args = Some data ->
  RPCWriteChunk fuel cs args io callAll = Returns (cs', err) ->
  dl cs' = delete (wc_DataID args) (dl cs).
Proof.
  intros Hdl. unfold RPCWriteChunk.
  rewrite (deleteDownloadedData_present _ _ _ Hdl).
  destruct (MaxChunkSize <? _); [by intros [= <- <-]|].
  destruct (chunk _ !! _) as [ck|]; [|by intros [= <- <-]].
  destruct (RPCWriteChunk_locked _ _ _ _) as [ck1 [v|e]];
    [|by intros [= <- <-]].
  destruct (doMutation _ _ _ _) as [[cs3 [e|]]| |] eqn:Hd; simpl; try done;
    apply doMutation_dl in Hd.
  - by intros [= <- <-].
  - destruct (callAll _); by intros [= <- <-].
Qed.

Lemma RPCAppendChunk_dl (fuel : nat) (cs : ChunkServer)
  (args : AppendChunkArg) (io : list io_outcome)
  (callAll : ApplyMutationArg -> option error) (data : list byte)
  (cs' : ChunkServer) (reply : AppendChunkReply) (err : option error) :
  dl cs !! ac_DataID args = Some data ->
  RPCAppendChunk fuel cs args io callAll = Returns (cs', reply, err) ->
  dl cs' = delete (ac_DataID args) (dl cs).
Proof.
  intros Hdl. unfold RPCAppendChunk.
  rewrite (deleteDownloadedData_present _ _ _ Hdl).
  destruct (MaxAppendSize <? _); [by intros [= <- <- <-]|].
  destruct (chunk _ !! _) as [ck|]; [|by intros [= <- <- <-]].
  destruct (RPCAppendChunk_locked _ _) as [[[ck1 mt] rp] [v|e]];
    [|by intros [= <- <- <-]].
  destruct (doMutation _ _ _ _) as [[cs3 [e|]]| |] eqn:Hd; simpl; try done;
    apply doMutation_dl in Hd.
  - by intros [= <- <- <-].
  - destruct (callAll _); by intros [= <- <- <-].
Qed.

Lemma RPCApplyMutation_dl (fuel : nat) (cs : ChunkServer)
  (args : ApplyMutationArg) (io : list io_outcome) (data : list byte)
  (cs' : ChunkServer) (err : option error) :
  dl cs !! am_DataID args = Some data ->
  RPCApplyMutation fuel cs args io = Returns (cs', err) ->
  dl cs' = delete (am_DataID args) (dl cs).
Proof.
  intros Hdl. unfold RPCApplyMutation.
  rewrite (deleteDownloadedData_present _ _ _ Hdl).
  destruct (chunk _ !! _) as [ck|]; [|by intros [= <- <-]].
  destruct (RPCApplyMutation_locked _ _) as [ck1 [e|]];
    [by intros [= <- <-]|].
  intros Hd. by apply doMutation_dl in Hd.
Qed.

(** *** The handlers return *)

Lemma doMutation_total (fuel : nat) (cs : ChunkServer) (h : Z)
  (ck : chunkInfo) (io : list io_outcome) :
  chunk cs !! h = Some ck ->
  buffer_wf (ck_mutations ck) ->
  (size (ck_mutations ck) < fuel)%nat ->
  exists cs' err, doMutation fuel cs h io = Returns (cs', err).
Proof.
  intros Hck Hwf Hfuel.
  destruct (doMutation_loop_total h fuel cs ck io Hck Hwf Hfuel)
    as (cs1 & e & Hl).
  unfold doMutation. rewrite Hck, Hl. simpl.
  destruct e as [e|]; [by eauto|].
  apply doMutation_loop_drains in Hl.
  assert (exists ck1, chunk cs1 !! h = Some ck1) as [ck1 ->]; [|by eauto].
  clear Hck Hwf Hfuel. remember None as err eqn:Herr.
  induction Hl as [cs io ck0 Hck0 Hnone
                  |cs io ck0 v cs1 e Hck0 Hv Hw
                  |cs io ck0 v cs1 cs'' err' Hck0 Hv Hw Hd IH]; eauto.
  discriminate Herr.
Qed.

Lemma buffer_wf_insert (ms : gmap Z Mutation) (m : Mutation) :
  buffer_wf ms -> buffer_wf (<[m_version m := m]> ms).
Proof.
  intros Hwf k m'. rewrite lookup_insert. case_decide.
  - intros [= <-]. done.
  - apply Hwf.
Qed.

Lemma size_insert_le (ms : gmap Z Mutation) (k : Z) (m : Mutation) :
  (size (<[k := m]> ms) <= S (size ms))%nat.
Proof.
  rewrite map_size_insert. destruct (ms !! k); unfold id; lia.
Qed.

Lemma RPCWriteChunk_returns (fuel : nat) (cs : ChunkServer)
  (args : WriteChunkArg) (io : list io_outcome)
  (callAll : ApplyMutationArg -> option error) :
  drainable fuel cs (Handle (wc_DataID args)) ->
  exists cs' err, RPCWriteChunk fuel cs args io callAll = Returns (cs', err).
Proof.
  intros Hdr. unfold RPCWriteChunk.
  destruct (deleteDownloadedData cs (wc_DataID args)) as [cs0 [data|e]] eqn:Hd;
    [|by eauto].
  assert (chunk cs0 = chunk cs) as Hsame.
  { unfold deleteDownloadedData in Hd.
    destruct (dl_Get _ _); by injection Hd as <- _. }
  destruct (MaxChunkSize <? _); [by eauto|]. rewrite Hsame.
  destruct (chunk cs !! _) as [ck|] eqn:Hck; [|by eauto].
  destruct (Hdr ck Hck) as [Hwf Hsize].
  unfold RPCWriteChunk_locked, nextVersion. cbn [ck_mutations].
  destruct (ck_mutations ck !! _) eqn:Hdup; [by eauto|].
  match goal with
  | |- context [doMutation fuel ?c ?h io] =>
      destruct (doMutation_total fuel c h
                  (mkChunkInfo
                     (if ck_length ck <? wrap64 (wc_Offset args + len data)
                      then wrap64 (wc_Offset args + len data)
                      else ck_length ck)
                     (ck_version ck) (wrap64 (ck_newestVersion ck + 1))
                     (<[wrap64 (ck_newestVersion ck + 1) :=
                          mkMutation MutationWrite
                            (wrap64 (ck_newestVersion ck + 1)) data
                            (wc_Offset args)]> (ck_mutations ck))) io)
        as (cs3 & err & ->)
  end.
  - apply lookup_insert_eq.
  - apply (buffer_wf_insert _ (mkMutation _ _ _ _) Hwf).
  - simpl. pose proof (size_insert_le (ck_mutations ck)
                         (wrap64 (ck_newestVersion ck + 1))
                         (mkMutation MutationWrite
                            (wrap64 (ck_newestVersion ck + 1)) data
                            (wc_Offset args))). lia.
  - simpl. destruct err; [by eauto|]. destruct (callAll _); by eauto.
Qed.

Lemma RPCAppendChunk_returns (fuel : nat) (cs : ChunkServer)
  (args : AppendChunkArg) (io : list io_outcome)
  (callAll : ApplyMutationArg -> option error) :
  drainable fuel cs (Handle (ac_DataID args)) ->
  exists cs' reply err,
    RPCAppendChunk fuel cs args io callAll = Returns (cs', reply, err).
Proof.
  intros Hdr. unfold RPCAppendChunk.
  destruct (deleteDownloadedData cs (ac_DataID args)) as [cs0 [data|e]] eqn:Hd;
    [|by eauto].
  assert (chunk cs0 = chunk cs) as Hsame.
  { unfold deleteDownloadedData in Hd.
    destruct (dl_Get _ _); by injection Hd as <- _. }
  destruct (MaxAppendSize <? _); [by eauto|]. rewrite Hsame.
  destruct (chunk cs !! _) as [ck|] eqn:Hck; [|by eauto].
  destruct (Hdr ck Hck) as [Hwf Hsize].
  destruct (RPCAppendChunk_locked ck data) as [[[ck1 mt] rp] [v|e]] eqn:Hl;
    [|by eauto].
  assert (buffer_wf (ck_mutations ck1) /\
          (size (ck_mutations ck1) <= S (size (ck_mutations ck)))%nat)
    as [Hwf1 Hsize1].
  { unfold RPCAppendChunk_locked, nextVersion in Hl.
    destruct (MaxChunkSize <? _); cbn [ck_mutations] in Hl;
      destruct (ck_mutations ck !! _); try done;
      injection Hl as <- _ _ _; simpl;
      (split; [apply (buffer_wf_insert _ (mkMutation _ _ _ _) Hwf)
              |apply size_insert_le]). }
  destruct (doMutation_total fuel (set_chunk cs0 (Handle (ac_DataID args)) ck1)
              (Handle (ac_DataID args)) ck1 io)
    as (cs3 & err & ->); [apply lookup_insert_eq|done|lia|].
  simpl. destruct err; [by eauto|]. destruct (callAll _); by eauto.
Qed.

Lemma RPCApplyMutation_returns (fuel : nat) (cs : ChunkServer)
  (args : ApplyMutationArg) (io : list io_outcome) :
  drainable fuel cs (Handle (am_DataID args)) ->
  exists cs' err, RPCApplyMutation fuel cs args io = Returns (cs', err).
Proof.
  intros Hdr. unfold RPCApplyMutation.
  destruct (deleteDownloadedData cs (am_DataID args)) as [cs0 [data|e]] eqn:Hd;
    [|by eauto].
  assert (chunk cs0 = chunk cs) as Hsame.
  { unfold deleteDownloadedData in Hd.
    destruct (dl_Get _ _); by injection Hd as <- _. }
  rewrite Hsame.
  destruct (chunk cs !! _) as [ck|] eqn:Hck; [|by eauto].
  destruct (Hdr ck Hck) as [Hwf Hsize].
  unfold RPCApplyMutation_locked. cbn [m_version].
  destruct (ck_mutations ck !! _) eqn:Hdup; [by eauto|].
  eapply doMutation_total.
  - apply lookup_insert_eq.
  - apply (buffer_wf_insert _ (mkMutation _ _ _ _) Hwf).
  - simpl. pose proof (size_insert_le (ck_mutations ck) (am_Version args)
                         (mkMutation (am_Mtype args) (am_Version args) data
                            (am_Offset args))). lia.
Qed.

(** C5.  For an id that is staged with [data]: [deleteDownloadedData]
    returns [data] and takes the entry out, so that a second commit of the
    id fails with [DataNotFound]; every return of [RPCWriteChunk],
    [RPCAppendChunk] and [RPCApplyMutation] for the id leaves the buffer
    without the entry and otherwise as it was, and each of them returns
    when it has the fuel to drain the chunk; [RPCForwardData] for the id
    fails with [DuplicateData] and leaves the state as it was.  For an id
    that is not staged, [deleteDownloadedData] and the three commits fail
    with [DataNotFound] and change nothing. *)
Theorem download_entry_consumed_once (cs : ChunkServer) (id : DataBufferID) :
  (forall data,
     dl cs !! id = Some data ->
     deleteDownloadedData cs id = (set_dl cs (delete id (dl cs)), Ok data) /\
     deleteDownloadedData (deleteDownloadedData cs id).1 id
       = ((deleteDownloadedData cs id).1, Err DataNotFound) /\
     (forall data', RPCForwardData cs id data' = (cs, Some DuplicateData)) /\
     (forall fuel off secs io callAll,
        (forall cs' err,
           RPCWriteChunk fuel cs (mkWriteChunkArg id off secs) io callAll
             = Returns (cs', err) ->
           dl cs' = delete id (dl cs)) /\
        (drainable fuel cs (Handle id) ->
         exists cs' err,
           RPCWriteChunk fuel cs (mkWriteChunkArg id off secs) io callAll
             = Returns (cs', err))) /\
     (forall fuel secs io callAll,
        (forall cs' reply err,
           RPCAppendChunk fuel cs (mkAppendChunkArg id secs) io callAll
             = Returns (cs', reply, err) ->
           dl cs' = delete id (dl cs)) /\
        (drainable fuel cs (Handle id) ->
         exists cs' reply err,
           RPCAppendChunk fuel cs (mkAppendChunkArg id secs) io callAll
             = Returns (cs', reply, err))) /\
     (forall fuel mt ver off io,
        (forall cs' err,
           RPCApplyMutation fuel cs (mkApplyMutationArg mt ver id off) io
             = Returns (cs', err) ->
           dl cs' = delete id (dl cs)) /\
        (drainable fuel cs (Handle id) ->
         exists cs' err,
           RPCApplyMutation fuel cs (mkApplyMutationArg mt ver id off) io
             = Returns (cs', err)))) /\
  (dl cs !! id = None ->
   deleteDownloadedData cs id = (cs, Err DataNotFound) /\
   (forall fuel off secs io callAll,
      RPCWriteChunk fuel cs (mkWriteChunkArg id off secs) io callAll
        = Returns (cs, Some DataNotFound)) /\
   (forall fuel secs io callAll,
      RPCAppendChunk fuel cs (mkAppendChunkArg id secs) io callAll
        = Returns (cs, mkAppendChunkReply 0 Success, Some DataNotFound)) /\
   (forall fuel mt ver off io,
      RPCApplyMutation fuel cs (mkApplyMutationArg mt ver id off) io
        = Returns (cs, Some DataNotFound))).
Proof.
  split.
  - intros data Hdl.
    rewrite (deleteDownloadedData_present _ _ _ Hdl). simpl.
    split; [done|]. split.
    { apply deleteDownloadedData_absent. simpl. apply lookup_delete_eq. }
    split.
    { intros data'. unfold RPCForwardData, dl_Get. by rewrite Hdl. }
    split; [|split].
    + intros fuel off secs io callAll. split.
      * intros cs' err.
        by apply (RPCWriteChunk_dl _ _ (mkWriteChunkArg id off secs) _ _
                    data).
      * apply (RPCWriteChunk_returns _ _ (mkWriteChunkArg id off secs)).
    + intros fuel secs io callAll. split.
      * intros cs' reply err.
        by apply (RPCAppendChunk_dl _ _ (mkAppendChunkArg id secs) _ _ data).
      * apply (RPCAppendChunk_returns _ _ (mkAppendChunkArg id secs)).
    + intros fuel mt ver off io. split.
      * intros cs' err.
        by apply (RPCApplyMutation_dl _ _
                    (mkApplyMutationArg mt ver id off) _ data).
      * apply (RPCApplyMutation_returns _ _
                 (mkApplyMutationArg mt ver id off)).
  - intros Hdl.
    pose proof (deleteDownloadedData_absent _ _ Hdl) as Hd.
    split; [done|].
    unfold RPCWriteChunk, RPCAppendChunk, RPCApplyMutation. simpl.
    by rewrite Hd.
Qed.

Lemma RPCAppendChunk_locked_elects (ck : chunkInfo) (data : list byte) :
  int64 (ck_length ck + len data) ->
  exists ck1 mtype reply res,
    RPCAppendChunk_locked ck data = (ck1, mtype, reply, res) /\
    ar_Offset reply = ck_length ck /\
    (MaxChunkSize < ck_length ck + len data ->
     mtype = MutationPad /\ ck_length ck1 = MaxChunkSize /\
     ar_ErrorCode reply = AppendExceedChunkSize) /\
    (ck_length ck + len data <= MaxChunkSize ->
     mtype = MutationAppend /\ ck_length ck1 = ck_length ck + len data /\
     ar_ErrorCode reply = Success) /\
    (forall version,
       res = Ok version ->
       ck_mutations ck1 !! version
         = Some (mkMutation mtype version data (ck_length ck))).
Proof.
  intros Hint. unfold RPCAppendChunk_locked, nextVersion.
  rewrite (wrap64_id _ Hint).
  destruct (Z.ltb_spec MaxChunkSize (ck_length ck + len data)) as [Hgt|Hle];
    simpl;
    destruct (ck_mutations ck !! wrap64 (ck_newestVersion ck + 1)) eqn:Hdup;
    (eexists _, _, _, _; split; [reflexivity|]); simpl;
    (split; [done|]);
    (split; [intros; first [lia | done]|]);
    (split; [intros; first [lia | done]|]);
    intros version [= <-]; by rewrite ?lookup_insert_eq.
Qed.

Lemma RPCAppendChunk_reply (fuel : nat) (cs : ChunkServer)
  (args : AppendChunkArg) (io : list io_outcome)
  (callAll : ApplyMutationArg -> option error) (data : list byte)
  (ck : chunkInfo) (cs' : ChunkServer) (reply : AppendChunkReply)
  (err : option error) :
  dl cs !! ac_DataID args = Some data ->
  len data <= MaxAppendSize ->
  chunk cs !! Handle (ac_DataID args) = Some ck ->
  RPCAppendChunk fuel cs args io callAll = Returns (cs', reply, err) ->
  reply = (RPCAppendChunk_locked ck data).1.2.
Proof.
  intros Hdl Hlen Hck. unfold RPCAppendChunk.
  rewrite (deleteDownloadedData_present _ _ _ Hdl). simpl.
  destruct (Z.ltb_spec MaxAppendSize (len data)) as [?|_]; [lia|].
  rewrite Hck.
  destruct (RPCAppendChunk_locked ck data) as [[[ck1 mt] rp] [v|e]]; simpl;
    [|by intros [= <- <- <-]].
  destruct (doMutation _ _ _ _) as [[cs3 [e|]]| |]; simpl; try done;
    [by intros [= <- <- <-] | destruct (callAll _); by intros [= <- <- <-]].
Qed.

(** C1.  The locked region of [RPCAppendChunk], for a chunk of length [l]
    and the data that the handler has consumed (with [l + len(data)] a
    64-bit integer): it elects [Pad], sets the length to [MaxChunkSize] and
    puts [AppendExceedChunkSize] in the reply when
    [l + len(data) > MaxChunkSize]; it elects [Append], sets the length to
    [l + len(data)] and leaves the reply's code at its zero value otherwise;
    in both cases the reply's offset is [l] and the mutation it buffers
    carries the elected kind, the data and [l].  The handler comes to this
    region when the data is staged and within [MaxAppendSize] and the
    server holds the chunk; every return of the handler then carries this
    reply, and the handler returns when it has the fuel to drain the
    chunk. *)
Theorem RPCAppendChunk_elects (ck : chunkInfo) (data : list byte) :
  int64 (ck_length ck + len data) ->
  exists ck1 mtype reply res,
    RPCAppendChunk_locked ck data = (ck1, mtype, reply, res) /\
    ar_Offset reply = ck_length ck /\
    (MaxChunkSize < ck_length ck + len data ->
     mtype = MutationPad /\ ck_length ck1 = MaxChunkSize /\
     ar_ErrorCode reply = AppendExceedChunkSize) /\
    (ck_length ck + len data <= MaxChunkSize ->
     mtype = MutationAppend /\ ck_length ck1 = ck_length ck + len data /\
     ar_ErrorCode reply = Success) /\
    (forall version,
       res = Ok version ->
       ck_mutations ck1 !! version
         = Some (mkMutation mtype version data (ck_length ck))) /\
    (forall cs args,
       dl cs !! ac_DataID args = Some data ->
       len data <= MaxAppendSize ->
       chunk cs !! Handle (ac_DataID args) = Some ck ->
       (forall fuel io callAll cs' reply' err,
          RPCAppendChunk fuel cs args io callAll
            = Returns (cs', reply', err) ->
          reply' = reply) /\
       (forall fuel io callAll,
          drainable fuel cs (Handle (ac_DataID args)) ->
          exists cs' err,
            RPCAppendChunk fuel cs args io callAll
              = Returns (cs', reply, err))).
Proof.
  intros Hint.
  destruct (RPCAppendChunk_locked_elects ck data Hint)
    as (ck1 & mtype & reply & res & Hl & Hoff & Hpad & Happ & Hbuf).
  exists ck1, mtype, reply, res.
  do 5 (split; [assumption|]).
  intros cs args Hdl Hlen Hck.
  assert (Hrep : forall fuel io callAll cs' reply' err,
            RPCAppendChunk fuel cs args io callAll
              = Returns (cs', reply', err) ->
            reply' = reply).
  { intros fuel io callAll cs' reply' err Hrun.
    rewrite (RPCAppendChunk_reply _ _ _ _ _ _ _ _ _ _ Hdl Hlen Hck Hrun).
    by rewrite Hl. }
  split; [exact Hrep|].
  intros fuel io callAll Hdr.
  destruct (RPCAppendChunk_returns fuel cs args io callAll Hdr)
    as (cs' & reply' & err & Hrun).
  exists cs', err. by rewrite <- (Hrep _ _ _ _ _ _ Hrun).
Qed.

(** *** The version counters on the primary paths *)

Lemma chunk_inv_mono (n n' : Z) (ck : chunkInfo) :
  n <= n' -> chunk_inv n ck -> chunk_inv n' ck.
Proof.
  unfold chunk_inv. intros ? (? & ? & ? & ?).
  split; [done|]. split; [done|]. split; [lia|done].
Qed.

Lemma server_inv_mono (n n' : Z) (cs : ChunkServer) :
  n <= n' -> server_inv n cs -> server_inv n' cs.
Proof. intros ? H h ck Hck. eapply chunk_inv_mono; eauto. Qed.

Lemma server_inv_set_chunk (n : Z) (cs : ChunkServer) (h : Z)
  (ck : chunkInfo) :
  server_inv n cs -> chunk_inv n ck -> server_inv n (set_chunk cs h ck).
Proof.
  intros Hs Hc h' ck'. simpl. rewrite lookup_insert. case_decide.
  - by intros [= <-].
  - apply Hs.
Qed.

Lemma chunk_inv_version_invariant (n : Z) (ck : chunkInfo) :
  chunk_inv n ck -> version_invariant ck.
Proof.
  intros (_ & Hle & _ & Hkeys). split; [lia|]. split.
  - intros Hempty.
    destruct (decide (ck_version ck = ck_newestVersion ck)) as [|Hne];
      [done|].
    assert (is_Some (ck_mutations ck !! ck_newestVersion ck)) as [m Hm]
      by (apply Hkeys; lia).
    by rewrite Hempty, lookup_empty in Hm.
  - intros Heq. apply map_empty. intros k.
    destruct (ck_mutations ck !! k) eqn:Hk; [|done].
    assert (ck_version ck < k <= ck_newestVersion ck)
      by (apply Hkeys; eauto).
    lia.
Qed.

Lemma chunk_inv_commit (n : Z) (ck : chunkInfo) (length' : Z)
  (m : Mutation) :
  n < 2 ^ 63 - 1 -> chunk_inv n ck ->
  m_version m = ck_newestVersion ck + 1 ->
  wrap64 (ck_newestVersion ck + 1) = ck_newestVersion ck + 1 /\
  ck_mutations ck !! (ck_newestVersion ck + 1) = None /\
  chunk_inv (n + 1)
    (mkChunkInfo length' (ck_version ck) (ck_newestVersion ck + 1)
       (<[ck_newestVersion ck + 1 := m]> (ck_mutations ck))).
Proof.
  intros Hn (Hwf & Hle & Hnew & Hkeys) Hm.
  assert (Hnone : ck_mutations ck !! (ck_newestVersion ck + 1) = None).
  { destruct (ck_mutations ck !! (ck_newestVersion ck + 1)) eqn:E; [|done].
    assert (ck_version ck < ck_newestVersion ck + 1 <= ck_newestVersion ck)
      by (apply Hkeys; eauto).
    lia. }
  split; [apply wrap64_id; unfold int64; lia|]. split; [done|].
  unfold chunk_inv; simpl. split; [|split; [lia|split; [lia|]]].
  - intros k m'. rewrite lookup_insert. case_decide.
    + intros [= <-]. congruence.
    + apply Hwf.
  - intros k. rewrite lookup_insert. case_decide.
    + split; [intros _; lia | eauto].
    + rewrite Hkeys. lia.
Qed.

Lemma chunk_inv_drain (n : Z) (h : Z) (cs : ChunkServer)
  (io : list io_outcome) (cs' : ChunkServer) (err : option error) :
  n < 2 ^ 63 - 1 -> server_inv n cs ->
  (exists ck, chunk cs !! h = Some ck) ->
  drains h cs io cs' err ->
  server_inv n cs' /\
  forall ck', chunk cs' !! h = Some ck' ->
              err = None -> chunk_inv n (resync ck').
Proof.
  intros Hn Hs [ck Hck] Hd.
  destruct (Hs _ _ Hck) as (Hwf & Hle & Hnew & Hkeys).
  destruct (drains_ascending h _ _ _ _ Hd ck Hck Hwf)
    as (ck1 & k & Hk & Hck1 & _ & Hver & Hnew1 & Hms & Hpres & Hstop & _).
  { split; [lia|]. intros j Hj. apply Hkeys in Hj. lia. }
  destruct (drains_frame _ _ _ _ _ Hd) as (_ & _ & Hother).
  assert (Hbound : ck_version ck + k <= ck_newestVersion ck).
  { destruct (decide (k = 0)) as [->|Hk0]; [lia|].
    assert (is_Some (ck_mutations ck !! (ck_version ck + k))) as Hlast
      by (apply Hpres; lia).
    apply Hkeys in Hlast. lia. }
  assert (Hinv1 : chunk_inv n ck1).
  { unfold chunk_inv. rewrite Hver, Hnew1. split; [|split; [|split]].
    - intros j m. rewrite Hms. case_decide; [done|]. apply Hwf.
    - lia.
    - lia.
    - intros j. rewrite Hms. case_decide.
      + split; [by intros [? ?]|lia].
      + rewrite Hkeys. lia. }
  split.
  - intros h' ck'. destruct (decide (h' = h)) as [->|Hne].
    + rewrite Hck1. by intros [= <-].
    + rewrite Hother by done. apply Hs.
  - intros ck' Hck' ->. rewrite Hck1 in Hck'. injection Hck' as <-.
    specialize (Hstop eq_refl).
    destruct Hinv1 as (Hwf1 & Hle1 & Hn1 & Hkeys1).
    assert (Heq : ck_version ck1 = ck_newestVersion ck1).
    { destruct (decide (ck_version ck1 = ck_newestVersion ck1)); [done|].
      assert (is_Some (ck_mutations ck1 !! (ck_version ck1 + 1))) as [? Hx]
        by (apply Hkeys1; lia).
      congruence. }
    unfold resync. case_decide; [|done].
    unfold chunk_inv; simpl.
    split; [done|]. split; [lia|]. split; [lia|].
    intros j. rewrite Hkeys1. lia.
Qed.

Lemma primary_step_inv (n : Z) (cs cs' : ChunkServer) :
  0 <= n < 2 ^ 63 - 1 -> server_inv n cs -> primary_step cs cs' ->
  server_inv (n + 1) cs'.
Proof.
  intros Hn Hs Hstep.
  destruct Hstep as [cs h opened|cs h data stamp fw|cs id data|cs id
                    |cs h ck newLen data offset Hck|cs h ck data Hck
                    |fuel cs h io cs' err Hrun|cs h].
  - apply (server_inv_mono n); [lia|].
    unfold RPCCreateChunk. destruct (chunk cs !! h) eqn:E; [done|].
    assert (chunk_inv n (mkChunkInfo 0 0 0 ∅)).
    { unfold chunk_inv, buffer_wf; simpl.
      split; [intros k m; by rewrite lookup_empty|].
      split; [lia|]. split; [lia|].
      intros k. rewrite lookup_empty. split; [by intros [? ?]|lia]. }
    destruct opened; simpl; by apply server_inv_set_chunk.
  - apply (server_inv_mono n); [lia|]. unfold RPCPushDataAndForward.
    by destruct (MaxChunkSize <? len data).
  - apply (server_inv_mono n); [lia|]. unfold RPCForwardData.
    by destruct (dl_Get (dl cs) id).
  - apply (server_inv_mono n); [lia|]. unfold deleteDownloadedData.
    by destruct (dl_Get (dl cs) id).
  - apply server_inv_set_chunk; [by apply (server_inv_mono n); [lia|]|].
    unfold RPCWriteChunk_locked, nextVersion. simpl.
    destruct (chunk_inv_commit n ck
                (if ck_length ck <? newLen then newLen else ck_length ck)
                (mkMutation MutationWrite (ck_newestVersion ck + 1) data
                   offset))
      as (Hw & Hnone & Hinv); [lia|by apply (Hs h)|done|].
    by rewrite Hw, Hnone.
  - apply server_inv_set_chunk; [by apply (server_inv_mono n); [lia|]|].
    unfold RPCAppendChunk_locked, nextVersion.
    destruct (MaxChunkSize <? wrap64 (ck_length ck + len data)); simpl.
    + destruct (chunk_inv_commit n ck MaxChunkSize
                  (mkMutation MutationPad (ck_newestVersion ck + 1) data
                     (ck_length ck)))
        as (Hw & Hnone & Hinv); [lia|by apply (Hs h)|done|].
      by rewrite Hw, Hnone.
    + destruct (chunk_inv_commit n ck (wrap64 (ck_length ck + len data))
                  (mkMutation MutationAppend (ck_newestVersion ck + 1) data
                     (ck_length ck)))
        as (Hw & Hnone & Hinv); [lia|by apply (Hs h)|done|].
      by rewrite Hw, Hnone.
  - apply (server_inv_mono n); [lia|].
    assert (exists ck, chunk cs !! h = Some ck) as Hex.
    { unfold doMutation in Hrun. destruct (chunk cs !! h); [eauto|done]. }
    destruct (doMutation_drains _ _ _ _ _ _ Hrun)
      as (cs1 & ck1 & Hd & Hck1 & ->).
    destruct (chunk_inv_drain n h _ _ _ _ ltac:(lia) Hs Hex Hd)
      as (Hs1 & Hre).
    destruct err; [done|].
    apply server_inv_set_chunk; [done|]. by apply Hre.
  - by apply (server_inv_mono n); [lia|].
Qed.

Lemma primary_steps_inv (n : nat) (cs cs' : ChunkServer) :
  nsteps primary_step n cs cs' ->
  forall m, 0 <= m -> m + Z.of_nat n < 2 ^ 63 ->
            server_inv m cs -> server_inv (m + Z.of_nat n) cs'.
Proof.
  induction 1 as [cs|n cs cs1 cs' Hstep Hrest IH]; intros m Hm Hn Hs.
  - by rewrite Z.add_0_r.
  - replace (m + Z.of_nat (S n)) with (m + 1 + Z.of_nat n) by lia.
    apply IH; [lia|lia|].
    eapply primary_step_inv; eauto. lia.
Qed.

(** *** The handlers of the primary as sequences of steps *)

Lemma RPCWriteChunk_primary_steps (fuel : nat) (cs : ChunkServer)
  (args : WriteChunkArg) (io : list io_outcome)
  (callAll : ApplyMutationArg -> option error) (cs' : ChunkServer)
  (err : option error) :
  RPCWriteChunk fuel cs args io callAll = Returns (cs', err) ->
  rtc primary_step cs cs'.
Proof.
  unfold RPCWriteChunk.
  pose proof (ps_consume cs (wc_DataID args)) as Hconsume.
  destruct (deleteDownloadedData cs (wc_DataID args)) as [cs0 [data|e]];
    simpl in Hconsume; [|intros [= <- <-]; by apply rtc_once].
  destruct (MaxChunkSize <? _); [intros [= <- <-]; by apply rtc_once|].
  destruct (chunk cs0 !! _) as [ck|] eqn:Hck;
    [|intros [= <- <-]; by apply rtc_once].
  pose proof (ps_write_locked cs0 _ ck
                (wrap64 (wc_Offset args + len data)) data (wc_Offset args)
                Hck) as Hlocked.
  destruct (RPCWriteChunk_locked _ _ _ _) as [ck1 [v|e]]; simpl in Hlocked;
    [|intros [= <- <-]; eapply rtc_l; [exact Hconsume|by apply rtc_once]].
  destruct (doMutation _ _ _ _) as [[cs3 [e|]]| |] eqn:Hd; simpl; try done;
    pose proof (ps_drain _ _ _ _ _ _ Hd) as Hdrain.
  - intros [= <- <-].
    eapply rtc_l; [exact Hconsume|].
    eapply rtc_l; [exact Hlocked|]. by apply rtc_once.
  - destruct (callAll _); intros [= <- <-];
      (eapply rtc_l; [exact Hconsume|]);
      (eapply rtc_l; [exact Hlocked|]).
    + by apply rtc_once.
    + eapply rtc_l; [exact Hdrain|]. apply rtc_once. apply ps_pending.
Qed.

Lemma RPCAppendChunk_primary_steps (fuel : nat) (cs : ChunkServer)
  (args : AppendChunkArg) (io : list io_outcome)
  (callAll : ApplyMutationArg -> option error) (cs' : ChunkServer)
  (reply : AppendChunkReply) (err : option error) :
  RPCAppendChunk fuel cs args io callAll = Returns (cs', reply, err) ->
  rtc primary_step cs cs'.
Proof.
  unfold RPCAppendChunk.
  pose proof (ps_consume cs (ac_DataID args)) as Hconsume.
  destruct (deleteDownloadedData cs (ac_DataID args)) as [cs0 [data|e]];
    simpl in Hconsume; [|intros [= <- <- <-]; by apply rtc_once].
  destruct (MaxAppendSize <? _); [intros [= <- <- <-]; by apply rtc_once|].
  destruct (chunk cs0 !! _) as [ck|] eqn:Hck;
    [|intros [= <- <- <-]; by apply rtc_once].
  pose proof (ps_append_locked cs0 _ ck data Hck) as Hlocked.
  destruct (RPCAppendChunk_locked _ _) as [[[ck1 mt] rp] [v|e]];
    simpl in Hlocked;
    [|intros [= <- <- <-]; eapply rtc_l; [exact Hconsume|by apply rtc_once]].
  destruct (doMutation _ _ _ _) as [[cs3 [e|]]| |] eqn:Hd; simpl; try done;
    pose proof (ps_drain _ _ _ _ _ _ Hd) as Hdrain.
  - intros [= <- <- <-].
    eapply rtc_l; [exact Hconsume|].
    eapply rtc_l; [exact Hlocked|]. by apply rtc_once.
  - destruct (callAll _); intros [= <- <- <-];
      (eapply rtc_l; [exact Hconsume|]);
      (eapply rtc_l; [exact Hlocked|]).
    + by apply rtc_once.
    + eapply rtc_l; [exact Hdrain|]. apply rtc_once. apply ps_pending.
Qed.

(** C2, amended.  On a replica that starts empty and takes steps of the
    primary paths only - chunks created, data staged and consumed, the
    locked regions of [RPCWriteChunk] and [RPCAppendChunk], drains with any
    outcome on the disk - every chunk has [version <= newestVersion], and
    its buffer is empty exactly when the two are equal (for [n] steps
    with [n] below the largest 64-bit integer). *)
Theorem version_invariant_on_primary_paths (n : nat) (cs : ChunkServer)
  (h : Z) (ck : chunkInfo) :
  nsteps primary_step n initial_server cs ->
  Z.of_nat n < 2 ^ 63 ->
  chunk cs !! h = Some ck ->
  version_invariant ck.
Proof.
  intros Hsteps Hn Hck.
  apply (chunk_inv_version_invariant (0 + Z.of_nat n)).
  eapply (primary_steps_inv n _ _ Hsteps 0); [lia|lia| |exact Hck].
  intros h' ck'. unfold initial_server; simpl. by rewrite lookup_empty.
Qed.

(** *** Placement *)

Lemma index_all_in_range (all : list string) (choose : list Z) :
  (forall v, v ∈ choose -> 0 <= v < len all) ->
  exists ret,
    index_all all choose = Returns ret /\
    Forall2 (fun v a => all !! Z.to_nat v = Some a) choose ret.
Proof.
  induction choose as [|v choose IH]; intros Hrange; simpl.
  - exists []. split; [done|constructor].
  - assert (0 <= v < len all) as Hv by (apply Hrange; left).
    destruct (Z.ltb_spec v 0) as [?|_]; [lia|].
    destruct (lookup_lt_is_Some_2 all (Z.to_nat v)) as [a Ha];
      [unfold len in Hv; lia|].
    rewrite Ha.
    destruct IH as (ret & -> & Hall); [intros w Hw; apply Hrange; by right|].
    exists (a :: ret). split; [done|by constructor].
Qed.

Lemma index_all_NoDup (all : list string) (choose : list Z)
  (ret : list string) :
  NoDup all -> NoDup choose -> (forall v, v ∈ choose -> 0 <= v) ->
  Forall2 (fun v a => all !! Z.to_nat v = Some a) choose ret ->
  NoDup ret /\ List.length ret = List.length choose /\
  forall a, a ∈ ret -> a ∈ all.
Proof.
  intros Hall Hchoose Hpos Hf.
  induction Hf as [|v a choose ret Hva Hf IH].
  - repeat split; [constructor|]. intros a Ha. by apply elem_of_nil in Ha.
  - apply NoDup_cons in Hchoose as [Hv Hchoose].
    destruct IH as (Hnd & Hlen & Hin);
      [done|intros w Hw; apply Hpos; by right|].
    split; [|split].
    + apply NoDup_cons. split; [|done].
      intros Ha. apply list_elem_of_lookup in Ha as [i Hi].
      destruct (Forall2_lookup_r _ _ _ _ _ Hf Hi) as (w & Hw & Hwa).
      simpl in Hwa.
      assert (Z.to_nat v = Z.to_nat w)
        by exact (NoDup_lookup _ _ _ _ Hall Hva Hwa).
      assert (0 <= v) by (apply Hpos; left).
      assert (0 <= w)
        by (apply Hpos; right; eapply list_elem_of_lookup_2; eauto).
      assert (v = w) as -> by lia.
      apply Hv. eapply list_elem_of_lookup_2; eauto.
    + simpl. by rewrite Hlen.
    + intros b Hb. apply elem_of_cons in Hb as [->|Hb]; [|by apply Hin].
      eapply list_elem_of_lookup_2; eauto.
Qed.

(** C7.  With [range] visiting each registered address once and
    [rand.Perm(n)] returning a permutation of [0, ..., n-1]:
    [ChooseServers(num)] returns an error exactly when [num] exceeds the
    number of registered servers, the error being the not-enough-servers
    one; and for [0 <= num] within that number it returns [num] pairwise
    distinct addresses, each of them registered. *)
Theorem ChooseServers_distinct_registered
  (servers : gmap string chunkServerInfo) (order : list string)
  (randPerm : Z -> list Z) (num : Z) :
  order ≡ₚ (map_to_list servers).*1 ->
  (forall n, 0 <= n -> randPerm n ≡ₚ seqZ 0 n) ->
  ((exists e, ChooseServers servers order randPerm num = Returns (Err e))
   <-> Z.of_nat (size servers) < num) /\
  (Z.of_nat (size servers) < num ->
   ChooseServers servers order randPerm num
     = Returns (Err (NotEnoughServers num))) /\
  (0 <= num <= Z.of_nat (size servers) ->
   exists ret,
     ChooseServers servers order randPerm num = Returns (Ok ret) /\
     len ret = num /\ NoDup ret /\
     forall a, a ∈ ret -> is_Some (servers !! a)).
Proof.
  intros Horder Hperm.
  assert (Hlen : len order = Z.of_nat (size servers)).
  { unfold len. rewrite Horder, length_fmap, length_map_to_list. done. }
  assert (Hnd : NoDup order).
  { rewrite Horder. apply NoDup_fst_map_to_list. }
  assert (Hgood : 0 <= num <= Z.of_nat (size servers) ->
   exists ret,
     ChooseServers servers order randPerm num = Returns (Ok ret) /\
     len ret = num /\ NoDup ret /\
     forall a, a ∈ ret -> is_Some (servers !! a)).
  { intros Hnum. unfold ChooseServers, Sample.
    destruct (Z.ltb_spec (Z.of_nat (size servers)) num) as [?|_]; [lia|].
    rewrite Hlen.
    destruct (Z.ltb_spec (Z.of_nat (size servers)) num) as [?|_]; [lia|].
    destruct (Z.ltb_spec (Z.of_nat (size servers)) 0) as [?|_]; [lia|].
    destruct (Z.ltb_spec num 0) as [?|_]; [lia|]. simpl.
    specialize (Hperm (Z.of_nat (size servers)) ltac:(lia)).
    set (choose := take (Z.to_nat num) (randPerm (Z.of_nat (size servers)))).
    assert (Hsub : forall v, v ∈ choose ->
                             0 <= v < Z.of_nat (size servers)).
    { intros v Hv. apply subseteq_take in Hv. rewrite Hperm in Hv.
      apply elem_of_seqZ in Hv. lia. }
    destruct (index_all_in_range order choose) as (ret & -> & Hf).
    { intros v Hv. rewrite Hlen. by apply Hsub. }
    destruct (index_all_NoDup order choose ret) as (Hr & Hl & Hin);
      [done| | |done|].
    { assert (NoDup (randPerm (Z.of_nat (size servers)))) as Hp
        by (rewrite Hperm; apply NoDup_seqZ).
      exact (sublist_NoDup _ _ Hp (sublist_take _ _)). }
    { intros v Hv. apply Hsub in Hv. lia. }
    exists ret. simpl. split; [done|]. split; [|split; [done|]].
    - unfold len. rewrite Hl. unfold choose. rewrite length_take.
      rewrite Hperm, length_seqZ. lia.
    - intros a Ha. apply Hin in Ha. rewrite Horder in Ha.
      apply list_elem_of_fmap in Ha as ([a' i] & -> & Hai).
      apply elem_of_map_to_list in Hai. eauto. }
  split; [split|split; [|done]].
  - intros [e He].
    destruct (Z.lt_ge_cases (Z.of_nat (size servers)) num) as [|Hle];
      [done|].
    destruct (Z.lt_ge_cases num 0) as [Hneg|Hpos].
    + unfold ChooseServers, Sample in He. rewrite Hlen in He.
      destruct (Z.ltb_spec (Z.of_nat (size servers)) num) as [?|_]; [lia|].
      destruct (Z.ltb_spec (Z.of_nat (size servers)) 0) as [?|_]; [lia|].
      destruct (Z.ltb_spec num 0) as [_|?]; [|lia]. done.
    + destruct Hgood as (ret & Hret & _); [lia|]. congruence.
  - intros Hlt. unfold ChooseServers.
    destruct (Z.ltb_spec (Z.of_nat (size servers)) num) as [_|?]; [|lia].
    eauto.
  - intros Hlt. unfold ChooseServers.
    destruct (Z.ltb_spec (Z.of_nat (size servers)) num) as [_|?]; [|lia].
    done.
Qed.

(** *** The client *)

Ltac client_step :=
  unfold mbind, client_bind, mret, client_ret, Call, panic, out_of_fuel;
  simpl.

Lemma AppendChunk_attempt (w : World) (handle : Z) (data : list byte)
  (capData : Z) (tr tr' : list event) (r : Z * option error) :
  len data <= MaxAppendSize ->
  AppendChunk w handle data capData tr = (Returns r, tr') ->
  exists evs out,
    tr' = tr ++ evs /\ attempt handle data evs out /\
    r = match out with
        | Failed => (-1, Some (GfsError UnknownError))
        | Exceeded off => (off, Some (GfsError AppendExceedChunkSize))
        | Appended off => (off, None)
        end.
Proof.
  intros Hlen. unfold AppendChunk.
  destruct (Z.ltb_spec MaxAppendSize (len data)) as [?|_]; [lia|].
  client_step.
  destruct (net w _ _ (MasterGetPrimaryAndSecondaries handle)) as [l|].
  2:{ intros [= <- <-]. eexists _, Failed.
      split; [done|]. split; [constructor|done]. }
  destruct (capData <? 2); [done|]. simpl.
  destruct (net w _ _ (ChunkServerPushDataAndForward _ _ _ _)) as [id|].
  2:{ intros [= <- <-]. eexists _, Failed. rewrite <- app_assoc.
      split; [done|]. split; [constructor|done]. }
  destruct (net w _ _ (ChunkServerAppendChunk _ _)) as [a|] eqn:Ha.
  2:{ intros [= <- <-]. eexists _, Failed. rewrite <- !app_assoc.
      split; [done|]. split; [apply attempt_no_commit|done]. }
  pose proof (attempt_reply handle data l id a) as Hatt.
  destruct (decide (ar_ErrorCode a = AppendExceedChunkSize));
    intros [= <- <-]; eexists _, _; rewrite <- !app_assoc;
    (split; [done|]); (split; [exact Hatt|done]).
Qed.

Lemma Append_retry_on_chunk (w : World) (handle : Z) (data : list byte)
  (capData : Z) (fuel : nat) :
  len data <= MaxAppendSize ->
  forall tr tr' r,
    Append_retry fuel w handle data capData tr = (Returns r, tr') ->
    exists evs out,
      tr' = tr ++ evs /\ on_chunk handle data evs out /\
      match out with
      | Failed => False
      | Exceeded off => r = (off, Some (GfsError AppendExceedChunkSize))
      | Appended off => r = (off, None)
      end.
Proof.
  intros Hlen. induction fuel as [|fuel IH]; intros tr tr' r; [done|].
  simpl. unfold mbind, client_bind.
  destruct (AppendChunk w handle data capData tr) as [[r1| |] tr1] eqn:Hatt;
    [|done..].
  destruct (AppendChunk_attempt _ _ _ _ _ _ _ Hlen Hatt)
    as (evs & out & -> & Hev & ->).
  destruct out as [|off|off]; simpl.
  - intros Hrest. destruct (IH _ _ _ Hrest) as (evs' & out' & -> & Hon & Hr).
    exists (evs ++ evs'), out'. rewrite app_assoc.
    split; [done|]. split; [by eapply on_chunk_retry|done].
  - unfold mret, client_ret. intros [= <- <-].
    exists evs, (Exceeded off). split; [done|].
    split; [by apply on_chunk_exceeded|done].
  - unfold mret, client_ret. intros [= <- <-].
    exists evs, (Appended off). split; [done|].
    split; [by apply on_chunk_appended|done].
Qed.

Lemma Append_loop_protocol (w : World) (path : string) (data : list byte)
  (capData : Z) (fuel : nat) :
  len data <= MaxAppendSize ->
  forall start tr tr' r,
    Append_loop fuel w path data capData start tr = (Returns r, tr') ->
    exists evs,
      tr' = tr ++ evs /\
      append_protocol path data start evs
        match r.2 with
        | Some e => (0, Some e)
        | None => (wrap64 (wrap64 (r.1.1 * MaxChunkSize) + r.1.2), None)
        end.
Proof.
  intros Hlen. induction fuel as [|fuel IH]; intros start tr tr' r; [done|].
  simpl. unfold GetChunkHandle. client_step.
  destruct (net w _ _ (MasterGetChunkHandle path start)) as [handle|]; simpl.
  2:{ intros [= <- <-]. eexists. split; [done|]. simpl. constructor. }
  destruct (Append_retry fuel w handle data capData _)
    as [[r1| |] tr1] eqn:Hretry; [|done..].
  destruct (Append_retry_on_chunk _ _ _ _ _ Hlen _ _ _ Hretry)
    as (evs & out & -> & Hon & Hr).
  destruct out as [|off|off]; [done| |]; subst r1; simpl.
  - intros Hrest. destruct (IH _ _ _ _ Hrest) as (rest & -> & Hp).
    exists (Ev (MasterGetChunkHandle path start) (Some handle)
              :: evs ++ rest).
    split; [by rewrite <- !app_assoc|]. by eapply ap_next.
  - intros [= <- <-].
    exists (Ev (MasterGetChunkHandle path start) (Some handle) :: evs).
    split; [by rewrite <- !app_assoc|]. simpl. by apply ap_appended.
Qed.

Lemma Append_returns_protocol (fuel : nat) (w : World) (path : string)
  (data : list byte) (capData : Z) (res : Z * option error)
  (tr : list event) :
  len data <= MaxAppendSize ->
  Append fuel w path data capData [] = (Returns res, tr) ->
  (tr = [Ev (MasterGetFileInfo path) None] /\ res = (0, Some RpcError)) \/
  exists chunks rest,
    tr = Ev (MasterGetFileInfo path) (Some chunks) :: rest /\
    append_protocol path data (Z.max 0 (wrap64 (chunks - 1))) rest res.
Proof.
  unfold Append. intros Hle Hrun.
  destruct (Z.ltb_spec MaxAppendSize (len data)) as [Hgt|_]; [lia|].
  unfold mbind, client_bind, mret, client_ret, Call in Hrun.
  simpl in Hrun.
  destruct (net w _ _ (MasterGetFileInfo path)) as [chunks|].
  2:{ injection Hrun as <- <-. by left. }
  right.
  set (start := if wrap64 (chunks - 1) <? 0 then 0
                else wrap64 (chunks - 1)) in *.
  assert (Hstart : start = Z.max 0 (wrap64 (chunks - 1))).
  { unfold start. destruct (Z.ltb_spec (wrap64 (chunks - 1)) 0); lia. }
  destruct (Append_loop fuel w path data capData start _)
    as [[r| |] tr1] eqn:Hloop; [|done..].
  destruct (Append_loop_protocol _ _ _ _ _ Hle _ _ _ _ Hloop)
    as (rest & -> & Hp).
  exists chunks, rest. rewrite <- Hstart.
  destruct (r.2) eqn:Hr2; injection Hrun as <- <-; by split.
Qed.

Lemma Append_succeeds (fuel : nat) (w : World) (path : string)
  (data : list byte) (capData chunks handle : Z)
  (l : PrimaryAndSecondaries) (id : DataBufferID) (a : AppendChunkReply) :
  len data <= MaxAppendSize ->
  2 <= capData ->
  net w Z 0%nat (MasterGetFileInfo path) = Some chunks ->
  net w Z 1%nat
    (MasterGetChunkHandle path (Z.max 0 (wrap64 (chunks - 1))))
    = Some handle ->
  net w _ 2%nat (MasterGetPrimaryAndSecondaries handle) = Some l ->
  net w _ 3%nat
    (ChunkServerPushDataAndForward (ps_Primary l) handle data
       (ps_Secondaries l)) = Some id ->
  net w _ 4%nat
    (ChunkServerAppendChunk (ps_Primary l)
       (mkAppendChunkArg id (ps_Secondaries l))) = Some a ->
  ar_ErrorCode a <> AppendExceedChunkSize ->
  (Append (S (S fuel)) w path data capData []).1
  = Returns (wrap64 (wrap64 (Z.max 0 (wrap64 (chunks - 1)) * MaxChunkSize)
                     + ar_Offset a), None).
Proof.
  intros Hle Hcap Hinfo Hhandle Hps Hpush Happend Hcode.
  assert (Hstart : (if wrap64 (chunks - 1) <? 0 then 0
                    else wrap64 (chunks - 1))
                   = Z.max 0 (wrap64 (chunks - 1))).
  { destruct (Z.ltb_spec (wrap64 (chunks - 1)) 0); lia. }
  unfold Append.
  destruct (Z.ltb_spec MaxAppendSize (len data)) as [?|_]; [lia|].
  unfold mbind at 1, client_bind at 1, Call at 1. cbn [List.length].
  rewrite Hinfo, Hstart.
  set (start := Z.max 0 (wrap64 (chunks - 1))) in *.
  cbn [Append_loop Append_retry].
  unfold GetChunkHandle, AppendChunk.
  destruct (Z.ltb_spec MaxAppendSize (len data)) as [?|_]; [lia|].
  destruct (Z.ltb_spec capData 2) as [?|_]; [lia|].
  unfold mbind, client_bind, mret, client_ret, Call.
  cbn [List.length app]. rewrite Hhandle. cbn [fst snd List.length app].
  rewrite Hps. cbn [List.length app]. rewrite Hpush.
  cbn [List.length app]. rewrite Happend.
  destruct (decide (ar_ErrorCode a = AppendExceedChunkSize)); [done|].
  reflexivity.
Qed.

(** C4.  [Client.Append] with [len(data)] over [MaxAppendSize] makes no call
    and returns an error.  Otherwise every returning run asks for the file's
    chunk count [chunks] and, when that is answered, follows the append
    protocol from the index [chunks - 1], or 0 when that is negative: the
    attempts go to the chunk of the current index, a failed attempt is
    followed by another on the same chunk, an attempt answered
    [AppendExceedChunkSize] by the resolution of the next index, and an
    attempt answered without it ends the run with the result
    [start * MaxChunkSize + offset] (in 64 bits) for the index [start] then
    current and the [offset] of the answer.  In particular, when the first
    attempt is answered without [AppendExceedChunkSize], [Append] returns
    that offset for the starting index. *)
Theorem Append_follows_protocol (w : World) (path : string)
  (data : list byte) (capData : Z) :
  (MaxAppendSize < len data ->
   forall fuel tr,
     Append fuel w path data capData tr
     = (Returns (0, Some AppendSizeExceeds), tr)) /\
  (len data <= MaxAppendSize ->
   (forall fuel res tr,
      Append fuel w path data capData [] = (Returns res, tr) ->
      (tr = [Ev (MasterGetFileInfo path) None] /\ res = (0, Some RpcError)) \/
      exists chunks rest,
        tr = Ev (MasterGetFileInfo path) (Some chunks) :: rest /\
        append_protocol path data (Z.max 0 (wrap64 (chunks - 1))) rest res)
   /\
   (forall fuel chunks handle l id a,
      2 <= capData ->
      net w Z 0%nat (MasterGetFileInfo path) = Some chunks ->
      net w Z 1%nat
        (MasterGetChunkHandle path (Z.max 0 (wrap64 (chunks - 1))))
        = Some handle ->
      net w _ 2%nat (MasterGetPrimaryAndSecondaries handle) = Some l ->
      net w _ 3%nat
        (ChunkServerPushDataAndForward (ps_Primary l) handle data
           (ps_Secondaries l)) = Some id ->
      net w _ 4%nat
        (ChunkServerAppendChunk (ps_Primary l)
           (mkAppendChunkArg id (ps_Secondaries l))) = Some a ->
      ar_ErrorCode a <> AppendExceedChunkSize ->
      (Append (S (S fuel)) w path data capData []).1
      = Returns
          (wrap64 (wrap64 (Z.max 0 (wrap64 (chunks - 1)) * MaxChunkSize)
                   + ar_Offset a), None))).
Proof.
  split.
  - intros Hgt fuel tr. unfold Append.
    by destruct (Z.ltb_spec MaxAppendSize (len data)) as [_|?]; [|lia].
  - intros Hle. split.
    + intros fuel res tr. by apply Append_returns_protocol.
    + intros fuel chunks handle l id a. by apply Append_succeeds.
Qed.

Lemma extends_ret {A : Type} (a : A) : extends (mret a).
Proof. intros tr. exists []. by rewrite app_nil_r. Qed.

Lemma extends_panic {A : Type} : extends (@panic A).
Proof. intros tr. exists []. by rewrite app_nil_r. Qed.

Lemma extends_out_of_fuel {A : Type} : extends (@out_of_fuel A).
Proof. intros tr. exists []. by rewrite app_nil_r. Qed.

Lemma extends_Call (w : World) {R : Type} (c : rpc R) : extends (Call w c).
Proof. intros tr. by eexists. Qed.

Lemma extends_RandInt (w : World) : extends (RandInt w).
Proof. intros tr. exists []. by rewrite app_nil_r. Qed.

Lemma extends_bind {A B : Type} (m : client A) (f : A -> client B) :
  extends m -> (forall a, extends (f a)) -> extends (m ≫= f).
Proof.
  intros Hm Hf tr. unfold mbind, client_bind.
  destruct (Hm tr) as [evs Hevs].
  destruct (m tr) as [[a| |] tr1]; simpl in *; subst tr1; [|by eauto..].
  destruct (Hf a (tr ++ evs)) as [evs' Hevs'].
  exists (evs ++ evs'). by rewrite Hevs', app_assoc.
Qed.

Ltac extends_tac :=
  repeat first
    [ assumption
    | apply extends_ret
    | apply extends_panic
    | apply extends_out_of_fuel
    | apply extends_Call
    | apply extends_RandInt
    | apply extends_bind; [|intros ?]
    | match goal with
      | |- extends (match ?x with _ => _ end) => destruct x
      end ].

Lemma extends_GetChunkHandle (w : World) (path : string) (index : Z) :
  extends (GetChunkHandle w path index).
Proof. unfold GetChunkHandle. extends_tac. Qed.

Lemma extends_ReadChunk (w : World) (handle offset dataLen : Z) :
  extends (ReadChunk w handle offset dataLen).
Proof. unfold ReadChunk. extends_tac. Qed.

Lemma extends_WriteChunk (w : World) (handle offset : Z)
  (data : list byte) : extends (WriteChunk w handle offset data).
Proof. unfold WriteChunk. extends_tac. Qed.

Lemma extends_Read_retry (fuel : nat) (w : World)
  (handle chunkOffset dataLen : Z) :
  extends (Read_retry fuel w handle chunkOffset dataLen).
Proof.
  induction fuel as [|fuel IH]; simpl; [apply extends_out_of_fuel|].
  pose proof (extends_ReadChunk w handle chunkOffset dataLen).
  extends_tac.
Qed.

Lemma extends_Write_retry (fuel : nat) (w : World) (handle chunkOffset : Z)
  (data : list byte) : extends (Write_retry fuel w handle chunkOffset data).
Proof.
  induction fuel as [|fuel IH]; simpl; [apply extends_out_of_fuel|].
  pose proof (extends_WriteChunk w handle chunkOffset data).
  extends_tac.
Qed.

Lemma extends_Read_loop (fuel : nat) (w : World) (path : string)
  (dataLen : Z) :
  forall offset pos, extends (Read_loop fuel w path offset pos dataLen).
Proof.
  induction fuel as [|fuel IH]; intros offset pos; simpl;
    [apply extends_out_of_fuel|].
  apply extends_bind; [apply extends_GetChunkHandle|intros hr].
  destruct (hr.2); [extends_tac|].
  destruct (decide _); [|extends_tac].
  apply extends_bind; [apply extends_Read_retry|intros r].
  extends_tac. apply IH.
Qed.

Lemma extends_Write_loop (fuel : nat) (w : World) (path : string)
  (data : list byte) :
  forall offset begin, extends (Write_loop fuel w path offset begin data).
Proof.
  induction fuel as [|fuel IH]; intros offset begin; simpl;
    [apply extends_out_of_fuel|].
  apply extends_bind; [apply extends_GetChunkHandle|intros hr].
  destruct (hr.2); [extends_tac|].
  destruct (decide _); [|extends_tac].
  apply extends_bind; [apply extends_Write_retry|intros r].
  extends_tac. apply IH.
Qed.

Lemma bind_GetChunkHandle_first {B : Type} (w : World) (path : string)
  (index : Z) (k : Z * option error -> client B) (tr : list event) :
  (forall a, extends (k a)) ->
  exists x reply rest,
    (GetChunkHandle w path index ≫= k) tr
      = (x, tr ++ Ev (MasterGetChunkHandle path index) reply :: rest).
Proof.
  intros Hk. unfold GetChunkHandle.
  unfold mbind, client_bind, Call, mret, client_ret.
  destruct (net w Z (List.length tr) (MasterGetChunkHandle path index))
    as [h|] eqn:E.
  - destruct (Hk (h, None) (tr ++ [Ev (MasterGetChunkHandle path index)
                                      (Some h)])) as [evs Hevs].
    destruct (k (h, None) _) as [x tr2]. simpl in Hevs. subst tr2.
    exists x, (Some h), evs. by rewrite <- app_assoc.
  - destruct (Hk (0, Some RpcError)
                (tr ++ [Ev (MasterGetChunkHandle path index) None]))
      as [evs Hevs].
    destruct (k (0, Some RpcError) _) as [x tr2]. simpl in Hevs. subst tr2.
    exists x, None, evs. by rewrite <- app_assoc.
Qed.

Lemma quot_exceeds_iff (offset chunks : Z) :
  0 < MaxChunkSize -> 0 <= chunks ->
  (chunks < Z.quot offset MaxChunkSize <-> chunks < offset / MaxChunkSize).
Proof.
  intros Hmax Hchunks.
  destruct (Z.le_gt_cases 0 offset) as [Hpos|Hneg].
  - by rewrite Z.quot_div_nonneg by lia.
  - assert (Z.quot offset MaxChunkSize = - Z.quot (- offset) MaxChunkSize)
      by (rewrite Z.quot_opp_l by lia; lia).
    pose proof (Z.quot_pos (- offset) MaxChunkSize ltac:(lia) Hmax).
    assert (offset / MaxChunkSize < 0) by (apply Z.div_lt_upper_bound; lia).
    lia.
Qed.

(** C10.  With a positive [MaxChunkSize] and a file of [chunks >= 0]
    chunks, [Read] and [Write] return their offset error, after the one call
    for the file's information, when [floor(offset / MaxChunkSize)] is
    above [chunks]; in every other case, so also for each offset whose chunk
    index is [chunks] itself, their next call resolves the chunk of that
    index. *)
Theorem offset_check_admits_next_chunk (fuel : nat) (w : World)
  (path : string) (offset dataLen : Z) (data : list byte) (chunks : Z) :
  0 < MaxChunkSize ->
  0 <= chunks ->
  net w Z 0%nat (MasterGetFileInfo path) = Some chunks ->
  (chunks < offset / MaxChunkSize ->
   Read fuel w path offset dataLen []
     = (Returns (-1, Some ReadOffsetExceeds),
        [Ev (MasterGetFileInfo path) (Some chunks)]) /\
   Write fuel w path offset data []
     = (Returns (Some WriteOffsetExceeds),
        [Ev (MasterGetFileInfo path) (Some chunks)])) /\
  (offset / MaxChunkSize <= chunks ->
   exists xr rr restr xw rw restw,
     Read (S fuel) w path offset dataLen []
       = (xr, Ev (MasterGetFileInfo path) (Some chunks)
              :: Ev (MasterGetChunkHandle path (Z.quot offset MaxChunkSize))
                   rr
              :: restr) /\
     Write (S fuel) w path offset data []
       = (xw, Ev (MasterGetFileInfo path) (Some chunks)
              :: Ev (MasterGetChunkHandle path (Z.quot offset MaxChunkSize))
                   rw
              :: restw)).
Proof.
  intros Hmax Hchunks Hinfo.
  pose proof (quot_exceeds_iff offset chunks Hmax Hchunks) as Hq.
  split.
  - intros Hgt. apply Hq in Hgt.
    unfold Read, Write. client_step. rewrite Hinfo.
    destruct (Z.ltb_spec chunks (Z.quot offset MaxChunkSize)); [done|lia].
  - intros Hle.
    assert (~ chunks < Z.quot offset MaxChunkSize) as Hnq by (rewrite Hq; lia).
    set (tr1 := [Ev (MasterGetFileInfo path) (Some chunks)]).
    set (idx := Z.quot offset MaxChunkSize) in *.
    assert (Hr : exists xr rr restr,
      Read_loop (S fuel) w path offset 0 dataLen tr1
        = (xr, tr1 ++ Ev (MasterGetChunkHandle path idx) rr :: restr)).
    { cbn [Read_loop]. fold idx.
      apply bind_GetChunkHandle_first. intros hr.
      destruct (hr.2); [extends_tac|].
      destruct (decide _); [|extends_tac].
      apply extends_bind; [apply extends_Read_retry|intros r].
      extends_tac. apply extends_Read_loop. }
    assert (Hw : exists xw rw restw,
      Write_loop (S fuel) w path offset 0 data tr1
        = (xw, tr1 ++ Ev (MasterGetChunkHandle path idx) rw :: restw)).
    { cbn [Write_loop]. fold idx.
      apply bind_GetChunkHandle_first. intros hr.
      destruct (hr.2); [extends_tac|].
      destruct (decide _); [|extends_tac].
      apply extends_bind; [apply extends_Write_retry|intros r].
      extends_tac. apply extends_Write_loop. }
    destruct Hr as (xr & rr & restr & Hr).
    destruct Hw as (xw & rw & restw & Hw).
    exists xr, rr, restr, xw, rw, restw.
    unfold Read, Write, mbind, client_bind, Call.
    cbn [List.length app]. rewrite Hinfo. fold idx.
    destruct (Z.ltb_spec chunks idx); [lia|].
    fold tr1. by rewrite Hr, Hw.
Qed.

(** *** The size checks of a write *)

Lemma doMutation_loop_next (fuel : nat) (cs : ChunkServer) (h : Z)
  (io : list io_outcome) (ck : chunkInfo) (v : Mutation)
  (cs1 : ChunkServer) :
  chunk cs !! h = Some ck ->
  ck_mutations ck !! wrap64 (ck_version ck + 1) = Some v ->
  write_of cs h v (hd IoOk io) = Returns (cs1, None) ->
  doMutation_loop (S fuel) cs h io
  = doMutation_loop fuel (delete_mutation cs1 h (m_version v)) h (tl io).
Proof.
  intros Hck Hv Hw. cbn [doMutation_loop]. rewrite Hck, Hv.
  unfold write_of in Hw.
  destruct (decide (m_mtype v = MutationPad)); by rewrite Hw.
Qed.

Lemma doMutation_loop_break (fuel : nat) (cs : ChunkServer) (h : Z)
  (io : list io_outcome) (ck : chunkInfo) :
  chunk cs !! h = Some ck ->
  ck_mutations ck !! wrap64 (ck_version ck + 1) = None ->
  doMutation_loop (S fuel) cs h io = Returns (cs, None).
Proof. intros Hck Hv. cbn [doMutation_loop]. by rewrite Hck, Hv. Qed.

Lemma write_of_ok (cs : ChunkServer) (h : Z) (ck : chunkInfo)
  (v : Mutation) :
  chunk cs !! h = Some ck ->
  m_mtype v <> MutationPad ->
  0 <= m_offset v ->
  exists cs1,
    write_of cs h v IoOk = Returns (cs1, None) /\
    disk cs1 !! h
      = Some (write_at (open_create (disk cs) h) (m_offset v) (m_data v)).
Proof.
  intros Hck Hpad Hoff. unfold write_of, writeChunk. rewrite Hck.
  destruct (decide (m_mtype v = MutationPad)); [done|].
  destruct (Z.ltb_spec (m_offset v) 0) as [?|_]; [lia|].
  eexists. split; [reflexivity|]. simpl. by rewrite lookup_insert_eq.
Qed.

Lemma RPCWriteChunk_quiescent_succeeds (fuel : nat) (cs : ChunkServer)
  (id : DataBufferID) (offset : Z) (secs : list string) (data : list byte)
  (ck : chunkInfo) :
  wrap64 (offset + len data) <= MaxChunkSize ->
  0 <= offset ->
  dl cs !! id = Some data ->
  chunk cs !! Handle id = Some ck ->
  ck_mutations ck = ∅ ->
  ck_newestVersion ck = ck_version ck ->
  - 2 ^ 63 <= ck_version ck < 2 ^ 63 - 2 ->
  exists cs' ck',
    RPCWriteChunk (S (S fuel)) cs (mkWriteChunkArg id offset secs) []
      (fun _ => None) = Returns (cs', None) /\
    chunk cs' !! Handle id = Some ck' /\
    ck_version ck' = ck_version ck + 1 /\
    ck_newestVersion ck' = ck_version ck + 1 /\
    ck_mutations ck' = ∅ /\
    ck_length ck' = Z.max (ck_length ck) (wrap64 (offset + len data)) /\
    disk cs' !! Handle id
      = Some (write_at (open_create (disk cs) (Handle id)) offset data) /\
    Handle id ∈ pendingLeaseExtensions cs'.
Proof.
  intros Hsize Hoff Hdl Hck Hempty Hnew Hver.
  set (h := Handle id) in *. set (v := ck_version ck + 1).
  set (newLen := wrap64 (offset + len data)) in *.
  set (len1 := if ck_length ck <? newLen then newLen else ck_length ck).
  assert (Hlen1 : len1 = Z.max (ck_length ck) newLen).
  { unfold len1. destruct (Z.ltb_spec (ck_length ck) newLen); lia. }
  assert (Hwv : wrap64 (ck_version ck + 1) = v)
    by (apply wrap64_id; unfold int64; lia).
  assert (Hwv2 : wrap64 (v + 1) = v + 1)
    by (apply wrap64_id; unfold int64, v; lia).
  set (m := mkMutation MutationWrite v data offset).
  set (ck1 := mkChunkInfo len1 (ck_version ck) v (<[v := m]> ∅)).
  assert (Hlocked : RPCWriteChunk_locked ck newLen data offset = (ck1, Ok v)).
  { unfold RPCWriteChunk_locked, nextVersion. simpl.
    by rewrite Hnew, Hwv, Hempty, lookup_empty. }
  set (cs0 := set_dl cs (delete id (dl cs))).
  set (cs1 := set_chunk cs0 h ck1).
  assert (Hck1 : chunk cs1 !! h = Some ck1) by apply lookup_insert_eq.
  destruct (write_of_ok cs1 h ck1 m Hck1) as (cs2 & Hw & Hdisk);
    [done|done|].
  destruct (write_of_returns _ _ _ _ _ _ _ Hck1 Hw) as (Hc2 & _ & _ & Hp2).
  set (cs3 := delete_mutation cs2 h (m_version m)) in *.
  set (ck2 := applied ck1 m) in *.
  assert (Hck2 : chunk cs3 !! h = Some ck2)
    by (rewrite Hc2; apply lookup_insert_eq).
  assert (Hms2 : ck_mutations ck2 = ∅).
  { unfold ck2, applied. simpl. by rewrite delete_insert_eq, delete_empty. }
  assert (Hloop : doMutation_loop (S (S fuel)) cs1 h [] = Returns (cs3, None)).
  { rewrite (doMutation_loop_next _ _ _ _ ck1 m cs2); [|done| |done].
    - apply (doMutation_loop_break _ _ _ _ ck2); [done|].
      by rewrite Hms2, lookup_empty.
    - simpl. rewrite Hwv. apply lookup_insert_eq. }
  assert (Hdrain : doMutation (S (S fuel)) cs1 h []
                   = Returns (set_chunk cs3 h (resync ck2), None)).
  { unfold doMutation. rewrite Hck1, Hloop. simpl. by rewrite Hck2. }
  exists (add_pending (set_chunk cs3 h (resync ck2)) h), (resync ck2).
  split.
  { unfold RPCWriteChunk. cbn [wc_DataID wc_Offset].
    rewrite (deleteDownloadedData_present _ _ _ Hdl).
    fold newLen h cs0.
    destruct (Z.ltb_spec MaxChunkSize newLen) as [?|_]; [lia|].
    change (chunk cs0 !! h) with (chunk cs !! h). rewrite Hck, Hlocked.
    fold cs1. by rewrite Hdrain. }
  destruct (resync_fields ck2) as (Rv & Rl & Rm & Re & _).
  simpl. rewrite lookup_insert_eq, Rv, Rl, Rm, (Re Hms2).
  split; [done|]. split; [done|]. split; [done|]. split; [done|].
  split; [|split].
  - unfold ck2, applied. simpl. fold newLen. unfold len1.
    destruct (Z.ltb_spec (ck_length ck) newLen);
      match goal with
      | |- context [?a <? ?b] => destruct (Z.ltb_spec a b)
      end; lia.
  - unfold cs3, delete_mutation.
    destruct (chunk cs2 !! h); simpl; exact Hdisk.
  - apply elem_of_union. left. by apply elem_of_singleton.
Qed.

Lemma write_of_error (cs : ChunkServer) (h : Z) (v : Mutation)
  (o : io_outcome) (cs1 : ChunkServer) (e : error) :
  write_of cs h v o = Returns (cs1, Some e) -> e = OsError.
Proof.
  unfold write_of, writeChunk.
  destruct (chunk cs !! h); [|by destruct (decide _)].
  destruct (decide _); destruct o;
    repeat match goal with
           | |- context [if ?a <? 0 then _ else _] => destruct (a <? 0)
           end; by intros [= <- <-].
Qed.

Lemma drains_returns_os_error (h : Z) (cs : ChunkServer) (io : list io_outcome)
  (cs' : ChunkServer) (err : option error) :
  drains h cs io cs' err -> err = None \/ err = Some OsError.
Proof.
  induction 1 as [cs io ck0 Hck0 Hnone
                 |cs io ck0 v cs1 e Hck0 Hv Hw
                 |cs io ck0 v cs1 cs' err Hck0 Hv Hw Hd IH];
    [by left| |done].
  right. f_equal. by eapply write_of_error.
Qed.

(** C6.  For a [MaxChunkSize] that leaves room for one more in 64 bits.  A
    write with [offset + len(data) = MaxChunkSize] passes both checks: the
    client's [WriteChunk] goes on to ask for the primary, and returns no
    error when its three calls are answered; the primary's [RPCWriteChunk]
    does not return its size error (unless a secondary hands it one), and
    it returns no error on a chunk with no pending mutation when the disk
    and the secondaries raise none.  A write with
    [offset + len(data) = MaxChunkSize + 1] is refused by both: the client
    returns its size error without a call, the primary its own after it has
    consumed the staged data. *)
Theorem write_boundary (offset : Z) (data : list byte) :
  - 2 ^ 63 <= MaxChunkSize < 2 ^ 63 - 1 ->
  (offset + len data = MaxChunkSize ->
   (forall w handle tr,
      exists x reply rest,
        WriteChunk w handle offset data tr
        = (x, tr ++ Ev (MasterGetPrimaryAndSecondaries handle) reply
                 :: rest)) /\
   (forall w handle tr l id,
      net w _ (List.length tr) (MasterGetPrimaryAndSecondaries handle)
        = Some l ->
      net w _ (S (List.length tr))
        (ChunkServerPushDataAndForward (ps_Primary l) handle data
           (ps_Secondaries l)) = Some id ->
      net w _ (S (S (List.length tr)))
        (ChunkServerWriteChunk (ps_Primary l)
           (mkWriteChunkArg id offset (ps_Secondaries l))) = Some tt ->
      (WriteChunk w handle offset data tr).1 = Returns None) /\
   (forall fuel cs id secs io callAll cs' err,
      dl cs !! id = Some data ->
      (forall a, callAll a <> Some WriteTooLarge) ->
      RPCWriteChunk fuel cs (mkWriteChunkArg id offset secs) io callAll
        = Returns (cs', err) ->
      err <> Some WriteTooLarge) /\
   (forall fuel cs id secs ck,
      0 <= offset ->
      dl cs !! id = Some data ->
      chunk cs !! Handle id = Some ck ->
      ck_mutations ck = ∅ ->
      ck_newestVersion ck = ck_version ck ->
      - 2 ^ 63 <= ck_version ck < 2 ^ 63 - 2 ->
      exists cs',
        RPCWriteChunk (S (S fuel)) cs (mkWriteChunkArg id offset secs) []
          (fun _ => None) = Returns (cs', None) /\
        disk cs' !! Handle id
          = Some (write_at (open_create (disk cs) (Handle id)) offset
                    data))) /\
  (offset + len data = MaxChunkSize + 1 ->
   (forall w handle tr,
      WriteChunk w handle offset data tr
      = (Returns (Some WriteChunkSizeExceeds), tr)) /\
   (forall fuel cs id secs io callAll,
      dl cs !! id = Some data ->
      RPCWriteChunk fuel cs (mkWriteChunkArg id offset secs) io callAll
      = Returns (set_dl cs (delete id (dl cs)), Some WriteTooLarge))).
Proof.
  intros Hmax. split.
  - intros Hsum.
    assert (Hw1 : wrap64 (len data + offset) = MaxChunkSize)
      by (rewrite wrap64_id; unfold int64; lia).
    assert (Hw2 : wrap64 (offset + len data) = MaxChunkSize)
      by (rewrite wrap64_id; unfold int64; lia).
    split; [|split; [|split]].
    + intros w handle tr. unfold WriteChunk. rewrite Hw1.
      destruct (Z.ltb_spec MaxChunkSize MaxChunkSize) as [?|_]; [lia|].
      match goal with
      | |- context [Call w ?c ≫= ?k] =>
          assert (forall a, extends (k a)) as Hk by (intros a; extends_tac);
          unfold mbind at 1, client_bind at 1, Call at 1;
          set (reply := net w _ (List.length tr) c);
          destruct (Hk reply (tr ++ [Ev c reply])) as [evs Hevs];
          destruct (k reply (tr ++ [Ev c reply])) as [x tr2]
      end.
      simpl in Hevs. subst tr2. exists x, reply, evs.
      by rewrite <- app_assoc.
    + intros w handle tr l id H1 H2 H3. unfold WriteChunk. rewrite Hw1.
      destruct (Z.ltb_spec MaxChunkSize MaxChunkSize) as [?|_]; [lia|].
      unfold mbind, client_bind, Call. rewrite H1.
      rewrite length_app. simpl.
      replace (List.length tr + 1)%nat with (S (List.length tr)) by lia.
      rewrite H2. rewrite !length_app. simpl.
      replace (List.length tr + 1 + 1)%nat with (S (S (List.length tr)))
        by lia.
      by rewrite H3.
    + intros fuel cs id secs io callAll cs' err Hdl Hcall.
      unfold RPCWriteChunk. cbn [wc_DataID wc_Offset].
      rewrite (deleteDownloadedData_present _ _ _ Hdl), Hw2.
      destruct (Z.ltb_spec MaxChunkSize MaxChunkSize) as [?|_]; [lia|].
      destruct (chunk _ !! _) as [ck|]; [|by intros [= <- <-]].
      destruct (RPCWriteChunk_locked _ _ _ _) as [ck1 [v|e]] eqn:Hl.
      2:{ intros [= <- <-]. unfold RPCWriteChunk_locked in Hl.
          destruct (nextVersion _) as [ck2 v2].
          destruct (ck_mutations ck2 !! v2); [|done].
          by injection Hl as _ <-. }
      destruct (doMutation _ _ _ _) as [[cs3 [e|]]| |] eqn:Hd; simpl;
        try done.
      * intros [= <- <-].
        destruct (doMutation_drains _ _ _ _ _ _ Hd) as (? & ? & Hdr & _).
        by destruct (drains_returns_os_error _ _ _ _ _ Hdr) as [?|[= ->]].
      * destruct (callAll _) eqn:Hc; intros [= <- <-]; [|done].
        rewrite <- Hc. apply Hcall.
    + intros fuel cs id secs ck Hoff Hdl Hck Hempty Hnew Hver.
      destruct (RPCWriteChunk_quiescent_succeeds fuel cs id offset secs data
                  ck) as (cs' & ck' & Hrun & _ & _ & _ & _ & _ & Hdisk & _);
        try done; [lia|].
      by exists cs'.
  - intros Hsum.
    assert (Hw1 : wrap64 (len data + offset) = MaxChunkSize + 1)
      by (rewrite wrap64_id; unfold int64; lia).
    assert (Hw2 : wrap64 (offset + len data) = MaxChunkSize + 1)
      by (rewrite wrap64_id; unfold int64; lia).
    split.
    + intros w handle tr. unfold WriteChunk. rewrite Hw1.
      by destruct (Z.ltb_spec MaxChunkSize (MaxChunkSize + 1)) as [_|?];
        [|lia].
    + intros fuel cs id secs io callAll Hdl. unfold RPCWriteChunk.
      cbn [wc_DataID wc_Offset].
      rewrite (deleteDownloadedData_present _ _ _ Hdl), Hw2.
      by destruct (Z.ltb_spec MaxChunkSize (MaxChunkSize + 1)) as [_|?];
        [|lia].
Qed.

(** *** The chunk-server manager: heartbeats and dead servers *)

Lemma DetectDeadServers_filter (order : list (string * chunkServerInfo))
  (now : Z) :
  DetectDeadServers order now
  = (filter (fun kv => lastHeartbeat kv.2 + ServerTimeout < now) order).*1.
Proof.
  unfold DetectDeadServers.
  assert (Hgen : forall acc,
            foldl (fun ret kv =>
                     if bool_decide (lastHeartbeat kv.2 + ServerTimeout < now)
                     then ret ++ [kv.1] else ret) acc order
            = acc ++ (filter (fun kv => lastHeartbeat kv.2 + ServerTimeout
                                        < now) order).*1).
  { induction order as [|kv order IH]; intros acc; simpl.
    - by rewrite app_nil_r.
    - rewrite IH, filter_cons. case_bool_decide as Hd.
      + rewrite decide_True by done. simpl. by rewrite <- app_assoc.
      + by rewrite decide_False by done. }
  apply Hgen.
Qed.

Lemma DetectDeadServers_elem (servers : gmap string chunkServerInfo)
  (order : list (string * chunkServerInfo)) (now : Z) (a : string) :
  order ≡ₚ map_to_list servers ->
  a ∈ DetectDeadServers order now
  <-> exists sv, servers !! a = Some sv /\
                 lastHeartbeat sv + ServerTimeout < now.
Proof.
  intros Hp. rewrite DetectDeadServers_filter, list_elem_of_fmap. split.
  - intros ([a' sv] & -> & Hin). apply list_elem_of_filter in Hin.
    destruct Hin as [Hdead Hin]. rewrite Hp in Hin.
    apply elem_of_map_to_list in Hin. by exists sv.
  - intros (sv & Hsv & Hdead). exists (a, sv). split; [done|].
    apply list_elem_of_filter. split; [done|].
    rewrite Hp. by apply elem_of_map_to_list.
Qed.

(** X1.  [DetectDeadServers] returns, each once and whatever the order in
    which the map is visited, exactly the registered servers whose last
    heartbeat is more than [ServerTimeout] before [now]; a server whose
    heartbeat is [ServerTimeout] old to the tick is not among them. *)
Theorem DetectDeadServers_exactly_expired
  (servers : gmap string chunkServerInfo)
  (order : list (string * chunkServerInfo)) (now : Z) :
  order ≡ₚ map_to_list servers ->
  NoDup (DetectDeadServers order now) /\
  (forall a, a ∈ DetectDeadServers order now
             <-> exists sv, servers !! a = Some sv /\
                            lastHeartbeat sv + ServerTimeout < now) /\
  (forall a sv, servers !! a = Some sv ->
                lastHeartbeat sv + ServerTimeout = now ->
                a ∉ DetectDeadServers order now).
Proof.
  intros Hp. split; [|split].
  - rewrite DetectDeadServers_filter.
    apply (sublist_NoDup _ order.*1).
    + rewrite Hp. apply NoDup_fst_map_to_list.
    + apply fmap_sublist, sublist_filter.
  - intros a. by apply DetectDeadServers_elem.
  - intros a sv Hsv Hnow Hin.
    apply (DetectDeadServers_elem servers) in Hin; [|done].
    destruct Hin as (sv' & Hsv' & Hdead).
    rewrite Hsv in Hsv'. injection Hsv' as <-. lia.
Qed.

(** X2.  [Heartbeat] registers the server or refreshes its time stamp: it
    keeps the chunks of a server that is registered already and leaves the
    other servers as they are.  After it, [DetectDeadServers] does not
    report the server until more than [ServerTimeout] has passed, and
    reports every other server as it did before. *)
Theorem Heartbeat_keeps_server_alive
  (servers : gmap string chunkServerInfo) (addr : string) (t : Z)
  (order : list (string * chunkServerInfo)) (now : Z) :
  order ≡ₚ map_to_list (Heartbeat servers addr t) ->
  now <= t + ServerTimeout ->
  (exists sv', Heartbeat servers addr t !! addr = Some sv' /\
               lastHeartbeat sv' = t /\
               chunks sv' = match servers !! addr with
                            | Some sv => chunks sv
                            | None => ∅
                            end) /\
  (forall a, a <> addr -> Heartbeat servers addr t !! a = servers !! a) /\
  (addr ∉ DetectDeadServers order now) /\
  (forall a, a <> addr ->
             (a ∈ DetectDeadServers order now
              <-> exists sv, servers !! a = Some sv /\
                             lastHeartbeat sv + ServerTimeout < now)).
Proof.
  intros Hp Hnow.
  assert (Hself : exists sv', Heartbeat servers addr t !! addr = Some sv' /\
                    lastHeartbeat sv' = t /\
                    chunks sv' = match servers !! addr with
                                 | Some sv => chunks sv
                                 | None => ∅
                                 end).
  { unfold Heartbeat. destruct (servers !! addr) as [sv|];
      rewrite lookup_insert_eq; by eexists. }
  assert (Hother : forall a, a <> addr ->
                     Heartbeat servers addr t !! a = servers !! a).
  { intros a Ha. unfold Heartbeat.
    destruct (servers !! addr); by rewrite lookup_insert_ne. }
  split; [exact Hself|]. split; [exact Hother|]. split.
  - intros Hin. apply (DetectDeadServers_elem _ _ _ _ Hp) in Hin.
    destruct Hin as (sv & Hsv & Hdead).
    destruct Hself as (sv' & Hsv' & Ht & _).
    rewrite Hsv in Hsv'. injection Hsv' as <-. lia.
  - intros a Ha. rewrite (DetectDeadServers_elem _ _ _ _ Hp).
    by rewrite (Hother a Ha).
Qed.

(** *** The chunk-server manager: chunks of the servers *)

Lemma omap_id_nil (calls : list (option error)) :
  omap id calls = [] <-> Forall (fun c => c = None) calls.
Proof.
  induction calls as [|[e|] calls IH]; simpl.
  - split; [constructor | done].
  - split; [done | by inversion 1].
  - rewrite IH. split; [by constructor | by inversion 1].
Qed.

Lemma AddChunk_loop_returns (handle : Z) (addrs : list string) :
  forall servers calls errList,
    (forall a, a ∈ addrs -> is_Some (servers !! a)) ->
    exists servers',
      AddChunk_loop servers addrs handle calls errList
        = Returns (servers',
                   errList ++ omap id (take (List.length addrs) calls)) /\
      forall a, servers' !! a
                = if decide (a ∈ addrs)
                  then with_chunk handle <$> servers !! a
                  else servers !! a.
Proof.
  induction addrs as [|v addrs IH]; intros servers calls errList Hreg.
  - exists servers. simpl. rewrite app_nil_r. split; [done|].
    intros a. destruct (decide (a ∈ [])) as [Hin|_]; [|done].
    by apply elem_of_nil in Hin.
  - destruct (Hreg v) as [sv Hsv]; [by left|].
    cbn [AddChunk_loop]. rewrite Hsv.
    set (servers1 := <[v := _]> servers).
    destruct (IH servers1 (tl calls)
                match hd None calls with
                | Some e => errList ++ [e]
                | None => errList
                end) as (servers' & Hrun & Hlook).
    { intros a Ha. unfold servers1. apply lookup_insert_is_Some'.
      right. apply Hreg. by right. }
    exists servers'. split.
    + rewrite Hrun. f_equal. f_equal.
      destruct calls as [|[e|] calls]; simpl;
        rewrite ?take_nil, <- ?app_assoc; done.
    + intros a. rewrite Hlook. unfold servers1.
      destruct (decide (a = v)) as [->|Hne].
      * rewrite lookup_insert_eq, Hsv.
        rewrite (decide_True (P := v ∈ v :: addrs)) by by left.
        destruct (decide (v ∈ addrs)); [|done].
        simpl. unfold with_chunk. simpl. by rewrite insert_insert_eq.
      * rewrite lookup_insert_ne by done.
        destruct (decide (a ∈ addrs)) as [Hin|Hnin].
        -- rewrite decide_True; [done | by right].
        -- rewrite decide_False; [done|].
           intros Hin. apply elem_of_cons in Hin. tauto.
Qed.

Lemma AddChunk_loop_panics (handle : Z) (addrs : list string) :
  forall servers calls errList a,
    a ∈ addrs -> servers !! a = None ->
    AddChunk_loop servers addrs handle calls errList = Panics.
Proof.
  induction addrs as [|v addrs IH]; intros servers calls errList a Hin Ha.
  - by apply elem_of_nil in Hin.
  - cbn [AddChunk_loop]. destruct (servers !! v) as [sv|] eqn:Hsv; [|done].
    apply elem_of_cons in Hin. destruct Hin as [->|Hin]; [congruence|].
    apply (IH _ _ _ a Hin).
    rewrite lookup_insert_ne; [done | congruence].
Qed.

(** X3.  [AddChunk] on addresses that are all registered returns, and has
    then recorded the handle on every one of them, also on those whose
    [RPCCreateChunk] failed; it keeps their time stamps and other chunks and
    leaves the other servers as they are; its error is nil exactly when
    every call succeeded.  An address that is not registered makes it
    panic. *)
Theorem AddChunk_records_on_every_server
  (servers : gmap string chunkServerInfo) (addrs : list string)
  (handle : Z) (calls : list (option error)) :
  ((forall a, a ∈ addrs -> is_Some (servers !! a)) ->
   exists servers' err,
     AddChunk servers addrs handle calls = Returns (servers', err) /\
     (forall a sv,
        a ∈ addrs -> servers !! a = Some sv ->
        servers' !! a
          = Some (mkChunkServerInfo (lastHeartbeat sv)
                    (<[handle := true]> (chunks sv)))) /\
     (forall a, a ∉ addrs -> servers' !! a = servers !! a) /\
     (err = None
      <-> Forall (fun c => c = None) (take (List.length addrs) calls))) /\
  (forall a, a ∈ addrs -> servers !! a = None ->
             AddChunk servers addrs handle calls = Panics).
Proof.
  split.
  - intros Hreg.
    destruct (AddChunk_loop_returns handle addrs servers calls [] Hreg)
      as (servers' & Hrun & Hlook).
    unfold AddChunk. rewrite Hrun. simpl.
    eexists _, _. split; [reflexivity|]. split; [|split].
    + intros a sv Hin Hsv. rewrite Hlook, decide_True, Hsv by done. done.
    + intros a Hnin. by rewrite Hlook, decide_False.
    + rewrite <- omap_id_nil.
      destruct (omap id (take (List.length addrs) calls)); split; done.
  - intros a Hin Ha. unfold AddChunk.
    by rewrite (AddChunk_loop_panics handle addrs servers calls [] a Hin Ha).
Qed.

Lemma RemoveServer_handles (order : list (Z * bool)) :
  foldl (fun handles hv => if hv.2 : bool then handles ++ [hv.1]
                           else handles) [] order
  = (filter (fun hv => hv.2 = true) order).*1.
Proof.
  assert (Hgen : forall acc,
            foldl (fun handles hv => if hv.2 : bool then handles ++ [hv.1]
                                     else handles) acc order
            = acc ++ (filter (fun hv => hv.2 = true) order).*1).
  { induction order as [|[h b] order IH]; intros acc; simpl.
    - by rewrite app_nil_r.
    - rewrite IH, filter_cons. simpl. destruct b.
      + rewrite decide_True by done. simpl. by rewrite <- app_assoc.
      + by rewrite decide_False by done. }
  apply Hgen.
Qed.

Lemma RemoveServer_registered (servers : gmap string chunkServerInfo)
  (addr : string) (order : list (Z * bool)) (sv : chunkServerInfo) :
  servers !! addr = Some sv ->
  order ≡ₚ map_to_list (chunks sv) ->
  exists handles,
    RemoveServer servers addr order = (delete addr servers, handles, None) /\
    NoDup handles /\
    forall h, h ∈ handles <-> chunks sv !! h = Some true.
Proof.
  intros Hsv Hp. unfold RemoveServer. rewrite Hsv, RemoveServer_handles.
  eexists. split; [reflexivity|]. split.
  - apply (sublist_NoDup _ order.*1).
    + rewrite Hp. apply NoDup_fst_map_to_list.
    + apply fmap_sublist, sublist_filter.
  - intros h. rewrite list_elem_of_fmap. split.
    + intros ([h' b] & -> & Hin). apply list_elem_of_filter in Hin.
      destruct Hin as [Hb Hin]. simpl in Hb. subst b.
      rewrite Hp in Hin. by apply elem_of_map_to_list in Hin.
    + intros Hh. exists (h, true). split; [done|].
      apply list_elem_of_filter. split; [done|].
      rewrite Hp. by apply elem_of_map_to_list.
Qed.

(** X4.  [RemoveServer] of a registered server takes it out of the map and
    returns, each once and whatever the order in which its chunks are
    visited, exactly the handles recorded as [true] for it; the other
    servers stay as they are and a second removal fails.  For an address
    that is not registered it fails and changes nothing. *)
Theorem RemoveServer_returns_held_chunks
  (servers : gmap string chunkServerInfo) (addr : string)
  (order : list (Z * bool)) :
  (servers !! addr = None ->
   RemoveServer servers addr order = (servers, [], Some ServerNotFound)) /\
  (forall sv,
     servers !! addr = Some sv ->
     order ≡ₚ map_to_list (chunks sv) ->
     exists servers' handles,
       RemoveServer servers addr order = (servers', handles, None) /\
       servers' !! addr = None /\
       (forall a, a <> addr -> servers' !! a = servers !! a) /\
       NoDup handles /\
       (forall h, h ∈ handles <-> chunks sv !! h = Some true) /\
       (forall order',
          RemoveServer servers' addr order'
          = (servers', [], Some ServerNotFound))).
Proof.
  split.
  - intros Hnone. unfold RemoveServer. by rewrite Hnone.
  - intros sv Hsv Hp.
    destruct (RemoveServer_registered servers addr order sv Hsv Hp)
      as (handles & Hrun & Hnd & Hin).
    exists (delete addr servers), handles.
    split; [exact Hrun|]. split; [apply lookup_delete_eq|].
    split; [intros a Ha; by apply lookup_delete_ne|].
    split; [exact Hnd|]. split; [exact Hin|].
    intros order'. unfold RemoveServer. by rewrite lookup_delete_eq.
Qed.

(** X5.  A handle that [AddChunk] has recorded for a server is among the
    handles that [RemoveServer] returns for this server. *)
Theorem AddChunk_then_RemoveServer
  (servers servers' : gmap string chunkServerInfo) (addrs : list string)
  (handle : Z) (calls : list (option error)) (err : option (list error))
  (a : string) (sv' : chunkServerInfo) (order : list (Z * bool)) :
  AddChunk servers addrs handle calls = Returns (servers', err) ->
  a ∈ addrs ->
  servers' !! a = Some sv' ->
  order ≡ₚ map_to_list (chunks sv') ->
  exists handles,
    RemoveServer servers' a order = (delete a servers', handles, None) /\
    handle ∈ handles.
Proof.
  intros Hadd Hin Hsv' Hp.
  assert (Hreg : forall b, b ∈ addrs -> is_Some (servers !! b)).
  { intros b Hb. destruct (servers !! b) as [sv|] eqn:Hsv; [by eexists|].
    unfold AddChunk in Hadd.
    by rewrite (AddChunk_loop_panics handle addrs servers calls [] b Hb Hsv)
      in Hadd. }
  destruct (AddChunk_loop_returns handle addrs servers calls [] Hreg)
    as (servers'' & Hrun & Hlook).
  unfold AddChunk in Hadd. rewrite Hrun in Hadd. simpl in Hadd.
  injection Hadd as <- _.
  destruct (Hreg a Hin) as [sv Hsv].
  rewrite Hlook, decide_True, Hsv in Hsv' by done.
  simpl in Hsv'. injection Hsv' as <-.
  destruct (RemoveServer_registered servers'' a order _
              ltac:(by rewrite Hlook, decide_True, Hsv) Hp)
    as (handles & Hrm & _ & Hh).
  exists handles. split; [exact Hrm|].
  apply Hh. simpl. apply lookup_insert_eq.
Qed.

Lemma ChooseReReplication_loop_spec (handle : Z)
  (order : list (string * chunkServerInfo)) :
  forall from to,
    (forall a v, (a, v) ∈ order -> a <> EmptyString) ->
    ~ (from <> EmptyString /\ to <> EmptyString) ->
    exists f t err,
      ChooseReReplication_loop order handle from to = (f, t, err) /\
      (err = None ->
       f <> EmptyString /\ t <> EmptyString /\
       (f = from \/ exists v, (f, v) ∈ order /\ holds v handle = true) /\
       (t = to \/ exists v, (t, v) ∈ order /\ holds v handle = false)) /\
      (err <> None ->
       err = Some NoCandidates /\
       ((from = EmptyString /\
         forall a v, (a, v) ∈ order -> holds v handle = false) \/
        (to = EmptyString /\
         forall a v, (a, v) ∈ order -> holds v handle = true))).
Proof.
  induction order as [|[a v] order IH]; intros from to Hkeys Hnot.
  - exists from, to, (Some NoCandidates). split; [done|]. split; [done|].
    intros _. split; [done|].
    destruct (decide (from = EmptyString)) as [->|Hf].
    + left. split; [done|]. intros a v Hin. by apply elem_of_nil in Hin.
    + right. split.
      * destruct (decide (to = EmptyString)); [done | tauto].
      * intros a v Hin. by apply elem_of_nil in Hin.
  - assert (Ha : a <> EmptyString) by (apply (Hkeys a v); by left).
    assert (Hkeys' : forall a' v', (a', v') ∈ order -> a' <> EmptyString).
    { intros a' v' Hin. apply (Hkeys a' v'). by right. }
    cbn [ChooseReReplication_loop].
    destruct (holds v handle) eqn:Hv.
    + case_bool_decide as Hboth.
      * exists a, to, None. split; [done|]. split; [|done].
        intros _. split; [done|]. split; [tauto|]. split; [|by left].
        right. exists v. split; [by left | done].
      * destruct (IH a to Hkeys' Hboth)
          as (f & t & err & Hrun & Hok & Herr).
        exists f, t, err. split; [exact Hrun|]. split.
        -- intros He. destruct (Hok He) as (Hf & Ht & Hfrom & Hto).
           split; [done|]. split; [done|]. split.
           ++ right. destruct Hfrom as [->|(v' & Hin & Hh)].
              ** exists v. split; [by left | done].
              ** exists v'. split; [by right | done].
           ++ destruct Hto as [->|(v' & Hin & Hh)]; [by left|].
              right. exists v'. split; [by right | done].
        -- intros He. destruct (Herr He) as [-> [[? _]|[-> Hall]]];
             [done|]. split; [done|]. right. split; [done|].
           intros a' v' Hin. apply elem_of_cons in Hin.
           destruct Hin as [[= -> ->]|Hin]; [done | by apply (Hall a')].
    + case_bool_decide as Hboth.
      * exists from, a, None. split; [done|]. split; [|done].
        intros _. split; [tauto|]. split; [done|]. split; [by left|].
        right. exists v. split; [by left | done].
      * destruct (IH from a Hkeys' Hboth)
          as (f & t & err & Hrun & Hok & Herr).
        exists f, t, err. split; [exact Hrun|]. split.
        -- intros He. destruct (Hok He) as (Hf & Ht & Hfrom & Hto).
           split; [done|]. split; [done|]. split.
           ++ destruct Hfrom as [->|(v' & Hin & Hh)]; [by left|].
              right. exists v'. split; [by right | done].
           ++ right. destruct Hto as [->|(v' & Hin & Hh)].
              ** exists v. split; [by left | done].
              ** exists v'. split; [by right | done].
        -- intros He. destruct (Herr He) as [-> [[-> Hall]|[? _]]];
             [|done]. split; [done|]. left. split; [done|].
           intros a' v' Hin. apply elem_of_cons in Hin.
           destruct Hin as [[= -> ->]|Hin]; [done | by apply (Hall a')].
Qed.

(** X6.  When no server is registered under the empty address,
    [ChooseReReplication] returns without error exactly when some registered
    server holds the chunk and some registered server does not, whatever the
    order in which the map is visited; [from] is then a registered server
    that holds the chunk and [to] another one that does not.  Its only
    error is the one for too few servers. *)
Theorem ChooseReReplication_pair (servers : gmap string chunkServerInfo)
  (order : list (string * chunkServerInfo)) (handle : Z) :
  order ≡ₚ map_to_list servers ->
  servers !! EmptyString = None ->
  exists from to err,
    ChooseReReplication order handle = (from, to, err) /\
    (err = None \/ err = Some NoCandidates) /\
    (err = None ->
     from <> to /\
     (exists sv, servers !! from = Some sv /\ holds sv handle = true) /\
     (exists sv, servers !! to = Some sv /\ holds sv handle = false)) /\
    (err = None
     <-> (exists a sv, servers !! a = Some sv /\ holds sv handle = true) /\
         (exists a sv, servers !! a = Some sv /\ holds sv handle = false)).
Proof.
  intros Hp Hempty.
  assert (Hin : forall a v, (a, v) ∈ order <-> servers !! a = Some v).
  { intros a v. rewrite Hp. apply elem_of_map_to_list. }
  destruct (ChooseReReplication_loop_spec handle order EmptyString
              EmptyString) as (f & t & err & Hrun & Hok & Herr).
  { intros a v Ha ->. apply Hin in Ha. congruence. }
  { tauto. }
  exists f, t, err. split; [exact Hrun|].
  assert (Hpair : err = None ->
            f <> t /\
            (exists sv, servers !! f = Some sv /\ holds sv handle = true) /\
            (exists sv, servers !! t = Some sv /\ holds sv handle = false)).
  { intros He. destruct (Hok He) as (Hf & Ht & Hfrom & Hto).
    destruct Hfrom as [?|(vf & Hvf & Hhf)]; [done|].
    destruct Hto as [?|(vt & Hvt & Hht)]; [done|].
    apply Hin in Hvf. apply Hin in Hvt.
    split; [|split; by eexists].
    intros ->. rewrite Hvf in Hvt. injection Hvt as <-. congruence. }
  split; [|split; [exact Hpair|]].
  - destruct err as [e|]; [|by left]. right. by apply Herr.
  - split.
    + intros He. destruct (Hpair He) as (_ & [svf Hf] & [svt Ht]).
      split; by eexists _, _.
    + intros [(a & sv & Ha & Hh) (b & sv' & Hb & Hh')].
      destruct err as [e|]; [|done]. exfalso.
      destruct (Herr ltac:(done)) as [_ [[_ Hall]|[_ Hall]]].
      * apply Hin in Ha. rewrite (Hall a sv Ha) in Hh. done.
      * apply Hin in Hb. rewrite (Hall b sv' Hb) in Hh'. done.
Qed.

(** *** [util.Sample] and [util.CallAll] *)

(** X7.  With [rand.Perm(n)] a permutation of [0, ..., n-1], [Sample n k]
    fails when [n < k] and returns [k] pairwise distinct indices below [n]
    when [0 <= k <= n]; a negative [k] that is not above [n] makes it
    panic. *)
Theorem Sample_distinct_below (randPerm : Z -> list Z) (n k : Z) :
  (forall m, 0 <= m -> randPerm m ≡ₚ seqZ 0 m) ->
  (n < k -> Sample randPerm n k = Returns (Err SampleError)) /\
  (0 <= k <= n ->
   exists choose,
     Sample randPerm n k = Returns (Ok choose) /\
     len choose = k /\ NoDup choose /\
     forall v, v ∈ choose -> 0 <= v < n) /\
  (k <= n -> k < 0 -> Sample randPerm n k = Panics).
Proof.
  intros Hperm. unfold Sample. split; [|split].
  - intros Hlt. destruct (Z.ltb_spec n k); [done | lia].
  - intros Hk.
    destruct (Z.ltb_spec n k); [lia|].
    destruct (Z.ltb_spec n 0); [lia|].
    destruct (Z.ltb_spec k 0); [lia|].
    eexists. split; [reflexivity|].
    assert (Hlen : List.length (randPerm n) = Z.to_nat n).
    { rewrite (Hperm n) by lia. apply length_seqZ. }
    split; [|split].
    + unfold len. rewrite length_take, Hlen. lia.
    + apply (sublist_NoDup _ (randPerm n)); [|apply sublist_take].
      rewrite (Hperm n) by lia. apply NoDup_seqZ.
    + intros v Hv. apply subseteq_take in Hv.
      rewrite (Hperm n) in Hv by lia. apply elem_of_seqZ in Hv. lia.
  - intros Hle Hneg.
    destruct (Z.ltb_spec n k); [lia|].
    destruct (Z.ltb_spec n 0); [done|].
    destruct (Z.ltb_spec k 0); [done | lia].
Qed.

Lemma CallAll_snoc (arrivals : list (option error)) (e : option error) :
  CallAll (arrivals ++ [e])
  = match e with
    | Some _ => e
    | None => CallAll arrivals
    end.
Proof. unfold CallAll. by rewrite foldl_app. Qed.

Lemma CallAll_spec (arrivals : list (option error)) :
  (CallAll arrivals = None <-> Forall (fun r => r = None) arrivals) /\
  (forall e, CallAll arrivals = Some e -> Some e ∈ arrivals).
Proof.
  induction arrivals as [|r arrivals [IH1 IH2]] using rev_ind.
  - split; [split; [constructor | done] | done].
  - rewrite CallAll_snoc, Forall_app, Forall_singleton.
    destruct r as [e'|]; split.
    + split; [done | by intros [_ ?]].
    + intros e [= ->]. apply elem_of_app. right. by left.
    + rewrite IH1. tauto.
    + intros e He. apply elem_of_app. left. by apply IH2.
Qed.

Lemma CallAll_last_error (before after : list (option error)) (e : error) :
  Forall (fun r => r = None) after ->
  CallAll (before ++ Some e :: after) = Some e.
Proof.
  induction after as [|r after IH] using rev_ind; intros Hafter.
  - apply CallAll_snoc.
  - apply Forall_app in Hafter. destruct Hafter as [Hafter Hr].
    rewrite Forall_singleton in Hr. subst r.
    change (before ++ Some e :: after ++ [None])
      with (before ++ (Some e :: after) ++ [None]).
    rewrite app_assoc, CallAll_snoc. by apply IH.
Qed.

(** X8.  [CallAll] returns nil exactly when every destination answers
    without error, in whatever order the answers arrive; an error it
    returns is the answer of one of the destinations, namely the last
    error to arrive. *)
Theorem CallAll_nil_iff_all_succeed (dst : list string)
  (call : string -> option error) (arrivals : list (option error)) :
  arrivals ≡ₚ call <$> dst ->
  (CallAll arrivals = None <-> forall d, d ∈ dst -> call d = None) /\
  (forall e, CallAll arrivals = Some e ->
             exists d, d ∈ dst /\ call d = Some e) /\
  (forall before after e,
     arrivals = before ++ Some e :: after ->
     Forall (fun r => r = None) after ->
     CallAll arrivals = Some e).
Proof.
  intros Hp. destruct (CallAll_spec arrivals) as [Hnil Herr].
  split; [|split].
  - rewrite Hnil, Hp, Forall_fmap, Forall_forall. done.
  - intros e He. apply Herr in He. rewrite Hp in He.
    apply list_elem_of_fmap in He. destruct He as (d & Hd & Hin).
    by exists d.
  - intros before after e -> Hafter. by apply CallAll_last_error.
Qed.

(** *** Reading a chunk back *)

Lemma write_at_prefix_length (content : list byte) (o : nat) :
  List.length (take o (content ++ replicate (o - List.length content) x00))
  = o.
Proof. rewrite length_take, length_app, length_replicate. lia. Qed.

Lemma read_at_write_at (content data : list byte) (off : Z) :
  read_at (write_at content off data) off (List.length data) = data.
Proof.
  unfold read_at, write_at. destruct data as [|b data]; [done|].
  rewrite drop_app_length' by (symmetry; apply write_at_prefix_length).
  by rewrite take_app_length.
Qed.

Lemma writeChunk_disk (cs : ChunkServer) (h version : Z) (data : list byte)
  (offset : Z) (lock : bool) (ck : chunkInfo) :
  chunk cs !! h = Some ck ->
  0 <= offset ->
  exists cs1,
    writeChunk cs h version data offset lock IoOk = Returns (cs1, None) /\
    disk cs1 = <[h := write_at (open_create (disk cs) h) offset data]>
                 (disk cs) /\
    chunk cs1
      = <[h := mkChunkInfo
                 (if ck_length ck <? wrap64 (offset + len data)
                  then wrap64 (offset + len data) else ck_length ck)
                 version (ck_newestVersion ck) (ck_mutations ck)]>
          (chunk cs) /\
    dl cs1 = dl cs.
Proof.
  intros Hck Hoff. unfold writeChunk. rewrite Hck.
  destruct (Z.ltb_spec offset 0); [lia|].
  eexists. split; [reflexivity|]. done.
Qed.

Lemma readChunk_ok (cs : ChunkServer) (h offset : Z) (n : nat)
  (content : list byte) :
  disk cs !! h = Some content ->
  0 <= offset ->
  readChunk cs h offset (replicate n x00) RdOk
  = (read_at content offset n
       ++ replicate (n - List.length (read_at content offset n)) x00,
     len (read_at content offset n),
     if (List.length (read_at content offset n) <? n)%nat
     then Some EOF else None).
Proof.
  intros Hdisk Hoff. unfold readChunk. rewrite Hdisk.
  destruct (Z.ltb_spec offset 0); [lia|].
  by rewrite length_replicate, drop_replicate.
Qed.

Lemma RPCReadChunk_ok (cs : ChunkServer) (h offset length : Z)
  (ck : chunkInfo) (content : list byte) :
  chunk cs !! h = Some ck ->
  disk cs !! h = Some content ->
  0 <= offset -> 0 <= length ->
  RPCReadChunk cs h offset length RdOk
  = Returns
      (mkReadChunkReply
         (read_at content offset (Z.to_nat length)
            ++ replicate
                 (Z.to_nat length
                  - List.length (read_at content offset (Z.to_nat length)))
                 x00)
         (len (read_at content offset (Z.to_nat length)))
         (if (List.length (read_at content offset (Z.to_nat length))
              <? Z.to_nat length)%nat
          then ReadEOF else Success),
       None).
Proof.
  intros Hck Hdisk Hoff Hlen. unfold RPCReadChunk. rewrite Hck.
  destruct (Z.ltb_spec length 0); [lia|].
  rewrite (readChunk_ok cs h offset _ content Hdisk Hoff).
  by destruct (_ <? _)%nat.
Qed.

(** X9.  What [writeChunk] writes, [RPCReadChunk] reads back: after a
    write of [data] at an offset [0 <= offset] that the disk accepts, a
    read of [len(data)] bytes at this offset returns [data], its length and
    no end-of-file code, and the files of the other chunks are as they
    were. *)
Theorem writeChunk_then_RPCReadChunk (cs : ChunkServer) (h version : Z)
  (data : list byte) (offset : Z) (lock : bool) (ck : chunkInfo) :
  chunk cs !! h = Some ck ->
  0 <= offset ->
  exists cs1,
    writeChunk cs h version data offset lock IoOk = Returns (cs1, None) /\
    RPCReadChunk cs1 h offset (len data) RdOk
      = Returns (mkReadChunkReply data (len data) Success, None) /\
    forall h', h' <> h -> disk cs1 !! h' = disk cs !! h'.
Proof.
  intros Hck Hoff.
  destruct (writeChunk_disk cs h version data offset lock ck Hck Hoff)
    as (cs1 & Hw & Hdisk & Hchunk & _).
  exists cs1. split; [exact Hw|]. split.
  - erewrite (RPCReadChunk_ok cs1 h offset (len data) _
               (write_at (open_create (disk cs) h) offset data));
      [|by rewrite Hchunk, lookup_insert_eq
        |by rewrite Hdisk, lookup_insert_eq
        |done
        |apply len_nonneg].
    assert (Hn : Z.to_nat (len data) = List.length data)
      by (unfold len; apply Nat2Z.id).
    rewrite !Hn, !read_at_write_at.
    by rewrite Nat.ltb_irrefl, Nat.sub_diag, app_nil_r.
  - intros h' Hne. rewrite Hdisk. by apply lookup_insert_ne.
Qed.

(** X10.  A read of [length] bytes at [offset] from a chunk with a file
    returns without error a buffer of [length] bytes: the bytes of the file
    from [offset] on, as many as there are up to [length], and zero bytes
    after them.  The reply carries the number of bytes read, and the
    end-of-file code exactly when bytes are asked for and the file ends
    before [offset + length]: a read of no bytes past the end of the file
    reports no end of file.  The length in the chunk's record plays no
    part. *)
Theorem RPCReadChunk_end_of_file (cs : ChunkServer) (h offset length : Z)
  (ck : chunkInfo) (content : list byte) :
  chunk cs !! h = Some ck ->
  disk cs !! h = Some content ->
  0 <= offset -> 0 <= length ->
  exists reply,
    RPCReadChunk cs h offset length RdOk = Returns (reply, None) /\
    rr_Length reply = Z.min length (Z.max 0 (len content - offset)) /\
    len (rr_Data reply) = length /\
    (forall i, 0 <= i < rr_Length reply ->
               rr_Data reply !! Z.to_nat i = content !! Z.to_nat (offset + i))
    /\
    (forall i, rr_Length reply <= i < length ->
               rr_Data reply !! Z.to_nat i = Some x00) /\
    (rr_ErrorCode reply = ReadEOF
     <-> 0 < length /\ len content < offset + length) /\
    (rr_ErrorCode reply = Success
     <-> length = 0 \/ offset + length <= len content).
Proof.
  intros Hck Hdisk Hoff Hlen.
  rewrite (RPCReadChunk_ok cs h offset length ck content Hck Hdisk Hoff Hlen).
  set (got := read_at content offset (Z.to_nat length)).
  assert (Hgot : List.length got
                 = Nat.min (Z.to_nat length)
                     (List.length content - Z.to_nat offset)).
  { unfold got, read_at. by rewrite length_take, length_drop. }
  eexists. split; [reflexivity|]. cbn [rr_Length rr_Data rr_ErrorCode].
  split; [unfold len; lia|].
  split; [unfold len; rewrite length_app, length_replicate; lia|].
  split; [|split; [|split]].
  - intros i Hi. unfold len in Hi.
    rewrite lookup_app_l by lia.
    unfold got, read_at. rewrite lookup_take_lt by lia.
    rewrite lookup_drop. f_equal. lia.
  - intros i Hi. unfold len in Hi.
    rewrite lookup_app_r by lia.
    apply lookup_replicate_2. lia.
  - unfold len. clearbody got.
    destruct (Nat.ltb_spec (List.length got) (Z.to_nat length));
      split; intros ?; first [done | lia | exfalso; lia].
  - unfold len. clearbody got.
    destruct (Nat.ltb_spec (List.length got) (Z.to_nat length));
      split; intros ?; first [done | lia | exfalso; lia].
Qed.

(** X11.  A chunk whose file could not be created is registered all the
    same: [RPCCreateChunk] with a failing [os.OpenFile] returns the error,
    a second [RPCCreateChunk] returns nil, and a read of the chunk fails on
    the missing file, with length -1, until a write creates the file. *)
Theorem RPCCreateChunk_without_file (cs : ChunkServer) (h : Z) :
  chunk cs !! h = None ->
  disk cs !! h = None ->
  exists cs1,
    RPCCreateChunk cs h false = (cs1, Some OsError) /\
    RPCCreateChunk cs1 h true = (cs1, None) /\
    (forall offset length ro,
       0 <= length ->
       exists data,
         RPCReadChunk cs1 h offset length ro
         = Returns (mkReadChunkReply data (-1) Success, Some OsError)) /\
    (forall version data offset lock,
       0 <= offset ->
       exists cs2,
         writeChunk cs1 h version data offset lock IoOk
           = Returns (cs2, None) /\
         RPCReadChunk cs2 h offset (len data) RdOk
           = Returns (mkReadChunkReply data (len data) Success, None)).
Proof.
  intros Hck Hdisk.
  exists (set_chunk cs h (mkChunkInfo 0 0 0 ∅)).
  assert (Hreg : chunk (set_chunk cs h (mkChunkInfo 0 0 0 ∅)) !! h
                 = Some (mkChunkInfo 0 0 0 ∅)) by apply lookup_insert_eq.
  split; [|split; [|split]].
  - unfold RPCCreateChunk. by rewrite Hck.
  - unfold RPCCreateChunk. by rewrite Hreg.
  - intros offset length ro Hlen. unfold RPCReadChunk, readChunk.
    rewrite Hreg. destruct (Z.ltb_spec length 0); [lia|].
    cbn [disk set_chunk]. rewrite Hdisk. eexists. by destruct ro.
  - intros version data offset lock Hoff.
    destruct (writeChunk_disk _ h version data offset lock _ Hreg Hoff)
      as (cs2 & Hw & Hd & Hc & _).
    exists cs2. split; [exact Hw|].
    erewrite (RPCReadChunk_ok cs2 h offset (len data) _
                (write_at (open_create
                             (disk (set_chunk cs h (mkChunkInfo 0 0 0 ∅))) h)
                   offset data));
      [|by rewrite Hc, lookup_insert_eq
        |by rewrite Hd, lookup_insert_eq
        |done
        |apply len_nonneg].
    assert (Hn : Z.to_nat (len data) = List.length data)
      by (unfold len; apply Nat2Z.id).
    rewrite !Hn, !read_at_write_at.
    by rewrite Nat.ltb_irrefl, Nat.sub_diag, app_nil_r.
Qed.

(** *** Staging, committing and reading back *)

(** X12.  [RPCPushDataAndForward] refuses data longer than [MaxChunkSize]
    and changes nothing then.  Otherwise it stages the data under the id it
    returns, whose handle is the one it was given, also when forwarding to
    the peers fails: the next commit of the id gets the data, a forward of
    the same id is refused as a duplicate, and when the id was free before,
    consuming the data leaves the replica as it was before the push. *)
Theorem RPCPushDataAndForward_stages (cs : ChunkServer) (h : Z)
  (data : list byte) (stamp : Z) (forwarded : option error) :
  (MaxChunkSize < len data ->
   RPCPushDataAndForward cs h data stamp forwarded
   = (cs, None, Some DataTooLarge)) /\
  (len data <= MaxChunkSize ->
   exists cs1 id,
     RPCPushDataAndForward cs h data stamp forwarded
       = (cs1, Some id, forwarded) /\
     Handle id = h /\
     dl cs1 !! id = Some data /\
     (deleteDownloadedData cs1 id).2 = Ok data /\
     (forall data', RPCForwardData cs1 id data' = (cs1, Some DuplicateData))
     /\
     (dl cs !! id = None -> (deleteDownloadedData cs1 id).1 = cs)).
Proof.
  unfold RPCPushDataAndForward. split.
  - intros Hbig. destruct (Z.ltb_spec MaxChunkSize (len data)); [done | lia].
  - intros Hfit. destruct (Z.ltb_spec MaxChunkSize (len data)); [lia|].
    eexists _, _. split; [reflexivity|]. split; [done|].
    assert (Hst : dl (set_dl cs (dl_Set (dl cs) (dl_New h stamp) data))
                    !! dl_New h stamp = Some data)
      by apply lookup_insert_eq.
    split; [exact Hst|]. split; [|split].
    + by rewrite (deleteDownloadedData_present _ _ _ Hst).
    + intros data'. unfold RPCForwardData, dl_Get. by rewrite Hst.
    + intros Hfree. rewrite (deleteDownloadedData_present _ _ _ Hst).
      destruct cs as [d p c k l]. unfold set_dl, dl_Set. simpl in *.
      f_equal. rewrite delete_insert_eq. by apply delete_id.
Qed.

(** X13.  The write path on a primary whose chunk is at rest: the data
    that [RPCPushDataAndForward] stages and [RPCWriteChunk] commits at
    [offset], with [0 <= offset] and [offset + len(data) <= MaxChunkSize],
    is what [RPCReadChunk] returns for this range afterwards.  The commit
    consumes the staged entry, moves the chunk one version up and leaves
    its buffer empty. *)
Theorem push_write_read_round_trip (fuel : nat) (cs : ChunkServer) (h : Z)
  (data : list byte) (stamp offset : Z) (secs : list string)
  (ck : chunkInfo) :
  0 <= offset ->
  offset + len data <= MaxChunkSize ->
  MaxChunkSize < 2 ^ 63 ->
  chunk cs !! h = Some ck ->
  ck_mutations ck = ∅ ->
  ck_newestVersion ck = ck_version ck ->
  - 2 ^ 63 <= ck_version ck < 2 ^ 63 - 2 ->
  exists cs1 id cs2 ck',
    RPCPushDataAndForward cs h data stamp None = (cs1, Some id, None) /\
    RPCWriteChunk (S (S fuel)) cs1 (mkWriteChunkArg id offset secs) []
      (fun _ => None) = Returns (cs2, None) /\
    RPCReadChunk cs2 h offset (len data) RdOk
      = Returns (mkReadChunkReply data (len data) Success, None) /\
    dl cs2 = delete id (dl cs) /\
    chunk cs2 !! h = Some ck' /\
    ck_version ck' = ck_version ck + 1 /\
    ck_newestVersion ck' = ck_version ck + 1 /\
    ck_mutations ck' = ∅.
Proof.
  intros Hoff Hfit Hmax Hck Hempty Hsync Hver.
  pose proof (len_nonneg data) as Hlen.
  set (id := dl_New h stamp).
  set (cs1 := set_dl cs (dl_Set (dl cs) id data)).
  assert (Hpush : RPCPushDataAndForward cs h data stamp None
                  = (cs1, Some id, None)).
  { unfold RPCPushDataAndForward.
    destruct (Z.ltb_spec MaxChunkSize (len data)); [lia | done]. }
  assert (Hst : dl cs1 !! id = Some data) by apply lookup_insert_eq.
  assert (Hw64 : wrap64 (offset + len data) = offset + len data)
    by (apply wrap64_id; unfold int64; lia).
  destruct (RPCWriteChunk_quiescent_succeeds fuel cs1 id offset secs data ck)
    as (cs2 & ck' & Hrun & Hck' & Hv & Hnv & Hm & _ & Hdisk & _);
    [lia | done | done | done | done | done | done |].
  exists cs1, id, cs2, ck'.
  split; [exact Hpush|]. split; [exact Hrun|]. split; [|split].
  - erewrite (RPCReadChunk_ok cs2 h offset (len data) ck'
                (write_at (open_create (disk cs1) h) offset data));
      [|exact Hck' | exact Hdisk | done | done].
    assert (Hn : Z.to_nat (len data) = List.length data)
      by (unfold len; apply Nat2Z.id).
    rewrite !Hn, !read_at_write_at.
    by rewrite Nat.ltb_irrefl, Nat.sub_diag, app_nil_r.
  - rewrite (RPCWriteChunk_dl (S (S fuel)) cs1 (mkWriteChunkArg id offset secs)
               [] (fun _ => None) data cs2 None Hst Hrun).
    cbn [wc_DataID]. unfold cs1, dl_Set. cbn [dl set_dl].
    apply delete_insert_eq.
  - done.
Qed.

(** *** Re-replication *)

Lemma RPCSendCopy_read (cs : ChunkServer) (h : Z) (ck : chunkInfo)
  (content : list byte) (call : ApplyCopyArg -> option error) :
  chunk cs !! h = Some ck ->
  disk cs !! h = Some content ->
  0 <= ck_length ck ->
  RPCSendCopy cs h RdOk call
  = if (List.length content <? Z.to_nat (ck_length ck))%nat
    then Returns (Some EOF)
    else if decide (ck_version ck <> ck_newestVersion ck)
         then Returns (Some InMutation)
         else Returns (call (mkApplyCopyArg h
                               (take (Z.to_nat (ck_length ck)) content)
                               (ck_version ck))).
Proof.
  intros Hck Hdisk Hlen. unfold RPCSendCopy. rewrite Hck.
  destruct (Z.ltb_spec (ck_length ck) 0); [lia|].
  rewrite (readChunk_ok cs h 0 _ content Hdisk) by lia.
  unfold read_at. rewrite drop_0, length_take.
  destruct (Nat.ltb_spec (List.length content) (Z.to_nat (ck_length ck)))
    as [Hshort|Hlong].
  - rewrite (proj2 (Nat.ltb_lt _ _)) by lia. done.
  - rewrite (proj2 (Nat.ltb_ge _ _)) by lia.
    replace (Z.to_nat (ck_length ck)
             - Z.to_nat (ck_length ck) `min` List.length content)%nat
      with 0%nat by lia.
    simpl. by rewrite app_nil_r.
Qed.

(** X14.  Re-replication of a chunk that is at rest on the source
    ([version = newestVersion]) and whose file has the [length] bytes of
    its record: [RPCSendCopy] sends the first [length] bytes of the file
    with the version, and [RPCApplyCopy] on a replica that holds the chunk
    writes them at offset 0, empties the mutation buffer and takes the
    version over, so that a read of this range on the sink returns what the
    source sent.  The sink keeps its own [newestVersion] and never shrinks
    its length. *)
Theorem re_replication_copies_chunk (src sink : ChunkServer) (h : Z)
  (ck ck_s : chunkInfo) (content : list byte)
  (call : ApplyCopyArg -> option error) :
  chunk src !! h = Some ck ->
  disk src !! h = Some content ->
  0 <= ck_length ck <= len content ->
  ck_length ck < 2 ^ 63 ->
  ck_version ck = ck_newestVersion ck ->
  chunk sink !! h = Some ck_s ->
  exists data sink' ck',
    data = take (Z.to_nat (ck_length ck)) content /\
    RPCSendCopy src h RdOk call
      = Returns (call (mkApplyCopyArg h data (ck_version ck))) /\
    RPCApplyCopy sink (mkApplyCopyArg h data (ck_version ck)) IoOk
      = Returns (sink', None) /\
    chunk sink' !! h = Some ck' /\
    ck_version ck' = ck_version ck /\
    ck_mutations ck' = ∅ /\
    ck_length ck' = Z.max (ck_length ck_s) (ck_length ck) /\
    ck_newestVersion ck' = ck_newestVersion ck_s /\
    RPCReadChunk sink' h 0 (ck_length ck) RdOk
      = Returns (mkReadChunkReply data (ck_length ck) Success, None).
Proof.
  intros Hck Hdisk Hlen Hmax Hrest Hsink.
  set (data := take (Z.to_nat (ck_length ck)) content).
  assert (Hdata : len data = ck_length ck).
  { unfold data, len in *. rewrite length_take. lia. }
  set (sink0 := set_chunk sink h
                  (mkChunkInfo (ck_length ck_s) (ck_version ck_s)
                     (ck_newestVersion ck_s) ∅)).
  destruct (writeChunk_disk sink0 h (ck_version ck) data 0 true
              (mkChunkInfo (ck_length ck_s) (ck_version ck_s)
                 (ck_newestVersion ck_s) ∅))
    as (sink' & Hw & Hd & Hc & _); [apply lookup_insert_eq | lia |].
  eexists data, sink', _.
  split; [done|]. split; [|split; [|split]].
  - rewrite (RPCSendCopy_read src h ck content call Hck Hdisk) by lia.
    rewrite (proj2 (Nat.ltb_ge _ _)) by (unfold len in Hlen; lia).
    by rewrite decide_False by (intros Hne; by apply Hne).
  - unfold RPCApplyCopy. cbn [cp_Handle cp_Version cp_Data].
    rewrite Hsink. exact Hw.
  - rewrite Hc. apply lookup_insert_eq.
  - cbn [ck_version ck_mutations ck_length ck_newestVersion].
    split; [done|]. split; [done|]. split; [|split; [done|]].
    + rewrite Z.add_0_l, Hdata, wrap64_id by (unfold int64; lia).
      destruct (Z.ltb_spec (ck_length ck_s) (ck_length ck)); lia.
    + erewrite (RPCReadChunk_ok sink' h 0 (ck_length ck) _
                  (write_at (open_create (disk sink0) h) 0 data));
        [|by rewrite Hc, lookup_insert_eq
          |by rewrite Hd, lookup_insert_eq
          |done
          |lia].
      assert (Hn : Z.to_nat (ck_length ck) = List.length data)
        by (unfold len in Hdata; lia).
      rewrite !Hn, !read_at_write_at.
      rewrite Nat.ltb_irrefl, Nat.sub_diag, app_nil_r.
      by rewrite <- Hdata.
Qed.

(** X15.  [RPCSendCopy] sends nothing, whatever the target would answer,
    for a chunk that the replica does not hold, for a chunk whose file is
    shorter than the length in its record (the read ends with [io.EOF],
    which is returned), and for a chunk whose version is not its
    [newestVersion].  The file is read before the versions are
    compared. *)
Theorem RPCSendCopy_refuses (cs : ChunkServer) (h : Z)
  (call : ApplyCopyArg -> option error) :
  (chunk cs !! h = None ->
   forall ro, RPCSendCopy cs h ro call = Returns (Some ChunkNotFound)) /\
  (forall ck content,
     chunk cs !! h = Some ck ->
     disk cs !! h = Some content ->
     0 <= ck_length ck ->
     (len content < ck_length ck ->
      RPCSendCopy cs h RdOk call = Returns (Some EOF)) /\
     (ck_length ck <= len content ->
      ck_version ck <> ck_newestVersion ck ->
      RPCSendCopy cs h RdOk call = Returns (Some InMutation))).
Proof.
  split.
  - intros Hnone ro. unfold RPCSendCopy. by rewrite Hnone.
  - intros ck content Hck Hdisk Hlen.
    rewrite (RPCSendCopy_read cs h ck content call Hck Hdisk Hlen).
    unfold len. split.
    + intros Hshort. by rewrite (proj2 (Nat.ltb_lt _ _)) by lia.
    + intros Hlong Hne. rewrite (proj2 (Nat.ltb_ge _ _)) by lia.
      by rewrite decide_True.
Qed.

(** *** Padding and the debug reader *)

(** X16.  The write that the drain makes for a [Pad] mutation leaves the
    record of a chunk that is not longer than [MaxChunkSize] as [padChunk]
    would: length [MaxChunkSize] and the version of the mutation.  When the
    disk accepts the write, the file is [MaxChunkSize] bytes long or as long
    as it was if that is more, its byte at [MaxChunkSize - 1] is zero, the
    gap after its old end reads as zeros and its other bytes are kept. *)
Theorem pad_mutation_as_padChunk (cs : ChunkServer) (h : Z) (ck : chunkInfo)
  (v : Mutation) (o : io_outcome) :
  chunk cs !! h = Some ck ->
  m_mtype v = MutationPad ->
  ck_length ck <= MaxChunkSize ->
  1 <= MaxChunkSize < 2 ^ 63 ->
  exists cs1 e cs2,
    write_of cs h v o = Returns (cs1, e) /\
    padChunk cs h (m_version v) = Returns cs2 /\
    chunk cs1 = chunk cs2 /\
    (o = IoOk ->
     e = None /\
     exists file,
       disk cs1 !! h = Some file /\
       len file = Z.max (len (open_create (disk cs) h)) MaxChunkSize /\
       file !! Z.to_nat (MaxChunkSize - 1) = Some x00 /\
       (forall i, (List.length (open_create (disk cs) h) <= i)%nat ->
                  (i < Z.to_nat (MaxChunkSize - 1))%nat ->
                  file !! i = Some x00) /\
       (forall i, (i < List.length (open_create (disk cs) h))%nat ->
                  i <> Z.to_nat (MaxChunkSize - 1) ->
                  file !! i = open_create (disk cs) h !! i)).
Proof.
  intros Hck Hpad Hlen Hmax.
  unfold write_of, writeChunk, padChunk. rewrite Hck.
  rewrite decide_True by done.
  change (len [x00]) with 1.
  replace (MaxChunkSize - 1 + 1) with MaxChunkSize by lia.
  rewrite wrap64_id by (unfold int64; lia).
  assert (Hlength : (if ck_length ck <? MaxChunkSize then MaxChunkSize
                     else ck_length ck) = MaxChunkSize).
  { destruct (Z.ltb_spec (ck_length ck) MaxChunkSize); lia. }
  rewrite Hlength.
  destruct (Z.ltb_spec (MaxChunkSize - 1) 0); [lia|].
  set (old := open_create _ h).
  destruct o as [| |n]; (eexists _, _, _; split; [reflexivity|]);
    (split; [reflexivity|]); (split; [reflexivity|]); try done.
  intros _. split; [done|]. eexists. split; [apply lookup_insert_eq|].
  unfold write_at.
  set (o := Z.to_nat (MaxChunkSize - 1)).
  assert (Hpre : List.length (take o (old ++ replicate (o - List.length old)
                                               x00)) = o)
    by apply write_at_prefix_length.
  split; [|split; [|split]].
  - unfold len. rewrite !length_app, Hpre, length_drop. simpl. lia.
  - rewrite lookup_app_r by lia. rewrite Hpre, Nat.sub_diag. done.
  - intros i Hi Hio. rewrite lookup_app_l by lia.
    rewrite lookup_take_lt by lia. rewrite lookup_app_r by lia.
    apply lookup_replicate_2. lia.
  - intros i Hi Hne. destruct (Nat.lt_ge_cases i o) as [Hlt|Hge].
    + rewrite lookup_app_l by lia.
      rewrite lookup_take_lt by lia. by rewrite lookup_app_l by lia.
    + rewrite lookup_app_r by lia. rewrite Hpre.
      change ([x00] ++ drop (o + List.length [x00]) old)
        with (x00 :: drop (o + 1) old).
      destruct (i - o)%nat as [|k] eqn:Hk; [lia|].
      simpl. rewrite lookup_drop. f_equal. lia.
Qed.

Lemma getContents_loop_reads (fuel : nat) :
  forall rest result reads,
    (List.length rest < fuel)%nat ->
    Forall (fun r => is_Some r) reads ->
    getContents_loop fuel rest result reads = Returns (result ++ rest, None).
Proof.
  induction fuel as [|fuel IH]; intros rest result reads Hfuel Hreads; [lia|].
  cbn [getContents_loop].
  assert (Hhd : exists k, hd (Some 99%nat) reads = Some k).
  { destruct Hreads as [|r reads [k ->] _]; simpl; by eexists. }
  destruct Hhd as [k ->].
  destruct rest as [|b rest]; [by rewrite app_nil_r|].
  rewrite IH.
  - by rewrite <- app_assoc, take_drop.
  - rewrite length_drop. simpl in *. lia.
  - destruct Hreads; [constructor | done].
Qed.

(** X17.  [getContents] returns the whole content of a file that it can
    open when every read succeeds, in however many pieces of at most 100
    bytes the reads return it.  It returns an error with the empty string
    for a file that does not exist or cannot be opened, and when the first
    read fails. *)
Theorem getContents_whole_file (fuel : nat) (cs : ChunkServer) (h : Z)
  (reads : list (option nat)) :
  (forall content,
     disk cs !! h = Some content ->
     (List.length content < fuel)%nat ->
     Forall (fun r => is_Some r) reads ->
     getContents fuel cs h true reads = Returns (content, None)) /\
  (disk cs !! h = None ->
   getContents fuel cs h true reads = Returns ([], Some OsError)) /\
  getContents fuel cs h false reads = Returns ([], Some OsError) /\
  (forall content,
     disk cs !! h = Some content ->
     getContents (S fuel) cs h true (None :: reads)
     = Returns ([], Some OsError)).
Proof.
  unfold getContents. split; [|split; [|split]].
  - intros content Hdisk Hfuel Hreads. rewrite Hdisk.
    by rewrite getContents_loop_reads.
  - intros Hnone. by rewrite Hnone.
  - done.
  - intros content Hdisk. by rewrite Hdisk.
Qed.

(** *** More on the drain *)

Lemma drains_ends_at_gap (h : Z) (cs : ChunkServer) (io : list io_outcome)
  (cs' : ChunkServer) (err : option error) :
  drains h cs io cs' err ->
  err = None ->
  exists ck', chunk cs' !! h = Some ck' /\
              ck_mutations ck' !! wrap64 (ck_version ck' + 1) = None.
Proof.
  induction 1 as [cs io ck Hck Hnone | | cs io ck v cs1 cs' err _ _ _ _ IH];
    intros Herr; [by exists ck | done | by apply IH].
Qed.

Lemma resync_idempotent (ck : chunkInfo) : resync (resync ck) = resync ck.
Proof.
  unfold resync. destruct (decide (size (ck_mutations ck) = 0%nat)) as [H|H];
    simpl; by rewrite ?decide_True, ?decide_False by done.
Qed.

Lemma set_chunk_same (cs : ChunkServer) (h : Z) (ck : chunkInfo) :
  chunk cs !! h = Some ck -> set_chunk cs h ck = cs.
Proof.
  intros Hck. destruct cs as [d p c k l]. unfold set_chunk. simpl in *.
  f_equal. by apply insert_id.
Qed.

(** X18.  A drain that has returned without error has left nothing to
    apply: a second drain of the chunk, with whatever the disk would do,
    returns without error and leaves the replica exactly as the first one
    left it. *)
Theorem doMutation_twice (fuel : nat) (cs : ChunkServer) (h : Z)
  (io : list io_outcome) (cs' : ChunkServer) :
  doMutation fuel cs h io = Returns (cs', None) ->
  forall fuel' io', doMutation (S fuel') cs' h io' = Returns (cs', None).
Proof.
  intros Hrun fuel' io'.
  destruct (doMutation_drains fuel cs h io cs' None Hrun)
    as (cs1 & ck1 & Hdr & Hck1 & ->).
  destruct (drains_ends_at_gap h cs io cs1 None Hdr eq_refl)
    as (ck1' & Hck1' & Hgap).
  rewrite Hck1 in Hck1'. injection Hck1' as <-.
  destruct (resync_fields ck1) as (Hv & _ & Hm & _).
  assert (Hck' : chunk (set_chunk cs1 h (resync ck1)) !! h
                 = Some (resync ck1)) by apply lookup_insert_eq.
  unfold doMutation. rewrite Hck'.
  rewrite (doMutation_loop_break fuel' _ h io' (resync ck1) Hck')
    by (by rewrite Hm, Hv).
  unfold mbind, exec_bind. cbn [fst snd].
  rewrite Hck', resync_idempotent.
  by rewrite (set_chunk_same _ h (resync ck1) Hck').
Qed.

(** X19.  A mutation that sits in the buffer under a version that is not
    above the version of the chunk is never applied and never removed: it
    is in the buffer after every drain, no write of the drain carries its
    version, and [newestVersion] is not set to [version] again. *)
Theorem stale_mutation_stays (fuel : nat) (cs : ChunkServer) (h : Z)
  (ck : chunkInfo) (k : Z) (m : Mutation) (io : list io_outcome)
  (cs' : ChunkServer) (err : option error) :
  chunk cs !! h = Some ck ->
  buffer_wf (ck_mutations ck) ->
  below_max ck ->
  ck_mutations ck !! k = Some m ->
  k <= ck_version ck ->
  doMutation fuel cs h io = Returns (cs', err) ->
  exists ck' l,
    chunk cs' !! h = Some ck' /\
    ck_mutations ck' !! k = Some m /\
    k <= ck_version ck' /\
    ck_newestVersion ck' = ck_newestVersion ck /\
    writeLog cs' = writeLog cs ++ l /\
    (h, k) ∉ l.
Proof.
  intros Hck Hwf Hmax Hk Hstale Hrun.
  destruct (doMutation_drains fuel cs h io cs' err Hrun)
    as (cs1 & ck1 & Hdr & Hck1 & Hcs').
  destruct (drains_ascending h cs io cs1 err Hdr ck Hck Hwf Hmax)
    as (ck1' & n & Hn & Hck1' & Hlog & Hv & Hnv & Hbuf & _).
  rewrite Hck1 in Hck1'. injection Hck1' as <-.
  assert (Hkept : ck_mutations ck1 !! k = Some m).
  { rewrite Hbuf, decide_False by lia. exact Hk. }
  assert (Hnotin : (h, k) ∉ (fun v => (h, v)) <$> seqZ (ck_version ck + 1) n).
  { intros Hin. apply list_elem_of_fmap in Hin.
    destruct Hin as (v & [= <-] & Hv'). apply elem_of_seqZ in Hv'. lia. }
  destruct err as [e|]; subst cs'.
  - exists ck1, ((fun v => (h, v)) <$> seqZ (ck_version ck + 1) n).
    split; [done|]. split; [done|]. split; [lia|]. done.
  - destruct (resync_fields ck1) as (Hrv & _ & Hrm & _ & Hrn).
    exists (resync ck1), ((fun v => (h, v)) <$> seqZ (ck_version ck + 1) n).
    split; [apply lookup_insert_eq|]. split; [by rewrite Hrm|].
    split; [lia|]. split; [|done].
    rewrite Hrn; [done|]. intros Hempty.
    by rewrite Hempty, lookup_empty in Hkept.
Qed.

(** *** The sizes on a primary *)

Lemma server_within_chunk (cs cs' : ChunkServer) :
  chunk cs' = chunk cs -> server_within cs -> server_within cs'.
Proof. intros Heq Hin h ck. rewrite Heq. apply Hin. Qed.

Lemma server_within_insert (cs cs' : ChunkServer) (h : Z) (ck : chunkInfo) :
  chunk cs' = <[h := ck]> (chunk cs) ->
  server_within cs -> within_chunk ck -> server_within cs'.
Proof.
  intros Heq Hin Hck h' ck'. rewrite Heq.
  destruct (decide (h' = h)) as [->|Hne].
  - rewrite lookup_insert_eq. by intros [= <-].
  - rewrite lookup_insert_ne by done. apply Hin.
Qed.

Lemma server_within_set_chunk (cs : ChunkServer) (h : Z) (ck : chunkInfo) :
  server_within cs -> within_chunk ck -> server_within (set_chunk cs h ck).
Proof. by apply (server_within_insert cs _ h ck). Qed.

Lemma within_applied (ck : chunkInfo) (v : Mutation) :
  0 <= MaxChunkSize < 2 ^ 63 ->
  within_chunk ck ->
  ck_mutations ck !! wrap64 (ck_version ck + 1) = Some v ->
  within_chunk (applied ck v).
Proof.
  intros Hmax [Hlen Hbuf] Hv. unfold applied. split; simpl.
  - destruct (decide (m_mtype v = MutationPad)) as [Hpad|Hpad].
    + change (len [x00]) with 1.
      replace (MaxChunkSize - 1 + 1) with MaxChunkSize by lia.
      rewrite wrap64_id by (unfold int64; lia).
      destruct (Z.ltb_spec (ck_length ck) MaxChunkSize); lia.
    + pose proof (Hbuf _ _ Hv Hpad).
      destruct (Z.ltb_spec (ck_length ck)
                  (wrap64 (m_offset v + len (m_data v)))); lia.
  - intros k m Hm. apply lookup_delete_Some in Hm. destruct Hm as [_ Hm].
    by apply (Hbuf k).
Qed.

Lemma drains_within (h : Z) (cs : ChunkServer) (io : list io_outcome)
  (cs' : ChunkServer) (err : option error) :
  0 <= MaxChunkSize < 2 ^ 63 ->
  drains h cs io cs' err -> server_within cs -> server_within cs'.
Proof.
  intros Hmax.
  induction 1 as [| cs io ck v cs1 e Hck Hv Hw
                  | cs io ck v cs1 cs' err Hck Hv Hw _ IH]; intros Hin.
  - done.
  - destruct (write_of_returns cs h ck v _ cs1 _ Hck Hw) as (Hc & _).
    apply (server_within_insert cs _ h (applied ck v) Hc Hin).
    apply within_applied; [done | by apply (Hin h) | done].
  - apply IH.
    destruct (write_of_returns cs h ck v _ cs1 _ Hck Hw) as (Hc & _).
    apply (server_within_insert cs _ h (applied ck v) Hc Hin).
    apply within_applied; [done | by apply (Hin h) | done].
Qed.

Lemma guarded_step_within (cs cs' : ChunkServer) :
  0 <= MaxChunkSize -> 0 <= MaxAppendSize ->
  MaxChunkSize + MaxAppendSize < 2 ^ 63 ->
  guarded_step cs cs' -> server_within cs -> server_within cs'.
Proof.
  intros Hmax Happ Hsum Hstep Hin.
  destruct Hstep as [cs h opened | cs h data stamp forwarded | cs id data
                    | cs id | cs h ck data offset Hck Hfit
                    | cs h ck data Hck Hfit | fuel cs h io cs' err Hrun
                    | cs h].
  - unfold RPCCreateChunk. destruct (chunk cs !! h) eqn:Hh; [done|].
    assert (Hnew : within_chunk (mkChunkInfo 0 0 0 ∅)).
    { split; simpl; [lia|]. intros k m Hm. by rewrite lookup_empty in Hm. }
    destruct opened; simpl;
      by apply (server_within_insert cs _ h (mkChunkInfo 0 0 0 ∅)).
  - unfold RPCPushDataAndForward. by destruct (MaxChunkSize <? len data).
  - unfold RPCForwardData. by destruct (dl_Get (dl cs) id).
  - unfold deleteDownloadedData. by destruct (dl_Get (dl cs) id).
  - destruct (Hin h ck Hck) as [Hlen Hbuf].
    apply server_within_set_chunk; [exact Hin|].
    unfold RPCWriteChunk_locked, nextVersion. simpl.
    assert (Hlength : 0 <= (if ck_length ck <? wrap64 (offset + len data)
                            then wrap64 (offset + len data)
                            else ck_length ck) <= MaxChunkSize).
    { destruct (Z.ltb_spec (ck_length ck) (wrap64 (offset + len data)));
        lia. }
    destruct (ck_mutations ck !! wrap64 (ck_newestVersion ck + 1));
      simpl; (split; [exact Hlength|]); simpl; [exact Hbuf|].
    intros k m Hm Hpad. apply lookup_insert_Some in Hm.
    destruct Hm as [[_ <-]|[_ Hm]]; [done | by apply (Hbuf k)].
  - destruct (Hin h ck Hck) as [Hlen Hbuf].
    pose proof (len_nonneg data) as Hd.
    apply server_within_set_chunk; [exact Hin|].
    unfold RPCAppendChunk_locked, nextVersion.
    rewrite (wrap64_id (ck_length ck + len data)) by (unfold int64; lia).
    destruct (Z.ltb_spec MaxChunkSize (ck_length ck + len data));
      simpl;
      destruct (ck_mutations ck !! wrap64 (ck_newestVersion ck + 1));
      simpl; (split; [simpl; lia|]); simpl; try exact Hbuf;
      intros k m Hm Hpad; apply lookup_insert_Some in Hm;
      (destruct Hm as [[_ <-]|[_ Hm]]; [|by apply (Hbuf k)]);
      simpl in *; [done|].
    rewrite wrap64_id by (unfold int64; lia). lia.
  - destruct (doMutation_drains fuel cs h io cs' err Hrun)
      as (cs1 & ck1 & Hdr & Hck1 & ->).
    assert (Hin1 : server_within cs1)
      by (apply (drains_within h cs io cs1 err); [lia | done | done]).
    destruct err; [done|].
    apply server_within_set_chunk; [exact Hin1|].
    destruct (Hin1 h ck1 Hck1) as [Hlen Hbuf].
    destruct (resync_fields ck1) as (_ & Hl & Hm & _).
    split; [by rewrite Hl | by rewrite Hm].
  - done.
Qed.

Lemma RPCWriteChunk_guarded_steps (fuel : nat) (cs : ChunkServer)
  (args : WriteChunkArg) (io : list io_outcome)
  (callAll : ApplyMutationArg -> option error) (cs' : ChunkServer)
  (err : option error) :
  RPCWriteChunk fuel cs args io callAll = Returns (cs', err) ->
  rtc guarded_step cs cs'.
Proof.
  unfold RPCWriteChunk.
  pose proof (gs_consume cs (wc_DataID args)) as Hconsume.
  destruct (deleteDownloadedData cs (wc_DataID args)) as [cs0 [data|e]];
    simpl in Hconsume; [|intros [= <- <-]; by apply rtc_once].
  destruct (Z.ltb_spec MaxChunkSize (wrap64 (wc_Offset args + len data)))
    as [|Hfit]; [intros [= <- <-]; by apply rtc_once|].
  destruct (chunk cs0 !! _) as [ck|] eqn:Hck;
    [|intros [= <- <-]; by apply rtc_once].
  pose proof (gs_write_locked cs0 _ ck data (wc_Offset args) Hck Hfit)
    as Hlocked.
  destruct (RPCWriteChunk_locked _ _ _ _) as [ck1 [v|e]]; simpl in Hlocked;
    [|intros [= <- <-]; eapply rtc_l; [exact Hconsume|by apply rtc_once]].
  destruct (doMutation _ _ _ _) as [[cs3 [e|]]| |] eqn:Hd; simpl; try done;
    pose proof (gs_drain _ _ _ _ _ _ Hd) as Hdrain.
  - intros [= <- <-].
    eapply rtc_l; [exact Hconsume|].
    eapply rtc_l; [exact Hlocked|]. by apply rtc_once.
  - destruct (callAll _); intros [= <- <-];
      (eapply rtc_l; [exact Hconsume|]);
      (eapply rtc_l; [exact Hlocked|]).
    + by apply rtc_once.
    + eapply rtc_l; [exact Hdrain|]. apply rtc_once. apply gs_pending.
Qed.

Lemma RPCAppendChunk_guarded_steps (fuel : nat) (cs : ChunkServer)
  (args : AppendChunkArg) (io : list io_outcome)
  (callAll : ApplyMutationArg -> option error) (cs' : ChunkServer)
  (reply : AppendChunkReply) (err : option error) :
  RPCAppendChunk fuel cs args io callAll = Returns (cs', reply, err) ->
  rtc guarded_step cs cs'.
Proof.
  unfold RPCAppendChunk.
  pose proof (gs_consume cs (ac_DataID args)) as Hconsume.
  destruct (deleteDownloadedData cs (ac_DataID args)) as [cs0 [data|e]];
    simpl in Hconsume; [|intros [= <- <- <-]; by apply rtc_once].
  destruct (Z.ltb_spec MaxAppendSize (len data)) as [|Hfit];
    [intros [= <- <- <-]; by apply rtc_once|].
  destruct (chunk cs0 !! _) as [ck|] eqn:Hck;
    [|intros [= <- <- <-]; by apply rtc_once].
  pose proof (gs_append_locked cs0 _ ck data Hck Hfit) as Hlocked.
  destruct (RPCAppendChunk_locked _ _) as [[[ck1 mt] rp] [v|e]];
    simpl in Hlocked;
    [|intros [= <- <- <-]; eapply rtc_l; [exact Hconsume|by apply rtc_once]].
  destruct (doMutation _ _ _ _) as [[cs3 [e|]]| |] eqn:Hd; simpl; try done;
    pose proof (gs_drain _ _ _ _ _ _ Hd) as Hdrain.
  - intros [= <- <- <-].
    eapply rtc_l; [exact Hconsume|].
    eapply rtc_l; [exact Hlocked|]. by apply rtc_once.
  - destruct (callAll _); intros [= <- <- <-];
      (eapply rtc_l; [exact Hconsume|]);
      (eapply rtc_l; [exact Hlocked|]).
    + by apply rtc_once.
    + eapply rtc_l; [exact Hdrain|]. apply rtc_once. apply gs_pending.
Qed.


(** *** Primary and secondary *)

Lemma write_of_disk (cs : ChunkServer) (h : Z) (ck : chunkInfo)
  (v : Mutation) :
  chunk cs !! h = Some ck ->
  0 <= (if decide (m_mtype v = MutationPad) then MaxChunkSize - 1
        else m_offset v) ->
  exists cs1,
    write_of cs h v IoOk = Returns (cs1, None) /\
    disk cs1 !! h
      = Some (if decide (m_mtype v = MutationPad)
              then write_at (open_create (disk cs) h) (MaxChunkSize - 1)
                     [x00]
              else write_at (open_create (disk cs) h) (m_offset v)
                     (m_data v)).
Proof.
  intros Hck Hoff. unfold write_of, writeChunk. rewrite Hck.
  destruct (decide (m_mtype v = MutationPad)).
  - destruct (Z.ltb_spec (MaxChunkSize - 1) 0) as [?|_]; [lia|].
    eexists. split; [reflexivity|]. simpl. by rewrite lookup_insert_eq.
  - destruct (Z.ltb_spec (m_offset v) 0) as [?|_]; [lia|].
    eexists. split; [reflexivity|]. simpl. by rewrite lookup_insert_eq.
Qed.

Lemma delete_mutation_disk (cs : ChunkServer) (h v : Z) :
  disk (delete_mutation cs h v) = disk cs.
Proof. unfold delete_mutation. by destruct (chunk cs !! h). Qed.

Lemma drain_single (fuel : nat) (cs : ChunkServer) (h : Z) (ck : chunkInfo)
  (m : Mutation) (cs2 : ChunkServer) :
  chunk cs !! h = Some ck ->
  ck_mutations ck = <[m_version m := m]> ∅ ->
  m_version m = ck_version ck + 1 ->
  - 2 ^ 63 <= ck_version ck < 2 ^ 63 - 2 ->
  write_of cs h m IoOk = Returns (cs2, None) ->
  exists cs' ck',
    doMutation (S (S fuel)) cs h [] = Returns (cs', None) /\
    chunk cs' !! h = Some ck' /\
    ck_version ck' = m_version m /\
    ck_newestVersion ck' = m_version m /\
    ck_mutations ck' = ∅ /\
    ck_length ck' = ck_length (applied ck m) /\
    disk cs' = disk cs2 /\
    dl cs' = dl cs.
Proof.
  intros Hck Hbuf Hver Hrange Hw.
  assert (Hwv : wrap64 (ck_version ck + 1) = m_version m)
    by (rewrite Hver; apply wrap64_id; unfold int64; lia).
  assert (Hwv2 : wrap64 (m_version m + 1) = m_version m + 1)
    by (apply wrap64_id; unfold int64; lia).
  destruct (write_of_returns _ _ _ _ _ _ _ Hck Hw) as (Hc2 & _ & Hd2 & _).
  set (cs3 := delete_mutation cs2 h (m_version m)) in *.
  set (ck2 := applied ck m) in *.
  assert (Hck2 : chunk cs3 !! h = Some ck2)
    by (rewrite Hc2; apply lookup_insert_eq).
  assert (Hms2 : ck_mutations ck2 = ∅).
  { unfold ck2, applied. simpl.
    by rewrite Hbuf, delete_insert_eq, delete_empty. }
  assert (Hloop : doMutation_loop (S (S fuel)) cs h [] = Returns (cs3, None)).
  { rewrite (doMutation_loop_next _ _ _ _ ck m cs2); [|done| |done].
    - apply (doMutation_loop_break _ _ _ _ ck2); [done|].
      by rewrite Hms2, lookup_empty.
    - rewrite Hwv, Hbuf. apply lookup_insert_eq. }
  exists (set_chunk cs3 h (resync ck2)), (resync ck2).
  destruct (resync_fields ck2) as (Rv & Rl & Rm & Re & _).
  split.
  { unfold doMutation. rewrite Hck, Hloop.
    unfold mbind, exec_bind. cbn [fst snd]. by rewrite Hck2. }
  split; [apply lookup_insert_eq|].
  rewrite Rv, Rl, Rm, (Re Hms2).
  split; [done|]. split; [done|]. split; [done|]. split; [done|].
  split; [apply delete_mutation_disk | exact Hd2].
Qed.

(** X21.  Primary and secondary agree after a record append.  Take a
    primary and a secondary that hold the chunk at rest at the same version
    and length, with the same file, and that both have the record staged.
    [RPCAppendChunk] on the primary hands one [ApplyMutationArg] to
    [CallAll]; when the secondaries accept it, the primary returns without
    error, and [RPCApplyMutation] with this argument on the secondary
    returns without error and leaves the same record of the chunk and the
    same file as the primary has, one version up and with an empty buffer -
    for an append that fits as for one that pads the chunk. *)
Theorem append_replicas_agree (fuel : nat) (pr sd : ChunkServer)
  (id : DataBufferID) (secs : list string) (data : list byte)
  (ckP ckS : chunkInfo) :
  dl pr !! id = Some data ->
  dl sd !! id = Some data ->
  len data <= MaxAppendSize ->
  1 <= MaxChunkSize ->
  MaxChunkSize + MaxAppendSize < 2 ^ 63 ->
  chunk pr !! Handle id = Some ckP ->
  chunk sd !! Handle id = Some ckS ->
  ck_mutations ckP = ∅ ->
  ck_mutations ckS = ∅ ->
  ck_newestVersion ckP = ck_version ckP ->
  ck_version ckS = ck_version ckP ->
  ck_length ckS = ck_length ckP ->
  0 <= ck_length ckP <= MaxChunkSize ->
  - 2 ^ 63 <= ck_version ckP < 2 ^ 63 - 2 ->
  open_create (disk sd) (Handle id) = open_create (disk pr) (Handle id) ->
  exists a pr' sd' reply ckP' ckS',
    (forall callAll,
       callAll a = None ->
       RPCAppendChunk (S (S fuel)) pr (mkAppendChunkArg id secs) [] callAll
       = Returns (pr', reply, None)) /\
    RPCApplyMutation (S (S fuel)) sd a [] = Returns (sd', None) /\
    am_DataID a = id /\
    am_Version a = ck_version ckP + 1 /\
    am_Offset a = ar_Offset reply /\
    chunk pr' !! Handle id = Some ckP' /\
    chunk sd' !! Handle id = Some ckS' /\
    ck_version ckP' = ck_version ckP + 1 /\
    ck_version ckS' = ck_version ckP' /\
    ck_length ckS' = ck_length ckP' /\
    ck_mutations ckP' = ∅ /\
    ckS' = ckP' /\
    is_Some (disk pr' !! Handle id) /\
    disk sd' !! Handle id = disk pr' !! Handle id.
Proof.
  intros HdlP HdlS Hfit Hmax Hsum HckP HckS HemptyP HemptyS HsyncP Hver
    Hlength Hlen Hrange Hfile.
  pose proof (len_nonneg data) as Hd.
  set (h := Handle id) in *. set (v := ck_version ckP + 1).
  set (newLen := ck_length ckP + len data).
  set (pad := MaxChunkSize <? newLen).
  set (mtype := if pad then MutationPad else MutationAppend).
  set (length' := if pad then MaxChunkSize else newLen).
  set (code := if pad then AppendExceedChunkSize else Success).
  set (m := mkMutation mtype v data (ck_length ckP)).
  set (reply := mkAppendChunkReply (ck_length ckP) code).
  set (ck1 := mkChunkInfo length' (ck_version ckP) v (<[v := m]> ∅)).
  assert (Hwv : wrap64 (ck_version ckP + 1) = v)
    by (apply wrap64_id; unfold int64; lia).
  assert (Hlocked : RPCAppendChunk_locked ckP data
                    = (ck1, mtype, reply, Ok v)).
  { unfold RPCAppendChunk_locked, nextVersion.
    rewrite (wrap64_id (ck_length ckP + len data)) by (unfold int64; lia).
    fold newLen pad. unfold ck1, m, reply, mtype, length', code.
    destruct pad; simpl;
      by rewrite HsyncP, Hwv, HemptyP, lookup_empty. }
  assert (Hoff : 0 <= (if decide (m_mtype m = MutationPad)
                       then MaxChunkSize - 1 else m_offset m)).
  { destruct (decide (m_mtype m = MutationPad)); simpl; lia. }
  (* the primary *)
  set (p0 := set_dl pr (delete id (dl pr))).
  set (p1 := set_chunk p0 h ck1).
  assert (Hp1 : chunk p1 !! h = Some ck1) by apply lookup_insert_eq.
  destruct (write_of_disk p1 h ck1 m Hp1 Hoff) as (p2 & HwP & HdiskP).
  destruct (drain_single fuel p1 h ck1 m p2 Hp1 eq_refl eq_refl Hrange HwP)
    as (p3 & ckP' & HdrP & HckP' & HvP & HnP & HmP & HlP & HdP & _).
  (* the secondary *)
  set (a := mkApplyMutationArg mtype v id (ck_length ckP)).
  set (ckS1 := mkChunkInfo (ck_length ckS) (ck_version ckS)
                 (ck_newestVersion ckS) (<[v := m]> ∅)).
  set (s0 := set_dl sd (delete id (dl sd))).
  set (s1 := set_chunk s0 h ckS1).
  assert (Hs1 : chunk s1 !! h = Some ckS1) by apply lookup_insert_eq.
  destruct (write_of_disk s1 h ckS1 m Hs1 Hoff) as (s2 & HwS & HdiskS).
  destruct (drain_single fuel s1 h ckS1 m s2 Hs1 eq_refl
              ltac:(simpl; lia) ltac:(simpl; lia) HwS)
    as (s3 & ckS' & HdrS & HckS' & HvS & HnS & HmS & HlS & HdS & _).
  exists a, (add_pending p3 h), s3, reply, ckP', ckS'.
  split; [|split].
  { intros callAll Hcall. unfold RPCAppendChunk. cbn [ac_DataID].
    rewrite (deleteDownloadedData_present _ _ _ HdlP). fold p0 h.
    destruct (Z.ltb_spec MaxAppendSize (len data)) as [?|_]; [lia|].
    change (chunk p0 !! h) with (chunk pr !! h). rewrite HckP, Hlocked.
    fold p1. rewrite HdrP. unfold mbind, exec_bind. cbn [fst snd].
    change (mkApplyMutationArg mtype v id (ar_Offset reply)) with a.
    by rewrite Hcall. }
  { unfold RPCApplyMutation. cbn [am_DataID am_Mtype am_Version am_Offset a].
    rewrite (deleteDownloadedData_present _ _ _ HdlS). fold s0 h.
    change (chunk s0 !! h) with (chunk sd !! h). rewrite HckS.
    unfold RPCApplyMutation_locked. fold m. cbn [m_version m].
    rewrite HemptyS, lookup_empty. fold ckS1 s1. exact HdrS. }
  split; [done|]. split; [done|]. split; [done|].
  split; [exact HckP'|]. split; [exact HckS'|].
  split; [exact HvP|]. split; [by rewrite HvS, HvP|].
  assert (Hlen' : ck_length ckS' = ck_length ckP').
  { rewrite HlS, HlP. unfold applied, ckS1, ck1. simpl.
    rewrite Hlength. unfold length', mtype, pad.
    change (len [x00]) with 1.
    replace (MaxChunkSize - 1 + 1) with MaxChunkSize by lia.
    rewrite (wrap64_id MaxChunkSize) by (unfold int64; lia).
    rewrite (wrap64_id (ck_length ckP + len data)) by (unfold int64; lia).
    fold newLen.
    destruct (Z.ltb_spec MaxChunkSize newLen); simpl;
      repeat match goal with
             | |- context [?x <? ?y] => destruct (Z.ltb_spec x y)
             end; unfold newLen in *; lia. }
  split; [exact Hlen'|].
  split; [exact HmP|].
  split.
  { destruct ckS', ckP'. simpl in *. congruence. }
  cbn [disk add_pending]. rewrite HdP, HdS, HdiskP, HdiskS.
  split; [by eexists|].
  change (open_create (disk s1) h) with (open_create (disk sd) h).
  change (open_create (disk p1) h) with (open_create (disk pr) h).
  by rewrite Hfile.
Qed.

(** X22.  Primary and secondary agree after a write.  Take a primary and
    a secondary that hold the chunk at rest at the same version and length,
    with the same file, and that both have the data staged.  [RPCWriteChunk]
    at an offset [0 <= offset] with [offset + len(data) <= MaxChunkSize]
    hands one [ApplyMutationArg] to [CallAll]; when the secondaries accept
    it, the primary returns without error, and [RPCApplyMutation] with this
    argument on the secondary returns without error and leaves the same
    record of the chunk and the same file as the primary has. *)
Theorem write_replicas_agree (fuel : nat) (pr sd : ChunkServer)
  (id : DataBufferID) (offset : Z) (secs : list string) (data : list byte)
  (ckP ckS : chunkInfo) :
  dl pr !! id = Some data ->
  dl sd !! id = Some data ->
  0 <= offset ->
  offset + len data <= MaxChunkSize ->
  MaxChunkSize < 2 ^ 63 ->
  chunk pr !! Handle id = Some ckP ->
  chunk sd !! Handle id = Some ckS ->
  ck_mutations ckP = ∅ ->
  ck_mutations ckS = ∅ ->
  ck_newestVersion ckP = ck_version ckP ->
  ck_version ckS = ck_version ckP ->
  ck_length ckS = ck_length ckP ->
  - 2 ^ 63 <= ck_version ckP < 2 ^ 63 - 2 ->
  open_create (disk sd) (Handle id) = open_create (disk pr) (Handle id) ->
  exists a pr' sd' ckP' ckS',
    (forall callAll,
       callAll a = None ->
       RPCWriteChunk (S (S fuel)) pr (mkWriteChunkArg id offset secs) []
         callAll = Returns (pr', None)) /\
    RPCApplyMutation (S (S fuel)) sd a [] = Returns (sd', None) /\
    a = mkApplyMutationArg MutationWrite (ck_version ckP + 1) id offset /\
    chunk pr' !! Handle id = Some ckP' /\
    chunk sd' !! Handle id = Some ckS' /\
    ck_version ckP' = ck_version ckP + 1 /\
    ck_version ckS' = ck_version ckP' /\
    ck_length ckP' = Z.max (ck_length ckP) (offset + len data) /\
    ck_length ckS' = ck_length ckP' /\
    ck_mutations ckP' = ∅ /\
    ckS' = ckP' /\
    disk pr' !! Handle id
      = Some (write_at (open_create (disk pr) (Handle id)) offset data) /\
    disk sd' !! Handle id = disk pr' !! Handle id.
Proof.
  intros HdlP HdlS Hoff Hfit Hmax HckP HckS HemptyP HemptyS HsyncP Hver
    Hlength Hrange Hfile.
  pose proof (len_nonneg data) as Hd.
  set (h := Handle id) in *. set (v := ck_version ckP + 1).
  assert (Hnew : wrap64 (offset + len data) = offset + len data)
    by (apply wrap64_id; unfold int64; lia).
  set (newLen := offset + len data) in *.
  set (length' := if ck_length ckP <? newLen then newLen else ck_length ckP).
  set (m := mkMutation MutationWrite v data offset).
  set (ck1 := mkChunkInfo length' (ck_version ckP) v (<[v := m]> ∅)).
  assert (Hwv : wrap64 (ck_version ckP + 1) = v)
    by (apply wrap64_id; unfold int64; lia).
  assert (Hlocked : RPCWriteChunk_locked ckP newLen data offset
                    = (ck1, Ok v)).
  { unfold RPCWriteChunk_locked, nextVersion. simpl.
    by rewrite HsyncP, Hwv, HemptyP, lookup_empty. }
  assert (Hoff' : 0 <= (if decide (m_mtype m = MutationPad)
                        then MaxChunkSize - 1 else m_offset m)).
  { destruct (decide (m_mtype m = MutationPad)); [done | simpl; lia]. }
  set (p0 := set_dl pr (delete id (dl pr))).
  set (p1 := set_chunk p0 h ck1).
  assert (Hp1 : chunk p1 !! h = Some ck1) by apply lookup_insert_eq.
  destruct (write_of_disk p1 h ck1 m Hp1 Hoff') as (p2 & HwP & HdiskP).
  destruct (drain_single fuel p1 h ck1 m p2 Hp1 eq_refl eq_refl Hrange HwP)
    as (p3 & ckP' & HdrP & HckP' & HvP & HnP & HmP & HlP & HdP & _).
  set (a := mkApplyMutationArg MutationWrite v id offset).
  set (ckS1 := mkChunkInfo (ck_length ckS) (ck_version ckS)
                 (ck_newestVersion ckS) (<[v := m]> ∅)).
  set (s0 := set_dl sd (delete id (dl sd))).
  set (s1 := set_chunk s0 h ckS1).
  assert (Hs1 : chunk s1 !! h = Some ckS1) by apply lookup_insert_eq.
  destruct (write_of_disk s1 h ckS1 m Hs1 Hoff') as (s2 & HwS & HdiskS).
  destruct (drain_single fuel s1 h ckS1 m s2 Hs1 eq_refl
              ltac:(simpl; lia) ltac:(simpl; lia) HwS)
    as (s3 & ckS' & HdrS & HckS' & HvS & HnS & HmS & HlS & HdS & _).
  rewrite decide_False in HdiskP, HdiskS by done.
  exists a, (add_pending p3 h), s3, ckP', ckS'.
  split; [|split].
  { intros callAll Hcall. unfold RPCWriteChunk. cbn [wc_DataID wc_Offset].
    rewrite (deleteDownloadedData_present _ _ _ HdlP). fold p0 h newLen.
    rewrite Hnew.
    destruct (Z.ltb_spec MaxChunkSize newLen) as [?|_]; [lia|].
    change (chunk p0 !! h) with (chunk pr !! h). rewrite HckP, Hlocked.
    fold p1. rewrite HdrP. unfold mbind, exec_bind. cbn [fst snd].
    fold a. by rewrite Hcall. }
  { unfold RPCApplyMutation. cbn [am_DataID am_Mtype am_Version am_Offset a].
    rewrite (deleteDownloadedData_present _ _ _ HdlS). fold s0 h.
    change (chunk s0 !! h) with (chunk sd !! h). rewrite HckS.
    unfold RPCApplyMutation_locked. fold m. cbn [m_version m].
    rewrite HemptyS, lookup_empty. fold ckS1 s1. exact HdrS. }
  split; [done|].
  split; [exact HckP'|]. split; [exact HckS'|].
  split; [exact HvP|]. split; [by rewrite HvS, HvP|].
  assert (HlenP : ck_length ckP' = Z.max (ck_length ckP) newLen).
  { rewrite HlP. unfold applied, ck1. simpl. fold newLen. rewrite Hnew.
    unfold length'.
    destruct (Z.ltb_spec (ck_length ckP) newLen);
      match goal with
      | |- context [?x <? ?y] => destruct (Z.ltb_spec x y)
      end; lia. }
  split; [exact HlenP|].
  assert (Hlen' : ck_length ckS' = ck_length ckP').
  { rewrite HlenP, HlS. unfold applied, ckS1. simpl. fold newLen.
    rewrite Hnew, Hlength.
    destruct (Z.ltb_spec (ck_length ckP) newLen); lia. }
  split; [exact Hlen'|].
  split; [exact HmP|].
  split.
  { destruct ckS', ckP'. simpl in *. congruence. }
  cbn [disk add_pending]. rewrite HdP, HdS, HdiskP, HdiskS.
  change (open_create (disk s1) h) with (open_create (disk sd) h).
  change (open_create (disk p1) h) with (open_create (disk pr) h).
  by rewrite Hfile.
Qed.

(** *** The runs of [Client.Write] *)

Lemma WriteChunk_attempt (w : World) (handle chunkOffset : Z)
  (piece : list byte) (tr tr' : list event) (x : exec (option error)) :
  wrap64 (len piece + chunkOffset) <= MaxChunkSize ->
  WriteChunk w handle chunkOffset piece tr = (x, tr') ->
  exists evs ok,
    tr' = tr ++ evs /\ write_attempt handle chunkOffset piece evs ok /\
    x = Returns (if ok then None else Some RpcError).
Proof.
  intros Hfit. unfold WriteChunk.
  destruct (Z.ltb_spec MaxChunkSize (wrap64 (len piece + chunkOffset)))
    as [?|_]; [lia|].
  client_step.
  destruct (net w _ _ (MasterGetPrimaryAndSecondaries handle)) as [l|].
  2:{ intros [= <- <-]. eexists _, false.
      split; [done|]. split; [constructor|done]. }
  destruct (net w _ _ (ChunkServerPushDataAndForward _ _ _ _)) as [id|].
  2:{ intros [= <- <-]. eexists _, false. rewrite <- app_assoc.
      split; [done|]. split; [constructor|done]. }
  destruct (net w _ _ (ChunkServerWriteChunk _ _)) as [[]|].
  - intros [= <- <-]. eexists _, true. rewrite <- !app_assoc.
    split; [done|]. split; [apply wa_committed|done].
  - intros [= <- <-]. eexists _, false. rewrite <- !app_assoc.
    split; [done|]. split; [apply wa_no_commit|done].
Qed.

Lemma Write_retry_slice (w : World) (handle chunkOffset : Z)
  (piece : list byte) (fuel : nat) :
  wrap64 (len piece + chunkOffset) <= MaxChunkSize ->
  forall tr tr' r,
    Write_retry fuel w handle chunkOffset piece tr = (Returns r, tr') ->
    exists evs,
      tr' = tr ++ evs /\ write_slice handle chunkOffset piece evs /\
      r = None.
Proof.
  intros Hfit. induction fuel as [|fuel IH]; intros tr tr' r; [done|].
  simpl. unfold mbind, client_bind.
  destruct (WriteChunk w handle chunkOffset piece tr) as [x tr1] eqn:Hatt.
  destruct (WriteChunk_attempt _ _ _ _ _ _ _ Hfit Hatt)
    as (evs & ok & -> & Hev & ->).
  destruct ok.
  - unfold mret, client_ret. intros [= <- <-].
    exists evs. split; [done|]. split; [by apply ws_committed|done].
  - intros Hrest. destruct (IH _ _ _ Hrest) as (evs' & -> & Hs & ->).
    exists (evs ++ evs'). rewrite app_assoc.
    split; [done|]. split; [by eapply ws_retry|done].
Qed.

Lemma Write_retry_returns (w : World) (handle chunkOffset : Z)
  (piece : list byte) (fuel : nat) (tr : list event) :
  (forall R n c, is_Some (net w R n c)) ->
  wrap64 (len piece + chunkOffset) <= MaxChunkSize ->
  exists tr',
    Write_retry (S fuel) w handle chunkOffset piece tr = (Returns None, tr').
Proof.
  intros Hnet Hfit. cbn [Write_retry]. unfold WriteChunk.
  destruct (Z.ltb_spec MaxChunkSize (wrap64 (len piece + chunkOffset)))
    as [?|_]; [lia|].
  client_step.
  destruct (Hnet _ (List.length tr)
              (MasterGetPrimaryAndSecondaries handle)) as [l ->].
  destruct (Hnet _ (List.length
                      (tr ++ [Ev (MasterGetPrimaryAndSecondaries handle)
                                (Some l)]))
              (ChunkServerPushDataAndForward (ps_Primary l) handle piece
                 (ps_Secondaries l))) as [id ->].
  match goal with
  | |- context [net w unit ?n ?c] => destruct (Hnet unit n c) as [[] ->]
  end.
  by eexists.
Qed.

Lemma Write_loop_protocol (w : World) (path : string) (data : list byte)
  (fuel : nat) :
  0 < MaxChunkSize ->
  len data + MaxChunkSize < 2 ^ 63 ->
  forall offset begin tr tr' r,
    0 <= offset -> 0 <= begin <= len data ->
    offset + (len data - begin) < 2 ^ 63 ->
    Write_loop fuel w path offset begin data tr = (Returns r, tr') ->
    exists evs,
      tr' = tr ++ evs /\
      write_protocol path offset (drop (Z.to_nat begin) data) evs r.
Proof.
  intros Hmax Hsum. induction fuel as [|fuel IH];
    intros offset begin tr tr' r Hoff Hbegin Hend; [done|].
  cbn [Write_loop].
  rewrite (Z.quot_div_nonneg offset MaxChunkSize) by lia.
  rewrite (Z.rem_mod_nonneg offset MaxChunkSize) by lia.
  pose proof (Z.mod_pos_bound offset MaxChunkSize Hmax) as Hco.
  set (co := offset mod MaxChunkSize) in *.
  pose proof (len_nonneg data) as Hd.
  rewrite (wrap64_id (MaxChunkSize - co)) by (unfold int64; lia).
  rewrite (wrap64_id (begin + (MaxChunkSize - co))) by (unfold int64; lia).
  rewrite (wrap64_id (len data - begin)) by (unfold int64; lia).
  set (writeLen := if len data <? begin + (MaxChunkSize - co)
                   then len data - begin else MaxChunkSize - co).
  assert (Hwl : writeLen = Z.min (len data - begin) (MaxChunkSize - co)).
  { unfold writeLen.
    destruct (Z.ltb_spec (len data) (begin + (MaxChunkSize - co))); lia. }
  clearbody writeLen.
  rewrite (wrap64_id (begin + writeLen)) by (unfold int64; lia).
  rewrite (wrap64_id (offset + writeLen)) by (unfold int64; lia).
  set (rest := drop (Z.to_nat begin) data).
  assert (Hrest : len rest = len data - begin).
  { unfold rest, len in *. rewrite length_drop. lia. }
  set (piece := take (Z.to_nat writeLen) rest).
  assert (Hpiece : len piece = writeLen).
  { unfold piece, len in *. rewrite length_take. lia. }
  unfold GetChunkHandle. client_step.
  destruct (net w _ _ (MasterGetChunkHandle path (offset / MaxChunkSize)))
    as [handle|]; simpl.
  2:{ intros [= <- <-]. eexists. split; [done|]. constructor. }
  destruct (decide (0 <= begin <= begin + writeLen
                    /\ begin + writeLen <= len data)) as [_|Hbad];
    [|exfalso; lia].
  set (tr1 := tr ++ [Ev (MasterGetChunkHandle path (offset / MaxChunkSize))
                       (Some handle)]).
  destruct (Write_retry fuel w handle co piece tr1)
    as [[e| |] tr2] eqn:Hretry; [|done..].
  destruct (Write_retry_slice w handle co piece fuel
              ltac:(rewrite wrap64_id by (unfold int64; lia); lia)
              _ _ _ Hretry) as (evs & -> & Hslice & ->).
  destruct (decide (begin + writeLen = len data)) as [Hlast|Hmore].
  - intros [= <- <-].
    exists (Ev (MasterGetChunkHandle path (offset / MaxChunkSize))
              (Some handle) :: evs).
    split; [unfold tr1; by rewrite <- !app_assoc|].
    assert (Hall : piece = rest).
    { unfold piece. apply take_ge. unfold len in *. lia. }
    rewrite Hall in Hslice. apply wp_last; [fold co; lia | exact Hslice].
  - intros Hloop.
    destruct (IH (offset + writeLen) (begin + writeLen) _ _ _
                ltac:(lia) ltac:(lia) ltac:(lia) Hloop)
      as (more & -> & Hp).
    exists (Ev (MasterGetChunkHandle path (offset / MaxChunkSize))
              (Some handle) :: evs ++ more).
    split; [unfold tr1; by rewrite <- !app_assoc|].
    assert (Hw : writeLen = MaxChunkSize - co) by lia.
    apply wp_more; fold co.
    + lia.
    + rewrite <- Hw. exact Hslice.
    + rewrite <- Hw.
      replace (drop (Z.to_nat writeLen) rest)
        with (drop (Z.to_nat (begin + writeLen)) data); [exact Hp|].
      unfold rest. rewrite drop_drop. f_equal. lia.
Qed.

Lemma Write_loop_returns (w : World) (path : string) (data : list byte)
  (fuel : nat) :
  0 < MaxChunkSize ->
  len data + MaxChunkSize < 2 ^ 63 ->
  (forall R n c, is_Some (net w R n c)) ->
  forall offset begin tr,
    0 <= offset -> 0 <= begin <= len data ->
    offset + (len data - begin) < 2 ^ 63 ->
    len data - begin + 1 < Z.of_nat fuel ->
    exists tr', Write_loop fuel w path offset begin data tr
                = (Returns None, tr').
Proof.
  intros Hmax Hsum Hnet. induction fuel as [|fuel IH];
    intros offset begin tr Hoff Hbegin Hend Hfuel; [lia|].
  cbn [Write_loop].
  rewrite (Z.rem_mod_nonneg offset MaxChunkSize) by lia.
  pose proof (Z.mod_pos_bound offset MaxChunkSize Hmax) as Hco.
  set (co := offset mod MaxChunkSize) in *.
  pose proof (len_nonneg data) as Hd.
  rewrite (wrap64_id (MaxChunkSize - co)) by (unfold int64; lia).
  rewrite (wrap64_id (begin + (MaxChunkSize - co))) by (unfold int64; lia).
  rewrite (wrap64_id (len data - begin)) by (unfold int64; lia).
  set (writeLen := if len data <? begin + (MaxChunkSize - co)
                   then len data - begin else MaxChunkSize - co).
  assert (Hwl : writeLen = Z.min (len data - begin) (MaxChunkSize - co)).
  { unfold writeLen.
    destruct (Z.ltb_spec (len data) (begin + (MaxChunkSize - co))); lia. }
  clearbody writeLen.
  rewrite (wrap64_id (begin + writeLen)) by (unfold int64; lia).
  rewrite (wrap64_id (offset + writeLen)) by (unfold int64; lia).
  set (piece := take (Z.to_nat writeLen) (drop (Z.to_nat begin) data)).
  assert (Hpiece : len piece = writeLen).
  { unfold piece, len in *. rewrite length_take, length_drop. lia. }
  unfold GetChunkHandle. client_step.
  destruct (Hnet _ (List.length tr)
              (MasterGetChunkHandle path (Z.quot offset MaxChunkSize)))
    as [handle ->]. simpl.
  destruct (decide (0 <= begin <= begin + writeLen
                    /\ begin + writeLen <= len data)) as [_|Hbad];
    [|exfalso; lia].
  destruct fuel as [|fuel']; [lia|].
  match goal with
  | |- context [Write_retry _ w handle co piece ?t] =>
    destruct (Write_retry_returns w handle co piece fuel' t Hnet
                ltac:(rewrite wrap64_id by (unfold int64; lia); lia))
      as [tr2 ->]
  end.
  destruct (decide (begin + writeLen = len data)) as [Hlast|Hmore].
  - by eexists.
  - apply IH; lia.
Qed.

(** X23.  [Client.Write] slice by slice, for [0 <= offset] and sizes that
    do not overflow.  Every returning run asks for the file, is refused on
    the offset check or goes through the chunks from the one of [offset]
    on: each chunk is asked for by its index, the slice that fits up to the
    end of the chunk is pushed and committed at its offset in the chunk,
    again and again until a commit succeeds, and the run goes on at the
    start of the next chunk with what is left.  The only errors it returns
    are those of the calls to the master and of the offset check.  When
    every call is answered, it returns nil. *)
Theorem Write_follows_protocol (w : World) (path : string) (offset : Z)
  (data : list byte) :
  0 < MaxChunkSize ->
  0 <= offset ->
  offset + len data < 2 ^ 63 ->
  len data + MaxChunkSize < 2 ^ 63 ->
  (forall fuel res tr,
     Write fuel w path offset data [] = (Returns res, tr) ->
     (tr = [Ev (MasterGetFileInfo path) None] /\ res = Some RpcError) \/
     exists chunks rest,
       tr = Ev (MasterGetFileInfo path) (Some chunks) :: rest /\
       ((chunks < offset / MaxChunkSize /\ rest = [] /\
         res = Some WriteOffsetExceeds) \/
        (offset / MaxChunkSize <= chunks /\
         write_protocol path offset data rest res))) /\
  (forall fuel chunks,
     (forall R n c, is_Some (net w R n c)) ->
     net w Z 0%nat (MasterGetFileInfo path) = Some chunks ->
     offset / MaxChunkSize <= chunks ->
     len data + 1 < Z.of_nat fuel ->
     (Write fuel w path offset data []).1 = Returns None).
Proof.
  intros Hmax Hoff Hend Hsum.
  pose proof (len_nonneg data) as Hd. split.
  - intros fuel res tr. unfold Write. client_step.
    destruct (net w Z 0%nat (MasterGetFileInfo path)) as [chunks|].
    2:{ intros [= <- <-]. by left. }
    rewrite (Z.quot_div_nonneg offset MaxChunkSize) by lia.
    intros Hrun. right. exists chunks.
    destruct (Z.ltb_spec chunks (offset / MaxChunkSize)) as [Hlt|Hge].
    + injection Hrun as <- <-. exists []. split; [done|]. by left.
    + destruct (Write_loop_protocol w path data fuel Hmax Hsum offset 0
                  _ _ _ Hoff ltac:(lia) ltac:(lia) Hrun)
        as (evs & -> & Hp).
      exists evs. split; [done|]. right. split; [done|].
      by rewrite drop_0 in Hp.
  - intros fuel chunks Hnet Hinfo Hge Hfuel. unfold Write. client_step.
    rewrite Hinfo.
    rewrite (Z.quot_div_nonneg offset MaxChunkSize) by lia.
    destruct (Z.ltb_spec chunks (offset / MaxChunkSize)) as [Hlt|_]; [lia|].
    destruct (Write_loop_returns w path data fuel Hmax Hsum Hnet offset 0
                [Ev (MasterGetFileInfo path) (Some chunks)]
                Hoff ltac:(lia) ltac:(lia) ltac:(lia)) as [tr' ->].
    done.
Qed.

(** *** The results of [Client.Read] *)

Lemma ReadChunk_result (w : World) (handle offset dataLen : Z)
  (tr tr' : list event) (r : Z * option error) :
  ReadChunk w handle offset dataLen tr = (Returns r, tr') ->
  r.2 = None \/ r.2 = Some (GfsError UnknownError)
  \/ r.2 = Some (GfsError ReadEOF).
Proof.
  unfold ReadChunk. client_step.
  destruct (net w _ _ (MasterGetReplicas handle)) as [locations|];
    [|intros [= <- <-]; auto].
  unfold RandInt. simpl.
  destruct (decide (len locations = 0)); [done|].
  destruct (locations !! _) as [loc|]; [|done]. simpl.
  destruct (net w _ _ (ChunkServerReadChunk _ _ _ _)) as [reply|];
    [|intros [= <- <-]; auto].
  destruct (decide (rr_ErrorCode reply = ReadEOF)); intros [= <- <-]; auto.
Qed.

Lemma Read_retry_result (w : World) (handle chunkOffset dataLen : Z)
  (fuel : nat) :
  forall tr tr' r,
    Read_retry fuel w handle chunkOffset dataLen tr = (Returns r, tr') ->
    r.2 = None \/ r.2 = Some (GfsError ReadEOF).
Proof.
  induction fuel as [|fuel IH]; intros tr tr' r; [done|].
  cbn [Read_retry]. unfold mbind, client_bind.
  destruct (ReadChunk w handle chunkOffset dataLen tr)
    as [[r1| |] tr1] eqn:Hread; [|done..].
  destruct (ReadChunk_result _ _ _ _ _ _ _ Hread) as [Hr|[Hr|Hr]];
    rewrite Hr.
  - unfold mret, client_ret. intros [= <- <-]. by left.
  - rewrite decide_False by done. apply IH.
  - rewrite decide_True by done.
    unfold mret, client_ret. intros [= <- <-]. by right.
Qed.

Lemma Read_loop_result (w : World) (path : string) (dataLen : Z)
  (fuel : nat) :
  forall offset pos tr tr' n err,
    Read_loop fuel w path offset pos dataLen tr = (Returns (n, err), tr') ->
    (n, err) = (0, Some RpcError) \/ err = Some EOF
    \/ (err = None /\ n = dataLen).
Proof.
  induction fuel as [|fuel IH]; intros offset pos tr tr' n err; [done|].
  cbn [Read_loop]. unfold GetChunkHandle. client_step.
  destruct (net w _ _ (MasterGetChunkHandle path _)) as [handle|]; simpl;
    [|intros [= <- <-]; by left].
  destruct (decide (0 <= pos <= dataLen)); [|done].
  destruct (Read_retry fuel w handle _ _ _) as [[r| |] tr1] eqn:Hretry;
    [|done..].
  destruct (Read_retry_result _ _ _ _ _ _ _ _ Hretry) as [Hr|Hr];
    rewrite Hr.
  - destruct (decide (wrap64 (pos + r.1) = dataLen)) as [Hfull|_].
    + intros [= <- <-]. right. right. done.
    + apply IH.
  - rewrite decide_True by done. intros [= <- <-]. right. by left.
Qed.

(** X24.  The results of [Client.Read].  A run that returns ends in one of
    five ways: the call for the file failed or the offset check refused
    (count -1); a chunk could not be resolved (count 0, whatever had been
    read before); a chunk server answered with the end-of-file code, which
    comes back as [io.EOF]; or the error is nil, and then the count is
    [len(data)].  An error of a chunk server other than the end of the file
    is never returned: the chunk is read again.  A read that fits into one
    chunk and is answered in full returns [len(data)] and nil. *)
Theorem Read_results (w : World) (path : string) (offset dataLen : Z) :
  (forall fuel n err tr,
     Read fuel w path offset dataLen [] = (Returns (n, err), tr) ->
     (n, err) = (-1, Some RpcError) \/
     (n, err) = (-1, Some ReadOffsetExceeds) \/
     (n, err) = (0, Some RpcError) \/
     err = Some EOF \/
     (err = None /\ n = dataLen)) /\
  (forall fuel chunks handle locations loc reply,
     0 < MaxChunkSize < 2 ^ 63 ->
     0 <= offset -> 0 <= dataLen ->
     offset mod MaxChunkSize + dataLen <= MaxChunkSize ->
     net w Z 0%nat (MasterGetFileInfo path) = Some chunks ->
     offset / MaxChunkSize <= chunks ->
     net w Z 1%nat (MasterGetChunkHandle path (offset / MaxChunkSize))
       = Some handle ->
     net w _ 2%nat (MasterGetReplicas handle) = Some locations ->
     locations !! Z.to_nat (Z.rem (randInt w 3) (len locations)) = Some loc ->
     net w _ 3%nat
       (ChunkServerReadChunk loc handle (offset mod MaxChunkSize) dataLen)
       = Some reply ->
     rr_Length reply = dataLen ->
     rr_ErrorCode reply <> ReadEOF ->
     (Read (S (S fuel)) w path offset dataLen []).1
     = Returns (dataLen, None)).
Proof.
  split.
  - intros fuel n err tr. unfold Read. client_step.
    destruct (net w Z 0%nat (MasterGetFileInfo path)) as [chunks|];
      [|intros [= <- <-]; auto].
    destruct (chunks <? Z.quot offset MaxChunkSize);
      [intros [= <- <-]; auto|].
    intros Hloop.
    destruct (Read_loop_result _ _ _ _ _ _ _ _ _ _ Hloop) as [?|[?|?]];
      auto.
  - intros fuel chunks handle locations loc reply Hmax Hoff Hlen Hfit
      Hinfo Hge Hhandle Hlocs Hloc Hreply Hfull Hcode.
    pose proof (Z.mod_pos_bound offset MaxChunkSize ltac:(lia)) as Hco.
    assert (Hne : len locations <> 0).
    { intros Hz. destruct locations; [done | unfold len in Hz; simpl in Hz;
                                            lia]. }
    assert (Hrl : (if dataLen - 0 <? MaxChunkSize - offset mod MaxChunkSize
                   then dataLen - 0
                   else MaxChunkSize - offset mod MaxChunkSize) = dataLen).
    { destruct (Z.ltb_spec (dataLen - 0)
                  (MaxChunkSize - offset mod MaxChunkSize)); lia. }
    remember (S fuel) as fuel1 eqn:Hfuel1.
    unfold Read, mbind, client_bind, Call. cbn [List.length].
    rewrite Hinfo.
    rewrite (Z.quot_div_nonneg offset MaxChunkSize) by lia.
    destruct (Z.ltb_spec chunks (offset / MaxChunkSize)); [lia|].
    cbn [Read_loop].
    rewrite (Z.quot_div_nonneg offset MaxChunkSize) by lia.
    rewrite (Z.rem_mod_nonneg offset MaxChunkSize) by lia.
    unfold GetChunkHandle, mbind, client_bind, mret, client_ret, Call.
    cbn [List.length app]. rewrite Hhandle. cbn [fst snd].
    destruct (decide (0 <= 0 <= dataLen)); [|lia].
    subst fuel1. cbn [Read_retry].
    unfold ReadChunk, RandInt, mbind, client_bind, mret, client_ret, Call.
    rewrite (wrap64_id (MaxChunkSize - offset mod MaxChunkSize))
      by (unfold int64; lia).
    rewrite Hrl. cbn [List.length app]. rewrite Hlocs.
    rewrite decide_False by done.
    cbn [List.length app]. rewrite Hloc.
    cbn [List.length app]. rewrite Hreply.
    rewrite decide_False by done.
    cbn [fst snd].
    rewrite Hfull, Z.add_0_l, (wrap64_id dataLen) by (unfold int64; lia).
    by rewrite decide_True.
Qed.

(** X25.  [Client.ReadChunk] for an offset within the chunk.  When the
    master names no replica, the choice of one divides by zero and the
    client panics.  Otherwise one of the replicas that the master named is
    asked, for the chunk and offset given and for [len(data)] bytes or, if
    that is less, the bytes up to the end of the chunk: the request never
    reaches past [MaxChunkSize]. *)
Theorem ReadChunk_request (w : World) (handle offset dataLen : Z)
  (tr : list event) (locations : list string) :
  0 <= offset <= MaxChunkSize ->
  MaxChunkSize < 2 ^ 63 ->
  0 <= dataLen ->
  net w _ (List.length tr) (MasterGetReplicas handle) = Some locations ->
  (locations = [] ->
   ReadChunk w handle offset dataLen tr
   = (Panics, tr ++ [Ev (MasterGetReplicas handle) (Some [])])) /\
  (locations <> [] ->
   exists loc readLen reply,
     loc ∈ locations /\
     readLen = Z.min dataLen (MaxChunkSize - offset) /\
     0 <= readLen /\ offset + readLen <= MaxChunkSize /\
     (ReadChunk w handle offset dataLen tr).2
     = tr ++ [Ev (MasterGetReplicas handle) (Some locations);
              Ev (ChunkServerReadChunk loc handle offset readLen) reply]).
Proof.
  intros Hoff Hmax Hlen Hlocs.
  unfold ReadChunk, RandInt. client_step. rewrite Hlocs.
  rewrite (wrap64_id (MaxChunkSize - offset)) by (unfold int64; lia).
  split.
  - intros ->. done.
  - intros Hne. simpl.
    destruct (decide (len locations = 0)) as [Hz|_].
    { destruct locations; [done | unfold len in Hz; simpl in Hz; lia]. }
    set (i := Z.to_nat (Z.rem _ (len locations))).
    assert (Hi : (i < List.length locations)%nat).
    { unfold i, len.
      match goal with
      | |- context [Z.rem ?r _] =>
        pose proof (Z.rem_bound_abs r (Z.of_nat (List.length locations)))
      end.
      assert (0 < List.length locations)%nat
        by (destruct locations; [done | simpl; lia]).
      lia. }
    destruct (lookup_lt_is_Some_2 locations i Hi) as [loc Hloc].
    rewrite Hloc. simpl.
    set (readLen := if dataLen <? MaxChunkSize - offset then dataLen
                    else MaxChunkSize - offset).
    assert (Hrl : readLen = Z.min dataLen (MaxChunkSize - offset)).
    { unfold readLen.
      destruct (Z.ltb_spec dataLen (MaxChunkSize - offset)); lia. }
    exists loc, readLen, (net w _ (S (List.length tr))
                            (ChunkServerReadChunk loc handle offset
                               readLen)).
    split; [by eapply list_elem_of_lookup_2|].
    split; [exact Hrl|]. split; [lia|]. split; [lia|].
    rewrite length_app. simpl. rewrite Nat.add_1_r.
    destruct (net w _ _ (ChunkServerReadChunk _ _ _ _)) as [r|]; simpl.
    + destruct (decide (rr_ErrorCode r = ReadEOF)); simpl;
        by rewrite <- app_assoc.
    + by rewrite <- app_assoc.
Qed.

(** *** The order of arrival on a secondary *)

Lemma delete_mutation_chunk (cs : ChunkServer) (h v : Z) (ck : chunkInfo) :
  chunk cs !! h = Some ck ->
  chunk (delete_mutation cs h v)
  = <[h := mkChunkInfo (ck_length ck) (ck_version ck) (ck_newestVersion ck)
             (delete v (ck_mutations ck))]> (chunk cs).
Proof. intros Hck. unfold delete_mutation. by rewrite Hck. Qed.

Lemma drain_double (fuel : nat) (cs : ChunkServer) (h : Z) (ck : chunkInfo)
  (m1 m2 : Mutation) (cs2 cs4 : ChunkServer) :
  chunk cs !! h = Some ck ->
  ck_mutations ck = <[m_version m1 := m1]> (<[m_version m2 := m2]> ∅) ->
  m_version m1 = ck_version ck + 1 ->
  m_version m2 = ck_version ck + 2 ->
  - 2 ^ 63 <= ck_version ck < 2 ^ 63 - 3 ->
  write_of cs h m1 IoOk = Returns (cs2, None) ->
  write_of (delete_mutation cs2 h (m_version m1)) h m2 IoOk
    = Returns (cs4, None) ->
  exists cs' ck',
    doMutation (S (S (S fuel))) cs h [] = Returns (cs', None) /\
    chunk cs' !! h = Some ck' /\
    ck_version ck' = m_version m2 /\
    ck_newestVersion ck' = m_version m2 /\
    ck_mutations ck' = ∅ /\
    ck_length ck' = ck_length (applied (applied ck m1) m2) /\
    disk cs' = disk cs4 /\
    dl cs' = dl cs.
Proof.
  intros Hck Hbuf Hv1 Hv2 Hrange Hw1 Hw2.
  assert (Hwv1 : wrap64 (ck_version ck + 1) = m_version m1)
    by (rewrite Hv1; apply wrap64_id; unfold int64; lia).
  assert (Hwv2 : wrap64 (m_version m1 + 1) = m_version m2)
    by (rewrite Hv1, Hv2, <- Z.add_assoc; apply wrap64_id; unfold int64;
        lia).
  assert (Hwv3 : wrap64 (m_version m2 + 1) = m_version m2 + 1)
    by (apply wrap64_id; unfold int64; lia).
  destruct (write_of_returns _ _ _ _ _ _ _ Hck Hw1) as (Hc2 & _ & Hd2 & _).
  set (cs3 := delete_mutation cs2 h (m_version m1)) in *.
  set (ck2 := applied ck m1) in *.
  assert (Hck2 : chunk cs3 !! h = Some ck2)
    by (rewrite Hc2; apply lookup_insert_eq).
  assert (Hms2 : ck_mutations ck2 = <[m_version m2 := m2]> ∅).
  { unfold ck2, applied. simpl. rewrite Hbuf, delete_insert_eq.
    apply delete_id. rewrite lookup_insert_ne by lia. apply lookup_empty. }
  destruct (write_of_returns _ _ _ _ _ _ _ Hck2 Hw2) as (Hc4 & _ & Hd4 & _).
  set (cs5 := delete_mutation cs4 h (m_version m2)) in *.
  set (ck4 := applied ck2 m2) in *.
  assert (Hck4 : chunk cs5 !! h = Some ck4)
    by (rewrite Hc4; apply lookup_insert_eq).
  assert (Hms4 : ck_mutations ck4 = ∅).
  { unfold ck4, applied. cbn [ck_mutations].
    by rewrite Hms2, delete_insert_eq, delete_empty. }
  assert (Hloop : doMutation_loop (S (S (S fuel))) cs h []
                  = Returns (cs5, None)).
  { rewrite (doMutation_loop_next _ _ _ _ ck m1 cs2); [|done| |done].
    2:{ rewrite Hwv1, Hbuf. apply lookup_insert_eq. }
    fold cs3. simpl tl.
    rewrite (doMutation_loop_next _ _ _ _ ck2 m2 cs4); [|done| |done].
    2:{ change (ck_version ck2) with (m_version m1).
        rewrite Hwv2, Hms2. apply lookup_insert_eq. }
    fold cs5. apply (doMutation_loop_break _ _ _ _ ck4); [done|].
    by rewrite Hms4, lookup_empty. }
  exists (set_chunk cs5 h (resync ck4)), (resync ck4).
  destruct (resync_fields ck4) as (Rv & Rl & Rm & Re & _).
  split.
  { unfold doMutation. rewrite Hck, Hloop.
    unfold mbind, exec_bind. cbn [fst snd]. by rewrite Hck4. }
  split; [apply lookup_insert_eq|].
  rewrite Rv, Rl, Rm, (Re Hms4).
  split; [done|]. split; [done|]. split; [done|]. split; [done|].
  split; [apply delete_mutation_disk|].
  cbn [dl set_chunk]. by rewrite Hd4, Hd2.
Qed.

Lemma applied_length_eq (ck ck' : chunkInfo) (m : Mutation) :
  ck_length ck = ck_length ck' ->
  ck_length (applied ck m) = ck_length (applied ck' m).
Proof. unfold applied. simpl. by intros ->. Qed.

Lemma open_create_after (d : gmap Z (list byte)) (h : Z)
  (file : list byte) :
  d !! h = Some file -> open_create d h = file.
Proof. unfold open_create. by intros ->. Qed.

(** X26.  The order in which two consecutive mutations reach a secondary
    does not matter.  On a chunk at rest at version [v], with both data
    staged, applying the mutation of version [v + 1] and then that of
    [v + 2] writes one after the other.  Applying that of [v + 2] first
    writes nothing and keeps it in the buffer; the mutation of [v + 1] then
    makes the drain write both, in the order of their versions.  Both ways
    end with the same record of the chunk, at version [v + 2] with an empty
    buffer, the same file and the same download buffer. *)
Theorem apply_order_irrelevant (fuel : nat) (sd : ChunkServer) (h : Z)
  (id1 id2 : DataBufferID) (d1 d2 : list byte) (t1 t2 : MutationType)
  (o1 o2 : Z) (ck : chunkInfo) :
  Handle id1 = h -> Handle id2 = h -> id1 <> id2 ->
  dl sd !! id1 = Some d1 -> dl sd !! id2 = Some d2 ->
  chunk sd !! h = Some ck ->
  ck_mutations ck = ∅ ->
  - 2 ^ 63 <= ck_version ck < 2 ^ 63 - 3 ->
  1 <= MaxChunkSize ->
  (t1 <> MutationPad -> 0 <= o1) ->
  (t2 <> MutationPad -> 0 <= o2) ->
  exists s1 s12 s2 s21 ck2 ck' file,
    RPCApplyMutation (S (S (S fuel))) sd
      (mkApplyMutationArg t1 (ck_version ck + 1) id1 o1) []
      = Returns (s1, None) /\
    RPCApplyMutation (S (S (S fuel))) s1
      (mkApplyMutationArg t2 (ck_version ck + 2) id2 o2) []
      = Returns (s12, None) /\
    RPCApplyMutation (S (S (S fuel))) sd
      (mkApplyMutationArg t2 (ck_version ck + 2) id2 o2) []
      = Returns (s2, None) /\
    RPCApplyMutation (S (S (S fuel))) s2
      (mkApplyMutationArg t1 (ck_version ck + 1) id1 o1) []
      = Returns (s21, None) /\
    disk s2 = disk sd /\
    chunk s2 !! h = Some ck2 /\
    ck_version ck2 = ck_version ck /\
    is_Some (ck_mutations ck2 !! (ck_version ck + 2)) /\
    chunk s12 !! h = Some ck' /\
    chunk s21 !! h = Some ck' /\
    ck_version ck' = ck_version ck + 2 /\
    ck_mutations ck' = ∅ /\
    disk s12 !! h = Some file /\
    disk s21 !! h = Some file /\
    dl s12 = dl s21.
Proof.
  intros Hh1 Hh2 Hids Hdl1 Hdl2 Hck Hempty Hrange Hmax Ho1 Ho2.
  set (v0 := ck_version ck) in *.
  set (m1 := mkMutation t1 (v0 + 1) d1 o1).
  set (m2 := mkMutation t2 (v0 + 2) d2 o2).
  assert (Hoff1 : 0 <= (if decide (m_mtype m1 = MutationPad)
                        then MaxChunkSize - 1 else m_offset m1)).
  { destruct (decide (m_mtype m1 = MutationPad)); [lia | by apply Ho1]. }
  assert (Hoff2 : 0 <= (if decide (m_mtype m2 = MutationPad)
                        then MaxChunkSize - 1 else m_offset m2)).
  { destruct (decide (m_mtype m2 = MutationPad)); [lia | by apply Ho2]. }
  set (W1 := fun file : list byte =>
               if decide (m_mtype m1 = MutationPad)
               then write_at file (MaxChunkSize - 1) [x00]
               else write_at file (m_offset m1) (m_data m1)).
  set (W2 := fun file : list byte =>
               if decide (m_mtype m2 = MutationPad)
               then write_at file (MaxChunkSize - 1) [x00]
               else write_at file (m_offset m2) (m_data m2)).
  (* version [v + 1], then version [v + 2] *)
  set (p0 := set_dl sd (delete id1 (dl sd))).
  set (ckA := mkChunkInfo (ck_length ck) v0 (ck_newestVersion ck)
                (<[m_version m1 := m1]> ∅)).
  set (p1 := set_chunk p0 h ckA).
  assert (Hp1 : chunk p1 !! h = Some ckA) by apply lookup_insert_eq.
  destruct (write_of_disk p1 h ckA m1 Hp1 Hoff1) as (p2 & Hwp & Hdp).
  destruct (drain_single (S fuel) p1 h ckA m1 p2 Hp1 eq_refl eq_refl
              ltac:(simpl; lia) Hwp)
    as (s1 & ckB & Hrun1 & HckB & HvB & HnB & HmB & HlB & HdB & HdlB).
  assert (Hcall1 : RPCApplyMutation (S (S (S fuel))) sd
                     (mkApplyMutationArg t1 (v0 + 1) id1 o1) []
                   = Returns (s1, None)).
  { unfold RPCApplyMutation. cbn [am_DataID am_Mtype am_Version am_Offset].
    rewrite (deleteDownloadedData_present _ _ _ Hdl1). fold p0.
    rewrite Hh1. change (chunk p0 !! h) with (chunk sd !! h). rewrite Hck.
    unfold RPCApplyMutation_locked. fold m1. cbn [m_version m1].
    rewrite Hempty, lookup_empty. exact Hrun1. }
  assert (Hdl2' : dl s1 !! id2 = Some d2).
  { rewrite HdlB. cbn [dl p1 p0 set_chunk set_dl].
    by rewrite lookup_delete_ne. }
  set (q0 := set_dl s1 (delete id2 (dl s1))).
  set (ckC := mkChunkInfo (ck_length ckB) (ck_version ckB)
                (ck_newestVersion ckB) (<[m_version m2 := m2]> ∅)).
  set (q1 := set_chunk q0 h ckC).
  assert (Hq1 : chunk q1 !! h = Some ckC) by apply lookup_insert_eq.
  destruct (write_of_disk q1 h ckC m2 Hq1 Hoff2) as (q2 & Hwq & Hdq).
  destruct (drain_single (S fuel) q1 h ckC m2 q2 Hq1 eq_refl
              ltac:(simpl in *; lia) ltac:(simpl in *; lia) Hwq)
    as (s12 & ck12 & Hrun12 & Hck12 & Hv12 & Hn12 & Hm12 & Hl12 & Hd12
        & Hdl12).
  assert (Hcall12 : RPCApplyMutation (S (S (S fuel))) s1
                      (mkApplyMutationArg t2 (v0 + 2) id2 o2) []
                    = Returns (s12, None)).
  { unfold RPCApplyMutation. cbn [am_DataID am_Mtype am_Version am_Offset].
    rewrite (deleteDownloadedData_present _ _ _ Hdl2'). fold q0.
    rewrite Hh2. change (chunk q0 !! h) with (chunk s1 !! h). rewrite HckB.
    unfold RPCApplyMutation_locked. fold m2. cbn [m_version m2].
    rewrite HmB, lookup_empty. exact Hrun12. }
  (* version [v + 2], then version [v + 1] *)
  set (r0 := set_dl sd (delete id2 (dl sd))).
  set (ckD := mkChunkInfo (ck_length ck) v0 (ck_newestVersion ck)
                (<[m_version m2 := m2]> ∅)).
  set (r1 := set_chunk r0 h ckD).
  assert (Hr1 : chunk r1 !! h = Some ckD) by apply lookup_insert_eq.
  destruct (resync_fields ckD) as (RvD & RlD & RmD & _ & RnD).
  set (s2 := set_chunk r1 h (resync ckD)).
  assert (Hrun2 : doMutation (S (S (S fuel))) r1 h [] = Returns (s2, None)).
  { unfold doMutation. rewrite Hr1.
    rewrite (doMutation_loop_break _ _ _ _ ckD Hr1).
    - unfold mbind, exec_bind. cbn [fst snd]. by rewrite Hr1.
    - cbn [ck_version ck_mutations ckD].
      rewrite (wrap64_id (v0 + 1)) by (unfold int64; lia).
      rewrite lookup_insert_ne by (simpl; lia). apply lookup_empty. }
  assert (Hcall2 : RPCApplyMutation (S (S (S fuel))) sd
                     (mkApplyMutationArg t2 (v0 + 2) id2 o2) []
                   = Returns (s2, None)).
  { unfold RPCApplyMutation. cbn [am_DataID am_Mtype am_Version am_Offset].
    rewrite (deleteDownloadedData_present _ _ _ Hdl2). fold r0.
    rewrite Hh2. change (chunk r0 !! h) with (chunk sd !! h). rewrite Hck.
    unfold RPCApplyMutation_locked. fold m2. cbn [m_version m2].
    rewrite Hempty, lookup_empty. exact Hrun2. }
  assert (Hs2 : chunk s2 !! h = Some (resync ckD)) by apply lookup_insert_eq.
  assert (Hdl1' : dl s2 !! id1 = Some d1).
  { cbn [dl s2 r1 r0 set_chunk set_dl]. by rewrite lookup_delete_ne. }
  set (t0 := set_dl s2 (delete id1 (dl s2))).
  set (ckE := mkChunkInfo (ck_length (resync ckD)) (ck_version (resync ckD))
                (ck_newestVersion (resync ckD))
                (<[m_version m1 := m1]> (ck_mutations (resync ckD)))).
  set (u1 := set_chunk t0 h ckE).
  assert (Hu1 : chunk u1 !! h = Some ckE) by apply lookup_insert_eq.
  destruct (write_of_disk u1 h ckE m1 Hu1 Hoff1) as (u2 & Hwu & Hdu).
  destruct (write_of_returns _ _ _ _ _ _ _ Hu1 Hwu) as (Hcu & _).
  set (u3 := delete_mutation u2 h (m_version m1)) in *.
  assert (Hu3 : chunk u3 !! h = Some (applied ckE m1))
    by (rewrite Hcu; apply lookup_insert_eq).
  destruct (write_of_disk u3 h (applied ckE m1) m2 Hu3 Hoff2)
    as (u4 & Hwu4 & Hdu4).
  destruct (drain_double fuel u1 h ckE m1 m2 u2 u4 Hu1)
    as (s21 & ck21 & Hrun21 & Hck21 & Hv21 & Hn21 & Hm21 & Hl21 & Hd21
        & Hdl21).
  { cbn [ck_mutations ckE]. by rewrite RmD. }
  { cbn [ck_version ckE]. rewrite RvD. done. }
  { cbn [ck_version ckE]. rewrite RvD. simpl. lia. }
  { cbn [ck_version ckE]. rewrite RvD. simpl. lia. }
  { exact Hwu. }
  { exact Hwu4. }
  assert (Hcall21 : RPCApplyMutation (S (S (S fuel))) s2
                      (mkApplyMutationArg t1 (v0 + 1) id1 o1) []
                    = Returns (s21, None)).
  { unfold RPCApplyMutation. cbn [am_DataID am_Mtype am_Version am_Offset].
    rewrite (deleteDownloadedData_present _ _ _ Hdl1'). fold t0.
    rewrite Hh1. change (chunk t0 !! h) with (chunk s2 !! h). rewrite Hs2.
    unfold RPCApplyMutation_locked. fold m1. cbn [m_version m1].
    rewrite RmD. cbn [ck_mutations ckD].
    rewrite lookup_insert_ne by (simpl; lia). rewrite lookup_empty.
    unfold u1, ckE in Hrun21. rewrite RmD in Hrun21. exact Hrun21. }
  (* the two ends *)
  assert (Heq : ck21 = ck12).
  { assert (Hlen : ck_length ck21 = ck_length ck12).
    { rewrite Hl21, Hl12. apply applied_length_eq.
      cbn [ck_length ckC]. rewrite HlB. apply applied_length_eq.
      cbn [ck_length ckE ckA]. exact RlD. }
    destruct ck21, ck12. simpl in *. congruence. }
  subst ck21.
  exists s1, s12, s2, s21, (resync ckD), ck12,
    (W2 (W1 (open_create (disk sd) h))).
  split; [exact Hcall1|]. split; [exact Hcall12|].
  split; [exact Hcall2|]. split; [exact Hcall21|].
  split; [done|]. split; [exact Hs2|]. split; [by rewrite RvD|].
  split; [rewrite RmD; eexists; apply lookup_insert_eq|].
  split; [exact Hck12|]. split; [exact Hck21|].
  split; [rewrite Hv12; simpl; lia|]. split; [exact Hm12|].
  split; [|split].
  - rewrite Hd12, Hdq. f_equal. unfold W2. f_equal.
    change (disk q1) with (disk s1). rewrite HdB.
    by rewrite (open_create_after _ _ _ Hdp).
  - rewrite Hd21, Hdu4. f_equal. unfold W2. f_equal.
    unfold u3. rewrite delete_mutation_disk.
    by rewrite (open_create_after _ _ _ Hdu).
  - rewrite Hdl12, Hdl21. cbn [dl q1 q0 u1 t0 set_chunk set_dl].
    rewrite HdlB. cbn [dl p1 p0 s2 r1 r0 set_chunk set_dl].
    apply delete_delete.
Qed.

(** *** Panics of [Client.Append] *)

Lemma AppendChunk_no_panic (w : World) (handle : Z) (data : list byte)
  (capData : Z) (tr : list event) :
  2 <= capData ->
  exists r, (AppendChunk w handle data capData tr).1 = Returns r /\
            (r.2 = None \/ exists code, r.2 = Some (GfsError code)).
Proof.
  intros Hcap. unfold AppendChunk.
  destruct (MaxAppendSize <? len data); [eexists; split; [done|eauto]|].
  client_step.
  destruct (net w _ _ (MasterGetPrimaryAndSecondaries handle)) as [l|];
    [|eexists; split; [done|eauto]].
  destruct (Z.ltb_spec capData 2); [lia|]. simpl.
  destruct (net w _ _ (ChunkServerPushDataAndForward _ _ _ _)) as [id|];
    [|eexists; split; [done|eauto]].
  destruct (net w _ _ (ChunkServerAppendChunk _ _)) as [a|];
    [|eexists; split; [done|eauto]].
  destruct (decide (ar_ErrorCode a = AppendExceedChunkSize));
    eexists; split; try done; eauto.
Qed.

Lemma Append_retry_no_panic (w : World) (handle : Z) (data : list byte)
  (capData : Z) (fuel : nat) :
  2 <= capData ->
  forall tr, (Append_retry fuel w handle data capData tr).1 <> Panics /\
             forall r, (Append_retry fuel w handle data capData tr).1
                       = Returns r ->
                       r.2 = None \/ exists code, r.2 = Some (GfsError code).
Proof.
  intros Hcap. induction fuel as [|fuel IH]; intros tr; [done|].
  cbn [Append_retry]. unfold mbind, client_bind.
  destruct (AppendChunk_no_panic w handle data capData tr Hcap)
    as (r & Hr & Hcode).
  destruct (AppendChunk w handle data capData tr) as [x tr1].
  simpl in Hr. subst x.
  destruct Hcode as [Hn|[code Hc]].
  - rewrite Hn. unfold mret, client_ret. simpl.
    split; [done|]. intros r' [= <-]. by left.
  - rewrite Hc. destruct (decide (code = AppendExceedChunkSize)).
    + unfold mret, client_ret. simpl.
      split; [done|]. intros r' [= <-]. right. by exists code.
    + apply IH.
Qed.

Lemma Append_loop_no_panic (w : World) (path : string) (data : list byte)
  (capData : Z) (fuel : nat) :
  2 <= capData ->
  forall start tr,
    (Append_loop fuel w path data capData start tr).1 <> Panics.
Proof.
  intros Hcap. induction fuel as [|fuel IH]; intros start tr; [done|].
  cbn [Append_loop]. unfold GetChunkHandle. client_step.
  destruct (net w _ _ (MasterGetChunkHandle path start)) as [handle|];
    simpl; [|done].
  destruct (Append_retry_no_panic w handle data capData fuel Hcap
              (tr ++ [Ev (MasterGetChunkHandle path start) (Some handle)]))
    as [Hnp Hres].
  destruct (Append_retry fuel w handle data capData _) as [[r| |] tr1];
    simpl in *; [|done..].
  destruct (Hres r eq_refl) as [Hn|[code Hc]].
  - by rewrite Hn.
  - rewrite Hc. destruct (decide (code = AppendExceedChunkSize)); [|done].
    apply IH.
Qed.

(** X27.  [Client.AppendChunk] logs [data[:2]] before it pushes the
    record.  With a capacity of at least 2 no run of [Client.Append]
    panics.  With a capacity below 2 - a record of one byte in a slice of
    capacity one, or an empty one - the slice expression panics as soon as
    the file, the chunk and the primary have been found: such a record
    cannot be appended. *)
Theorem Append_panics_on_short_record (w : World) (path : string)
  (data : list byte) (capData : Z) :
  (2 <= capData ->
   forall fuel tr, (Append fuel w path data capData tr).1 <> Panics) /\
  (capData < 2 ->
   len data <= MaxAppendSize ->
   forall fuel chunks handle l,
     net w Z 0%nat (MasterGetFileInfo path) = Some chunks ->
     net w Z 1%nat
       (MasterGetChunkHandle path (Z.max 0 (wrap64 (chunks - 1))))
       = Some handle ->
     net w _ 2%nat (MasterGetPrimaryAndSecondaries handle) = Some l ->
     Append (S (S fuel)) w path data capData []
     = (Panics,
        [Ev (MasterGetFileInfo path) (Some chunks);
         Ev (MasterGetChunkHandle path (Z.max 0 (wrap64 (chunks - 1))))
           (Some handle);
         Ev (MasterGetPrimaryAndSecondaries handle) (Some l)])).
Proof.
  split.
  - intros Hcap fuel tr. unfold Append.
    destruct (MaxAppendSize <? len data); [done|]. client_step.
    destruct (net w Z _ (MasterGetFileInfo path)) as [chunks|]; [|done].
    match goal with
    | |- context [Append_loop fuel w path data capData ?s ?t] =>
      pose proof (Append_loop_no_panic w path data capData fuel Hcap s t)
        as Hnp;
      destruct (Append_loop fuel w path data capData s t) as [[r| |] tr1]
    end; simpl in *; [|done..].
    by destruct r.2.
  - intros Hcap Hlen fuel chunks handle l Hinfo Hhandle Hprim.
    remember (S fuel) as fuel1 eqn:Hfuel1.
    unfold Append.
    destruct (Z.ltb_spec MaxAppendSize (len data)); [lia|].
    unfold mbind, client_bind, Call. cbn [List.length]. rewrite Hinfo.
    assert (Hstart : (if wrap64 (chunks - 1) <? 0 then 0
                      else wrap64 (chunks - 1))
                     = Z.max 0 (wrap64 (chunks - 1))).
    { destruct (Z.ltb_spec (wrap64 (chunks - 1)) 0); lia. }
    rewrite Hstart. cbn [Append_loop].
    unfold GetChunkHandle, mbind, client_bind, mret, client_ret, Call.
    cbn [List.length app]. rewrite Hhandle. cbn [fst snd].
    subst fuel1. cbn [Append_retry]. unfold AppendChunk.
    destruct (Z.ltb_spec MaxAppendSize (len data)); [lia|].
    unfold mbind, client_bind, Call. cbn [List.length app].
    rewrite Hprim.
    destruct (Z.ltb_spec capData 2); [|lia]. done.
Qed.

End GFS.

(** ** The theorems at the values of the specification's scenarios *)

(** The third scenario: 50 bytes in the chunk and a record of 16 elect
    [Pad]. *)
Lemma RPCAppendChunk_elects_witness :
  int64 (ck_length chunk50 + len record16) /\
  exists ck1 reply res,
    RPCAppendChunk_locked 64 chunk50 record16
      = (ck1, MutationPad, reply, res) /\
    ck_length ck1 = 64 /\
    ar_Offset reply = 50 /\
    ar_ErrorCode reply = AppendExceedChunkSize /\
    exists cs' err,
      RPCAppendChunk 64 16 3 server50 (mkAppendChunkArg (1, 7) []) []
        (fun _ => None) = Returns (cs', reply, err).
Proof.
  assert (H1 : dl server50 !! (1, 7) = Some record16) by reflexivity.
  assert (H2 : len record16 <= 16) by (vm_compute; discriminate).
  assert (H3 : chunk server50 !! Handle (1, 7) = Some chunk50)
    by reflexivity.
  assert (H4 : int64 (ck_length chunk50 + len record16))
    by (vm_compute; split; [discriminate|reflexivity]).
  split; [exact H4|].
  destruct (RPCAppendChunk_elects 64 16 chunk50 record16 H4)
    as (ck1 & mtype & reply & res & Hl & Hoff & Hpad & _ & _ & Hhandler).
  destruct Hpad as (-> & Hlen & Hcode); [vm_compute; reflexivity|].
  exists ck1, reply, res. split; [exact Hl|]. split; [exact Hlen|].
  split; [exact Hoff|]. split; [exact Hcode|].
  destruct (Hhandler server50 (mkAppendChunkArg (1, 7) []) H1 H2 H3)
    as [_ Hret].
  apply Hret. intros ck Hck.
  pose proof (eq_trans (eq_sym H3) Hck) as Heq. injection Heq as <-.
  split; [|vm_compute; lia].
  intros k m Hm. unfold chunk50 in Hm. simpl in Hm.
  by rewrite lookup_empty in Hm.
Defined.

(** The handler on that replica: the reply, the pad written as one byte at
    the last position of the chunk, which brings the file to 64 bytes, and
    the counters level at version 2. *)
Example RPCAppendChunk_pads_scenario :
  exists cs file,
    RPCAppendChunk 64 16 3 server50 (mkAppendChunkArg (1, 7) []) []
      (fun _ => None)
    = Returns (cs, mkAppendChunkReply 50 AppendExceedChunkSize, None) /\
    chunk cs !! 1 = Some (mkChunkInfo 64 2 2 ∅) /\
    disk cs !! 1 = Some file /\ len file = 64 /\
    dl cs !! (1, 7) = None.
Proof.
  eexists _, _. split; [vm_compute; reflexivity|].
  split; [reflexivity|]. split; [reflexivity|]. split; reflexivity.
Qed.

(** A replica after two steps of the primary paths: chunk 1 created, and the
    locked region of a write. *)
Lemma version_invariant_on_primary_paths_witness :
  nsteps (primary_step 64) 2 initial_server committed_server /\
  Z.of_nat 2 < 2 ^ 63 /\
  (exists ck,
     chunk committed_server !! 1 = Some ck /\
     ck_version ck = 0 /\ ck_newestVersion ck = 1 /\
     version_invariant ck).
Proof.
  assert (Hsteps : nsteps (primary_step 64) 2 initial_server committed_server).
  { eapply nsteps_l; [apply (ps_create 64 initial_server 1 true)|].
    eapply nsteps_l; [|apply nsteps_O].
    apply (ps_write_locked 64 created_server 1 (mkChunkInfo 0 0 0 ∅)).
    reflexivity. }
  assert (Hn : Z.of_nat 2 < 2 ^ 63) by reflexivity.
  split; [exact Hsteps|]. split; [exact Hn|].
  eexists. split; [reflexivity|]. split; [reflexivity|].
  split; [reflexivity|].
  apply (version_invariant_on_primary_paths 64 2 committed_server 1 _
           Hsteps Hn).
  reflexivity.
Defined.

(** The invariant of C2 does not hold on every replica: a secondary that is
    handed version 2 first keeps it buffered with [version] and
    [newestVersion] both at 0. *)
Lemma version_invariant_fails_on_secondary :
  ~ (forall n cs h ck,
       nsteps (replica_step 64) n initial_server cs ->
       chunk cs !! h = Some ck ->
       version_invariant ck).
Proof.
  intros Hinv.
  assert (Hsteps : nsteps (replica_step 64) 2 initial_server secondary_server).
  { eapply nsteps_l;
      [apply rs_primary, (ps_create 64 initial_server 1 true)|].
    eapply nsteps_l; [|apply nsteps_O].
    apply (rs_apply_locked 64 created_server 1 (mkChunkInfo 0 0 0 ∅)).
    reflexivity. }
  destruct (Hinv 2%nat secondary_server 1
              (mkChunkInfo 0 0 0 (<[2 := early_mutation]> ∅)) Hsteps
              eq_refl) as [_ [_ Hempty]].
  specialize (Hempty eq_refl). simpl in Hempty.
  apply (f_equal (fun m => m !! 2)) in Hempty.
  by rewrite lookup_insert_eq, lookup_empty in Hempty.
Qed.

(** The same state through the handlers themselves: the chunk created, the
    data forwarded, and [RPCApplyMutation] for version 2 run to its end. *)
Example secondary_holds_early_mutation :
  exists cs,
    RPCApplyMutation 64 3
      (RPCForwardData created_server (1, 7) [x61; x62]).1
      (mkApplyMutationArg MutationWrite 2 (1, 7) 0) []
    = Returns (cs, None) /\
    chunk cs !! 1 = Some (mkChunkInfo 0 0 0 (<[2 := early_mutation]> ∅)).
Proof. eexists. split; [vm_compute; reflexivity|reflexivity]. Qed.

(** A secondary handed version 3 and then version 1: the drain applies
    version 1 and stops at the hole, with [version] above [newestVersion]. *)
Example secondary_version_passes_newestVersion :
  exists cs1 cs2 ck,
    RPCApplyMutation 64 3
      (RPCForwardData created_server (1, 7) [x61; x62]).1
      (mkApplyMutationArg MutationWrite 3 (1, 7) 0) []
    = Returns (cs1, None) /\
    RPCApplyMutation 64 3 (RPCForwardData cs1 (1, 8) [x63]).1
      (mkApplyMutationArg MutationWrite 1 (1, 8) 0) []
    = Returns (cs2, None) /\
    chunk cs2 !! 1 = Some ck /\
    ck_version ck = 1 /\ ck_newestVersion ck = 0 /\
    is_Some (ck_mutations ck !! 3).
Proof.
  eexists _, _, _. split; [vm_compute; reflexivity|].
  split; [vm_compute; reflexivity|]. split; [reflexivity|].
  split; [reflexivity|]. split; [reflexivity|]. by eexists.
Qed.

(** [RPCApplyCopy] sets [version] and leaves [newestVersion]: the copy of a
    chunk at version 5 on a fresh replica has [version > newestVersion]. *)
Example copy_leaves_newestVersion_behind :
  exists cs ck,
    RPCApplyCopy created_server (mkApplyCopyArg 1 [x61; x62] 5) IoOk
    = Returns (cs, None) /\
    chunk cs !! 1 = Some ck /\
    ck_version ck = 5 /\ ck_newestVersion ck = 0 /\ ck_mutations ck = ∅.
Proof.
  eexists _, _. split; [vm_compute; reflexivity|].
  split; [reflexivity|]. by repeat split.
Qed.

Lemma buffered_chunk_wf : buffer_wf (ck_mutations buffered_chunk).
Proof.
  intros k m H. unfold buffered_chunk in H. simpl in H.
  apply lookup_insert_Some in H as [[<- <-]|[_ H]]; [reflexivity|].
  apply lookup_insert_Some in H as [[<- <-]|[_ H]]; [reflexivity|].
  by rewrite lookup_empty in H.
Defined.

Lemma buffered_chunk_below_max : below_max buffered_chunk.
Proof.
  split; [simpl; lia|]. intros k [m H]. unfold buffered_chunk in H.
  simpl in H.
  apply lookup_insert_Some in H as [[<- _]|[_ H]]; [lia|].
  apply lookup_insert_Some in H as [[<- _]|[_ H]]; [lia|].
  by rewrite lookup_empty in H.
Defined.

(** A drain of the chunk with versions 1 and 2 buffered. *)
Lemma doMutation_applies_in_version_order_witness :
  chunk buffered_server !! 1 = Some buffered_chunk /\
  buffer_wf (ck_mutations buffered_chunk) /\
  below_max buffered_chunk /\
  (size (ck_mutations buffered_chunk) < 3)%nat /\
  exists cs' err k,
    doMutation 64 3 buffered_server 1 [] = Returns (cs', err) /\
    writeLog cs'
      = writeLog buffered_server ++ ((fun v => (1, v)) <$> seqZ 1 k).
Proof.
  assert (H1 : chunk buffered_server !! 1 = Some buffered_chunk)
    by reflexivity.
  assert (H4 : (size (ck_mutations buffered_chunk) < 3)%nat)
    by (vm_compute; lia).
  split; [exact H1|]. split; [exact buffered_chunk_wf|].
  split; [exact buffered_chunk_below_max|]. split; [exact H4|].
  destruct (doMutation_applies_in_version_order 64 3 buffered_server 1
              buffered_chunk [] H1 buffered_chunk_wf
              buffered_chunk_below_max H4)
    as (cs' & err & ck' & k & _ & Hrun & _ & Hlog & _).
  exists cs', err, k. split; [exact Hrun|exact Hlog].
Defined.

(** What that drain does: both mutations written, in order, and the
    counters level at 2. *)
Example doMutation_drains_both :
  exists cs',
    doMutation 64 3 buffered_server 1 [] = Returns (cs', None) /\
    writeLog cs' = [(1, 1); (1, 2)] /\
    chunk cs' !! 1 = Some (mkChunkInfo 4 2 2 ∅) /\
    disk cs' !! 1 = Some [x61; x62; x63; x64].
Proof.
  eexists. split; [vm_compute; reflexivity|].
  split; [reflexivity|]. split; reflexivity.
Qed.

(** A drain of the same chunk when the file cannot be opened for the
    mutation of version 1. *)
Lemma doMutation_failed_write_drops_mutation_witness :
  exists cs1,
    chunk buffered_server !! 1 = Some buffered_chunk /\
    buffer_wf (ck_mutations buffered_chunk) /\
    below_max buffered_chunk /\
    ck_mutations buffered_chunk !! (ck_version buffered_chunk + 1)
      = Some (mkMutation MutationWrite 1 [x61; x62] 0) /\
    write_of 64 buffered_server 1 (mkMutation MutationWrite 1 [x61; x62] 0)
      (hd IoOk [IoOpenFails]) = Returns (cs1, Some OsError) /\
    exists cs' ck',
      doMutation 64 1 buffered_server 1 [IoOpenFails]
        = Returns (cs', Some OsError) /\
      chunk cs' !! 1 = Some ck' /\
      ck_version ck' = 1 /\
      ck_mutations ck' !! 1 = None /\
      ck_newestVersion ck' = 2.
Proof.
  eexists.
  assert (H1 : chunk buffered_server !! 1 = Some buffered_chunk)
    by reflexivity.
  assert (H4 : ck_mutations buffered_chunk !! (ck_version buffered_chunk + 1)
               = Some (mkMutation MutationWrite 1 [x61; x62] 0))
    by reflexivity.
  split; [exact H1|]. split; [exact buffered_chunk_wf|].
  split; [exact buffered_chunk_below_max|]. split; [exact H4|].
  split; [vm_compute; reflexivity|].
  destruct (doMutation_failed_write_drops_mutation 64 0 buffered_server 1
              buffered_chunk (mkMutation MutationWrite 1 [x61; x62] 0)
              [IoOpenFails] _ OsError H1 buffered_chunk_wf
              buffered_chunk_below_max H4 eq_refl)
    as (cs' & ck' & Hrun & Hck & Hv & _ & _ & _ & Hgone & Hnew & _).
  exists cs', ck'. split; [exact Hrun|]. split; [exact Hck|].
  split; [exact Hv|]. split; [exact Hgone|exact Hnew].
Defined.

(** On a secondary the failing drain can leave an empty buffer with the
    counters apart: the return on the error comes before the place where
    [newestVersion] is set to [version]. *)
Example failed_drain_skips_resync :
  exists cs ck,
    doMutation 64 2
      (set_chunk created_server 1
         (mkChunkInfo 0 0 0
            (<[1 := mkMutation MutationWrite 1 [x61; x62] 0]> ∅)))
      1 [IoOpenFails]
    = Returns (cs, Some OsError) /\
    chunk cs !! 1 = Some ck /\
    ck_mutations ck = ∅ /\ ck_version ck = 1 /\ ck_newestVersion ck = 0.
Proof.
  eexists _, _. split; [vm_compute; reflexivity|].
  split; [reflexivity|]. split; [reflexivity|by split].
Qed.

(** The third scenario at the client: the file has one chunk, the first
    answer about a primary is lost, chunk 0 is full, and the record goes in
    at the start of chunk 1. *)
Lemma Append_follows_protocol_witness :
  exists tr,
    Append 64 16 20 sample_world "/c" record16 16 [] = (Returns (64, None), tr)
    /\ len record16 <= 16
    /\ exists chunks rest,
         tr = Ev (MasterGetFileInfo "/c") (Some chunks) :: rest /\
         append_protocol 64 "/c" record16 (Z.max 0 (wrap64 (chunks - 1)))
           rest (64, None).
Proof.
  pose (tr := (Append 64 16 20 sample_world "/c" record16 16 []).2).
  assert (Hrun : Append 64 16 20 sample_world "/c" record16 16 []
                 = (Returns (64, None), tr)) by (vm_compute; reflexivity).
  assert (Hlen : len record16 <= 16) by (vm_compute; discriminate).
  exists tr. split; [exact Hrun|]. split; [exact Hlen|].
  destruct (Append_follows_protocol 64 16 sample_world "/c" record16 16)
    as [_ Hp].
  destruct (Hp Hlen) as [Hp1 _].
  destruct (Hp1 20%nat (64, None) tr Hrun) as [[Htr _]|Hok]; [|exact Hok].
  vm_compute in Htr. discriminate Htr.
Defined.

(** The calls of that run, in order. *)
Example Append_pads_and_moves_on :
  Append 64 16 20 sample_world "/c" record16 16 []
  = (Returns (64, None),
     [Ev (MasterGetFileInfo "/c") (Some 1);
      Ev (MasterGetChunkHandle "/c" 0) (Some 10);
      Ev (MasterGetPrimaryAndSecondaries 10) None;
      Ev (MasterGetPrimaryAndSecondaries 10)
        (Some (mkPrimaryAndSecondaries "p" ["s1"; "s2"]));
      Ev (ChunkServerPushDataAndForward "p" 10 record16 ["s1"; "s2"])
        (Some (10, 4));
      Ev (ChunkServerAppendChunk "p" (mkAppendChunkArg (10, 4) ["s1"; "s2"]))
        (Some (mkAppendChunkReply 50 AppendExceedChunkSize));
      Ev (MasterGetChunkHandle "/c" 1) (Some 11);
      Ev (MasterGetPrimaryAndSecondaries 11)
        (Some (mkPrimaryAndSecondaries "p" ["s1"; "s2"]));
      Ev (ChunkServerPushDataAndForward "p" 11 record16 ["s1"; "s2"])
        (Some (11, 8));
      Ev (ChunkServerAppendChunk "p" (mkAppendChunkArg (11, 8) ["s1"; "s2"]))
        (Some (mkAppendChunkReply 0 Success))]).
Proof. vm_compute. reflexivity. Qed.

(** Four bytes at offset 60 fill the chunk of 64; at offset 61 they do not
    fit. *)
Lemma write_boundary_witness :
  - 2 ^ 63 <= 64 < 2 ^ 63 - 1 /\
  (forall w handle tr,
     exists x reply rest,
       WriteChunk 64 w handle 60 [x61; x62; x63; x64] tr
       = (x, tr ++ Ev (MasterGetPrimaryAndSecondaries handle) reply :: rest))
  /\
  (forall w handle tr,
     WriteChunk 64 w handle 61 [x61; x62; x63; x64] tr
     = (Returns (Some WriteChunkSizeExceeds), tr)).
Proof.
  assert (H : - 2 ^ 63 <= 64 < 2 ^ 63 - 1) by lia.
  split; [exact H|]. split.
  - destruct (write_boundary 64 60 [x61; x62; x63; x64] H) as [Hfit _].
    destruct (Hfit eq_refl) as [Hclient _]. exact Hclient.
  - destruct (write_boundary 64 61 [x61; x62; x63; x64] H) as [_ Hover].
    destruct (Hover eq_refl) as [Hclient _]. exact Hclient.
Defined.

(** Two of three registered servers. *)
Lemma ChooseServers_distinct_registered_witness :
  (map_to_list three_servers).*1 ≡ₚ (map_to_list three_servers).*1 /\
  (forall n, 0 <= n -> reversed_perm n ≡ₚ seqZ 0 n) /\
  exists ret,
    ChooseServers three_servers (map_to_list three_servers).*1
      reversed_perm 2 = Returns (Ok ret) /\
    len ret = 2 /\ NoDup ret /\
    forall a, a ∈ ret -> is_Some (three_servers !! a).
Proof.
  assert (H1 : (map_to_list three_servers).*1
               ≡ₚ (map_to_list three_servers).*1) by reflexivity.
  assert (H2 : forall n, 0 <= n -> reversed_perm n ≡ₚ seqZ 0 n)
    by (intros n _; apply reverse_Permutation).
  split; [exact H1|]. split; [exact H2|].
  destruct (ChooseServers_distinct_registered three_servers
              (map_to_list three_servers).*1 reversed_perm 2 H1 H2)
    as (_ & _ & Hgood).
  apply Hgood. vm_compute. split; discriminate.
Defined.

Example ChooseServers_refuses_four :
  ChooseServers three_servers (map_to_list three_servers).*1 reversed_perm 4
  = Returns (Err (NotEnoughServers 4)).
Proof. vm_compute. reflexivity. Qed.

(** A file of one chunk: the offset 127, in the chunk of index 1, is let
    through; the offset 128, in the chunk of index 2, is not. *)
Lemma offset_check_admits_next_chunk_witness :
  0 < 64 /\ 0 <= 1 /\
  net sample_world Z 0%nat (MasterGetFileInfo "/a") = Some 1 /\
  (exists xr rr restr,
     Read 64 1 sample_world "/a" 127 10 []
     = (xr, Ev (MasterGetFileInfo "/a") (Some 1)
            :: Ev (MasterGetChunkHandle "/a" (Z.quot 127 64)) rr :: restr))
  /\
  Read 64 1 sample_world "/a" 128 10 []
  = (Returns (-1, Some ReadOffsetExceeds),
     [Ev (MasterGetFileInfo "/a") (Some 1)]).
Proof.
  assert (H1 : 0 < 64) by reflexivity.
  assert (H2 : 0 <= 1) by (vm_compute; discriminate).
  assert (H3 : net sample_world Z 0%nat (MasterGetFileInfo "/a") = Some 1)
    by reflexivity.
  split; [exact H1|]. split; [exact H2|]. split; [exact H3|]. split.
  - destruct (offset_check_admits_next_chunk 64 0 sample_world "/a" 127 10
                [] 1 H1 H2 H3) as [_ Hpass].
    destruct Hpass as (xr & rr & restr & _ & _ & _ & Hr & _);
      [vm_compute; discriminate|].
    exists xr, rr, restr. exact Hr.
  - destruct (offset_check_admits_next_chunk 64 1 sample_world "/a" 128 10
                [] 1 H1 H2 H3) as [Hreject _].
    destruct Hreject as [Hr _]; [vm_compute; reflexivity|]. exact Hr.
Defined.

(** ** The chunk-server manager on two servers *)

Lemma DetectDeadServers_exactly_expired_witness :
  map_to_list two_servers ≡ₚ map_to_list two_servers /\
  NoDup (DetectDeadServers 60 (map_to_list two_servers) 100) /\
  "a" ∈ DetectDeadServers 60 (map_to_list two_servers) 100 /\
  "b" ∉ DetectDeadServers 60 (map_to_list two_servers) 100.
Proof.
  assert (H1 : map_to_list two_servers ≡ₚ map_to_list two_servers)
    by reflexivity.
  split; [exact H1|].
  destruct (DetectDeadServers_exactly_expired 60 two_servers
              (map_to_list two_servers) 100 H1) as (Hnd & Hin & _).
  split; [exact Hnd|]. split.
  - apply Hin. exists (mkChunkServerInfo 10 {[ 5 := true ]}).
    split; [reflexivity | simpl; lia].
  - intros Hb. apply Hin in Hb. destruct Hb as (sv & Hsv & Hdead).
    assert (Hsv' : two_servers !! "b" = Some (mkChunkServerInfo 100 ∅))
      by reflexivity.
    rewrite Hsv' in Hsv. injection Hsv as <-. simpl in Hdead. lia.
Defined.

Lemma Heartbeat_keeps_server_alive_witness :
  map_to_list (Heartbeat two_servers "a" 100)
    ≡ₚ map_to_list (Heartbeat two_servers "a" 100) /\
  150 <= 100 + 60 /\
  "a" ∉ DetectDeadServers 60 (map_to_list (Heartbeat two_servers "a" 100))
          150.
Proof.
  assert (H1 : map_to_list (Heartbeat two_servers "a" 100)
               ≡ₚ map_to_list (Heartbeat two_servers "a" 100))
    by reflexivity.
  assert (H2 : 150 <= 100 + 60) by lia.
  split; [exact H1|]. split; [exact H2|].
  destruct (Heartbeat_keeps_server_alive 60 two_servers "a" 100
              (map_to_list (Heartbeat two_servers "a" 100)) 150 H1 H2)
    as (_ & _ & Halive & _).
  exact Halive.
Defined.

Lemma AddChunk_then_RemoveServer_witness :
  exists handles,
    RemoveServer
      (<["b" := mkChunkServerInfo 100 {[ 7 := true ]}]> two_servers) "b"
      (map_to_list ({[ 7 := true ]} : gmap Z bool))
    = (delete "b"
         (<["b" := mkChunkServerInfo 100 {[ 7 := true ]}]> two_servers),
       handles, None) /\
    7 ∈ handles.
Proof.
  apply (AddChunk_then_RemoveServer two_servers
           (<["b" := mkChunkServerInfo 100 {[ 7 := true ]}]> two_servers)
           ["b"] 7 [Some OsError] (Some [OsError]) "b"
           (mkChunkServerInfo 100 {[ 7 := true ]})).
  - vm_compute. reflexivity.
  - by left.
  - reflexivity.
  - reflexivity.
Defined.

Lemma ChooseReReplication_pair_witness :
  exists from to,
    ChooseReReplication (map_to_list two_servers) 5 = (from, to, None) /\
    from <> to /\
    (exists sv, two_servers !! from = Some sv /\ holds sv 5 = true) /\
    (exists sv, two_servers !! to = Some sv /\ holds sv 5 = false).
Proof.
  assert (H1 : map_to_list two_servers ≡ₚ map_to_list two_servers)
    by reflexivity.
  assert (H2 : two_servers !! EmptyString = None) by reflexivity.
  destruct (ChooseReReplication_pair two_servers (map_to_list two_servers) 5
              H1 H2) as (from & to & err & Hrun & _ & Hpair & Hiff).
  assert (Herr : err = None).
  { apply Hiff. split.
    - exists "a", (mkChunkServerInfo 10 {[ 5 := true ]}).
      split; reflexivity.
    - exists "b", (mkChunkServerInfo 100 ∅). split; reflexivity. }
  exists from, to. rewrite Herr in Hrun. split; [exact Hrun|].
  exact (Hpair Herr).
Defined.

Lemma Sample_distinct_below_witness :
  (forall m, 0 <= m -> reversed_perm m ≡ₚ seqZ 0 m) /\
  exists choose,
    Sample reversed_perm 3 2 = Returns (Ok choose) /\
    len choose = 2 /\ NoDup choose /\
    forall v, v ∈ choose -> 0 <= v < 3.
Proof.
  assert (H : forall m, 0 <= m -> reversed_perm m ≡ₚ seqZ 0 m)
    by (intros m _; apply reverse_Permutation).
  split; [exact H|].
  destruct (Sample_distinct_below reversed_perm 3 2 H) as (_ & Hgood & _).
  apply Hgood. lia.
Defined.

Lemma CallAll_nil_iff_all_succeed_witness :
  [Some RpcError; None] ≡ₚ second_fails <$> ["s1"; "s2"] /\
  CallAll [Some RpcError; None] = Some RpcError /\
  CallAll [Some RpcError; None] <> None.
Proof.
  assert (H : [Some RpcError; None] ≡ₚ second_fails <$> ["s1"; "s2"])
    by apply perm_swap.
  split; [exact H|].
  destruct (CallAll_nil_iff_all_succeed ["s1"; "s2"] second_fails
              [Some RpcError; None] H) as (Hnil & _ & Hlast).
  split.
  - apply (Hlast [] [None] RpcError); [reflexivity|].
    by apply Forall_singleton.
  - intros Hnone. assert (Hs2 : second_fails "s2" = None).
    { apply (proj1 Hnil Hnone). right. by left. }
    discriminate Hs2.
Defined.


(** ** Reading, copying and padding on sample replicas *)

Lemma writeChunk_then_RPCReadChunk_witness :
  exists cs1,
    writeChunk created_server 1 1 [x61; x62] 0 false IoOk
      = Returns (cs1, None) /\
    RPCReadChunk cs1 1 0 2 RdOk
      = Returns (mkReadChunkReply [x61; x62] 2 Success, None).
Proof.
  assert (H1 : chunk created_server !! 1 = Some (mkChunkInfo 0 0 0 ∅))
    by reflexivity.
  assert (H2 : 0 <= 0) by lia.
  destruct (writeChunk_then_RPCReadChunk created_server 1 1 [x61; x62] 0
              false (mkChunkInfo 0 0 0 ∅) H1 H2) as (cs1 & Hw & Hr & _).
  exists cs1. split; [exact Hw | exact Hr].
Defined.

Lemma RPCReadChunk_end_of_file_witness :
  exists reply,
    RPCReadChunk abc_server 1 2 10 RdOk = Returns (reply, None) /\
    rr_Length reply = 1 /\
    rr_Data reply !! 0%nat = Some x63 /\
    rr_ErrorCode reply = ReadEOF.
Proof.
  assert (H1 : chunk abc_server !! 1 = Some (mkChunkInfo 3 1 1 ∅))
    by reflexivity.
  assert (H2 : disk abc_server !! 1 = Some [x61; x62; x63]) by reflexivity.
  assert (H3 : 0 <= 2) by lia.
  assert (H4 : 0 <= 10) by lia.
  destruct (RPCReadChunk_end_of_file abc_server 1 2 10 (mkChunkInfo 3 1 1 ∅)
              [x61; x62; x63] H1 H2 H3 H4)
    as (reply & Hrun & Hlen & _ & Hdata & _ & Heof & _).
  assert (Hl : rr_Length reply = 1) by (rewrite Hlen; reflexivity).
  exists reply. split; [exact Hrun|]. split; [exact Hl|]. split.
  - apply (Hdata 0). rewrite Hl. lia.
  - apply Heof. split; [lia | vm_compute; reflexivity].
Defined.

Lemma RPCCreateChunk_without_file_witness :
  exists cs1,
    RPCCreateChunk initial_server 1 false = (cs1, Some OsError) /\
    RPCCreateChunk cs1 1 true = (cs1, None) /\
    exists data,
      RPCReadChunk cs1 1 0 4 RdOk
      = Returns (mkReadChunkReply data (-1) Success, Some OsError).
Proof.
  assert (H1 : chunk initial_server !! 1 = None) by reflexivity.
  assert (H2 : disk initial_server !! 1 = None) by reflexivity.
  destruct (RPCCreateChunk_without_file initial_server 1 H1 H2)
    as (cs1 & Hc & Hc' & Hread & _).
  exists cs1. split; [exact Hc|]. split; [exact Hc'|].
  apply Hread. lia.
Defined.

Lemma push_write_read_round_trip_witness :
  exists cs1 id cs2,
    RPCPushDataAndForward 64 created_server 1 [x61; x62] 7 None
      = (cs1, Some id, None) /\
    RPCWriteChunk 64 2 cs1 (mkWriteChunkArg id 0 []) [] (fun _ => None)
      = Returns (cs2, None) /\
    RPCReadChunk cs2 1 0 2 RdOk
      = Returns (mkReadChunkReply [x61; x62] 2 Success, None).
Proof.
  destruct (push_write_read_round_trip 64 0 created_server 1 [x61; x62] 7 0
              [] (mkChunkInfo 0 0 0 ∅))
    as (cs1 & id & cs2 & ck' & Hpush & Hwrite & Hread & _);
    [lia | vm_compute; discriminate | lia | reflexivity | reflexivity
     | reflexivity | simpl; lia |].
  exists cs1, id, cs2. split; [exact Hpush|]. split; [exact Hwrite|].
  exact Hread.
Defined.

Lemma re_replication_copies_chunk_witness :
  exists sink',
    RPCSendCopy server50 1 RdOk (fun _ => None) = Returns None /\
    RPCApplyCopy created_server (mkApplyCopyArg 1 (replicate 50 x78) 1) IoOk
      = Returns (sink', None) /\
    RPCReadChunk sink' 1 0 50 RdOk
      = Returns (mkReadChunkReply (replicate 50 x78) 50 Success, None).
Proof.
  destruct (re_replication_copies_chunk server50 created_server 1 chunk50
              (mkChunkInfo 0 0 0 ∅) (replicate 50 x78) (fun _ => None))
    as (data & sink' & ck' & Hdata & Hsend & Happly & _ & _ & _ & _ & _
        & Hread);
    [reflexivity | reflexivity | vm_compute; split; discriminate | simpl; lia
     | reflexivity | reflexivity |].
  assert (Hd : data = replicate 50 x78) by (rewrite Hdata; reflexivity).
  rewrite Hd in Happly, Hread.
  exists sink'. split; [exact Hsend|]. split; [exact Happly | exact Hread].
Defined.

Lemma pad_mutation_as_padChunk_witness :
  exists cs1 cs2 file,
    write_of 64 server50 1 (mkMutation MutationPad 2 record16 50) IoOk
      = Returns (cs1, None) /\
    padChunk 64 server50 1 2 = Returns cs2 /\
    chunk cs1 = chunk cs2 /\
    disk cs1 !! 1 = Some file /\
    len file = 64.
Proof.
  destruct (pad_mutation_as_padChunk 64 server50 1 chunk50
              (mkMutation MutationPad 2 record16 50) IoOk)
    as (cs1 & e & cs2 & Hw & Hp & Hc & Hok);
    [reflexivity | reflexivity | simpl; lia | lia |].
  destruct (Hok eq_refl) as (He & file & Hfile & Hlen & _).
  rewrite He in Hw.
  exists cs1, cs2, file. split; [exact Hw|]. split; [exact Hp|].
  split; [exact Hc|]. split; [exact Hfile|].
  rewrite Hlen. reflexivity.
Defined.

(** ** Drains on sample replicas *)

Lemma doMutation_twice_witness :
  exists cs',
    doMutation 64 3 buffered_server 1 [] = Returns (cs', None) /\
    doMutation 64 1 cs' 1 [IoOpenFails] = Returns (cs', None).
Proof.
  pose (cs' := match doMutation 64 3 buffered_server 1 [] with
               | Returns r => r.1
               | _ => initial_server
               end).
  assert (Hrun : doMutation 64 3 buffered_server 1 [] = Returns (cs', None))
    by (vm_compute; reflexivity).
  exists cs'. split; [exact Hrun|].
  exact (doMutation_twice 64 3 buffered_server 1 [] cs' Hrun 0%nat
           [IoOpenFails]).
Defined.

Lemma stale_chunk_wf : buffer_wf (ck_mutations stale_chunk).
Proof.
  intros k m Hm. change (ck_mutations stale_chunk)
    with ({[ 1 := stale_mutation ]} : gmap Z Mutation) in Hm.
  apply lookup_singleton_Some in Hm.
  destruct Hm as [<- <-]. reflexivity.
Qed.

Lemma stale_chunk_below_max : below_max stale_chunk.
Proof.
  split; [simpl; lia|]. intros k [m Hm].
  change (ck_mutations stale_chunk)
    with ({[ 1 := stale_mutation ]} : gmap Z Mutation) in Hm.
  apply lookup_singleton_Some in Hm. destruct Hm as [<- _]. lia.
Qed.

Lemma stale_mutation_stays_witness :
  exists ck' l,
    doMutation 64 2 stale_server 1 [] = Returns (stale_server, None) /\
    chunk stale_server !! 1 = Some ck' /\
    ck_mutations ck' !! 1 = Some stale_mutation /\
    writeLog stale_server = writeLog stale_server ++ l /\
    (1, 1) ∉ l.
Proof.
  assert (Hrun : doMutation 64 2 stale_server 1 []
                 = Returns (stale_server, None))
    by (vm_compute; reflexivity).
  destruct (stale_mutation_stays 64 2 stale_server 1 stale_chunk 1
              stale_mutation [] stale_server None)
    as (ck' & l & Hck & Hm & _ & _ & Hlog & Hnot);
    [reflexivity | exact stale_chunk_wf | exact stale_chunk_below_max
     | reflexivity | simpl; lia | exact Hrun |].
  exists ck', l. split; [exact Hrun|]. split; [exact Hck|].
  split; [exact Hm|]. split; [exact Hlog | exact Hnot].
Defined.


(** ** Primary and secondary on the sample replica *)

Lemma append_replicas_agree_witness :
  exists a pr' sd' reply,
    RPCAppendChunk 64 16 2 server50 (mkAppendChunkArg (1, 7) []) []
      (fun _ => None) = Returns (pr', reply, None) /\
    ar_ErrorCode reply = AppendExceedChunkSize /\
    RPCApplyMutation 64 2 server50 a [] = Returns (sd', None) /\
    chunk sd' !! 1 = chunk pr' !! 1 /\
    disk sd' !! 1 = disk pr' !! 1.
Proof.
  destruct (append_replicas_agree 64 16 0 server50 server50 (1, 7) []
              record16 chunk50 chunk50)
    as (a & pr' & sd' & reply & ckP' & ckS' & Hpr & Hsd & _ & _ & _ & HckP
        & HckS & _ & _ & _ & _ & Hrec & _ & Hdisk);
    [reflexivity | reflexivity | vm_compute; discriminate | lia | lia
     | reflexivity | reflexivity | reflexivity | reflexivity | reflexivity
     | reflexivity | reflexivity | simpl; lia | simpl; lia | reflexivity |].
  pose proof (Hpr (fun _ => None) eq_refl) as Hrun.
  exists a, pr', sd', reply.
  split; [exact Hrun|]. split.
  { vm_compute in Hrun. injection Hrun as _ Hreply. rewrite <- Hreply.
    reflexivity. }
  split; [exact Hsd|]. split; [|exact Hdisk].
  change (Handle (1, 7)) with 1 in HckP, HckS.
  by rewrite HckP, HckS, Hrec.
Defined.

Lemma write_replicas_agree_witness :
  exists pr' sd',
    RPCWriteChunk 64 2 server50 (mkWriteChunkArg (1, 7) 0 []) []
      (fun _ => None) = Returns (pr', None) /\
    RPCApplyMutation 64 2 server50
      (mkApplyMutationArg MutationWrite 2 (1, 7) 0) []
      = Returns (sd', None) /\
    chunk sd' !! 1 = chunk pr' !! 1 /\
    disk sd' !! 1 = disk pr' !! 1.
Proof.
  destruct (write_replicas_agree 64 0 server50 server50 (1, 7) 0 []
              record16 chunk50 chunk50)
    as (a & pr' & sd' & ckP' & ckS' & Hpr & Hsd & Ha & HckP & HckS & _ & _
        & _ & _ & _ & Hrec & _ & Hdisk);
    [reflexivity | reflexivity | lia | vm_compute; discriminate | lia
     | reflexivity | reflexivity | reflexivity | reflexivity | reflexivity
     | reflexivity | reflexivity | simpl; lia | reflexivity |].
  rewrite Ha in Hpr, Hsd.
  exists pr', sd'.
  split; [apply Hpr; reflexivity|]. split; [exact Hsd|].
  split; [|exact Hdisk].
  change (Handle (1, 7)) with 1 in HckP, HckS.
  by rewrite HckP, HckS, Hrec.
Defined.

Lemma apply_order_irrelevant_witness :
  exists s1 s12 s2 s21,
    RPCApplyMutation 64 3 two_staged_server
      (mkApplyMutationArg MutationWrite 1 (1, 7) 0) [] = Returns (s1, None) /\
    RPCApplyMutation 64 3 s1
      (mkApplyMutationArg MutationAppend 2 (1, 8) 2) []
      = Returns (s12, None) /\
    RPCApplyMutation 64 3 two_staged_server
      (mkApplyMutationArg MutationAppend 2 (1, 8) 2) []
      = Returns (s2, None) /\
    RPCApplyMutation 64 3 s2
      (mkApplyMutationArg MutationWrite 1 (1, 7) 0) []
      = Returns (s21, None) /\
    disk s2 = disk two_staged_server /\
    chunk s21 !! 1 = chunk s12 !! 1 /\
    disk s21 !! 1 = disk s12 !! 1.
Proof.
  destruct (apply_order_irrelevant 64 0 two_staged_server 1 (1, 7) (1, 8)
              [x61; x62] [x63; x64] MutationWrite MutationAppend 0 2
              (mkChunkInfo 0 0 0 ∅))
    as (s1 & s12 & s2 & s21 & ck2 & ck' & file & H1 & H12 & H2 & H21 & Hd2
        & _ & _ & _ & Hc12 & Hc21 & _ & _ & Hf12 & Hf21 & _);
    [reflexivity | reflexivity | discriminate | reflexivity | reflexivity
     | reflexivity | reflexivity | simpl; lia | lia | intros _; lia
     | intros _; lia |].
  exists s1, s12, s2, s21.
  split; [exact H1|]. split; [exact H12|]. split; [exact H2|].
  split; [exact H21|]. split; [exact Hd2|].
  split; [by rewrite Hc12, Hc21 | by rewrite Hf12, Hf21].
Defined.

(** ** The client on the sample world *)

Lemma Write_follows_protocol_witness :
  exists tr,
    Write 64 5 sample_world "/b" 60 eight_bytes [] = (Returns None, tr) /\
    exists chunks rest,
      tr = Ev (MasterGetFileInfo "/b") (Some chunks) :: rest /\
      write_protocol 64 "/b" 60 eight_bytes rest None.
Proof.
  pose (tr := (Write 64 5 sample_world "/b" 60 eight_bytes []).2).
  assert (Hrun : Write 64 5 sample_world "/b" 60 eight_bytes []
                 = (Returns None, tr)) by (vm_compute; reflexivity).
  exists tr. split; [exact Hrun|].
  destruct (Write_follows_protocol 64 sample_world "/b" 60 eight_bytes)
    as [Hp _]; [lia | lia | vm_compute; reflexivity
                | vm_compute; reflexivity |].
  destruct (Hp 5%nat None tr Hrun) as [[_ Hres]|(chunks & rest & Htr & Hok)];
    [discriminate Hres|].
  exists chunks, rest. split; [exact Htr|].
  destruct Hok as [(_ & _ & Hres)|[_ Hprot]]; [discriminate Hres|].
  exact Hprot.
Defined.

Lemma ReadChunk_request_witness :
  exists loc readLen reply,
    loc ∈ ["p"] /\ readLen = 8 /\
    (ReadChunk 64 sample_world 10 0 8 []).2
    = [Ev (MasterGetReplicas 10) (Some ["p"]);
       Ev (ChunkServerReadChunk loc 10 0 readLen) reply].
Proof.
  destruct (ReadChunk_request 64 sample_world 10 0 8 [] ["p"])
    as [_ Hask]; [lia | lia | lia | reflexivity |].
  destruct (Hask ltac:(discriminate))
    as (loc & readLen & reply & Hloc & Hlen & _ & _ & Htr).
  exists loc, readLen, reply. split; [exact Hloc|].
  split; [rewrite Hlen; reflexivity | exact Htr].
Defined.


(** ** Further scenarios *)

(** With a server registered under the empty address the choice can fail
    although a pair exists: the holder ["x"] is forgotten when the empty
    address, a holder too, is visited after it. *)
Example ChooseReReplication_forgets_holder :
  ChooseReReplication
    [("x", mkChunkServerInfo 0 {[ 5 := true ]});
     (EmptyString, mkChunkServerInfo 0 {[ 5 := true ]});
     ("y", mkChunkServerInfo 0 ∅)] 5
  = (EmptyString, "y", Some NoCandidates).
Proof. reflexivity. Qed.

(** A read of 8 bytes at offset 60 of chunks of 64 bytes gets 4 bytes from
    the chunk 0; the chunk 1 cannot be resolved and the read returns the
    count 0 with the error. *)
Example Read_forgets_count :
  (Read 64 5 second_chunk_lost_world "/b" 60 8 []).1
  = Returns (0, Some RpcError).
Proof. vm_compute. reflexivity. Qed.

(** A record of one byte in a slice of capacity one cannot be appended. *)
Example Append_one_byte_panics :
  (Append 64 16 5 sample_world "/c" [x41] 1 []).1 = Panics.
Proof. vm_compute. reflexivity. Qed.
